(** * colfmt: column-width resolution, rebalancing and formatting

    A shallow embedding of [colfmt.go] (package [colfmt]) and the
    properties of its width engine.

    Conventions of the embedding:
    - Go's [int] is a 64-bit two's-complement integer: values are [Z],
      and every arithmetic operation of the source is followed by
      [wrap], the reduction into the 64-bit range.
    - a Go [string] is a sequence of bytes: [string] of the standard
      library, one [ascii] per byte; [len] is the byte count.
    - [map[int]*ColumnSpec] is a finite map [gmap Z ColumnSpec].  The
      formatter and the rebalancer only read the specs, so the map holds
      the records; the parser, which mutates a spec after it has been
      stored under a key, works on an explicit heap of specs.
    - a run-time panic (index out of range, nil dereference, slice bounds
      out of range) is the result [Panics]; [die], a message on standard
      error followed by [os.Exit(1)], is the exit status [Exit1].
    - Go does not fix the order in which [range] visits a map.  The
      rebalancer is parametrised by [rangeOrder]: for the k-th [range]
      statement it executes, the order in which the entries of the map
      are visited.  The theorems hold for every such order. *)

From Stdlib Require Import ZArith Lia Ascii String.
From stdpp Require Import base option list gmap fin_maps.

Local Open Scope Z_scope.

(** ** Machine integers *)

Definition minInt : Z := - 2 ^ 63.
Definition maxInt : Z := 2 ^ 63 - 1.

(** Reduction of a mathematical integer into the range of [int]. *)
Definition wrap (z : Z) : Z := (z + 2 ^ 63) mod 2 ^ 64 - 2 ^ 63.
Arguments wrap : simpl never.

Definition isInt (z : Z) : Prop := minInt <= z <= maxInt.

(** [s[i]] on a slice: [None] is the index-out-of-range panic. *)
Definition index {A : Type} (s : list A) (i : Z) : option A :=
  if (0 <=? i) && (i <? Z.of_nat (length s)) then s !! Z.to_nat i else None.

(** [s[i] = x] on a slice whose index [i] has been checked. *)
Definition store {A : Type} (s : list A) (i : Z) (x : A) : list A :=
  <[Z.to_nat i := x]> s.

(** ** Results of partial code *)

Inductive result (A : Type) : Type :=
| Returns (a : A)
| Panics
| OutOfFuel.
Arguments Returns {A} a.
Arguments Panics {A}.
Arguments OutOfFuel {A}.

#[global] Instance result_bind : MBind result := fun A B k r =>
  match r with
  | Returns a => k a
  | Panics => Panics
  | OutOfFuel => OutOfFuel
  end.

Definition orPanic {A : Type} (o : option A) : result A :=
  match o with
  | Some a => Returns a
  | None => Panics
  end.

(** ** Column specifications *)

Inductive ColumnType : Type := TypeString | TypeAge.

Record ColumnSpec : Type := {
  Type_ : ColumnType;
  WidthMin : Z;
  WidthMax : Z
}.

(** The zero value [&ColumnSpec{}]. *)
Definition zeroSpec : ColumnSpec :=
  {| Type_ := TypeString; WidthMin := 0; WidthMax := 0 |}.

(** A spec of type [TypeString] with the given bounds. *)
Definition widthSpec (lo hi : Z) : ColumnSpec :=
  {| Type_ := TypeString; WidthMin := lo; WidthMax := hi |}.

Definition HasFlexibleWidth (spec : ColumnSpec) : bool :=
  (WidthMax spec <? 0) || (WidthMin spec <? WidthMax spec).

(** ** rebalanceWidths *)

(** The state of the shrink loop: the slice [widths], [consumedWidth] and
    the map [adjustable]. *)
Record loopState : Type := {
  widths : list Z;
  consumedWidth : Z;
  adjustable : gmap Z ColumnSpec
}.

(** [for i, width := range widths { consumedWidth += width; if i > 0 {
    consumedWidth += 2 } }], started at column [i] with the sum so far. *)
Fixpoint consumedFrom (i : nat) (ws : list Z) (acc : Z) : Z :=
  match ws with
  | [] => acc
  | width :: rest =>
      let acc1 := wrap (acc + width) in
      let acc2 := match i with O => acc1 | S _ => wrap (acc1 + 2) end in
      consumedFrom (S i) rest acc2
  end.

Definition consumed (ws : list Z) : Z := consumedFrom 0 ws 0.

(** One entry of [for i, spec := range specs]: the right operand of [&&]
    is evaluated, and may panic, only for a flexible spec. *)
Definition addAdjustable (ws : list Z) (acc : result (gmap Z ColumnSpec))
    (entry : Z * ColumnSpec) : result (gmap Z ColumnSpec) :=
  adj ← acc;
  let '(i, spec) := entry in
  if HasFlexibleWidth spec then
    w ← orPanic (index ws i);
    Returns (if WidthMin spec <? w then <[i := spec]> adj else adj)
  else Returns adj.

Definition buildAdjustable (entries : list (Z * ColumnSpec)) (ws : list Z)
    : result (gmap Z ColumnSpec) :=
  foldl (addAdjustable ws) (Returns ∅) entries.

(** One entry of [for i := range adjustable]: the pair is
    [(widestIndex, widestWidth)]. *)
Definition widerOf (ws : list Z) (acc : result (Z * Z)) (i : Z)
    : result (Z * Z) :=
  cur ← acc;
  w ← orPanic (index ws i);
  Returns (if snd cur <? w then (i, w) else cur).

Definition findWidest (keys : list Z) (ws : list Z) : result (Z * Z) :=
  foldl (widerOf ws) (Returns (0, 0)) keys.

(** The body of the shrink loop.  [adjustable[widestIndex].WidthMin]
    dereferences a nil pointer when [widestIndex] is not a key. *)
Definition shrinkStep (keys : list Z) (st : loopState) : result loopState :=
  widest ← findWidest keys (widths st);
  let widestIndex := fst widest in
  w ← orPanic (index (widths st) widestIndex);
  let widths' := store (widths st) widestIndex (wrap (w - 1)) in
  let consumedWidth' := wrap (consumedWidth st - 1) in
  w' ← orPanic (index widths' widestIndex);
  spec ← orPanic (adjustable st !! widestIndex);
  Returns {| widths := widths';
             consumedWidth := consumedWidth';
             adjustable := if w' <=? WidthMin spec
                           then delete widestIndex (adjustable st)
                           else adjustable st |}.

(** The guard [consumedWidth > availableWidth && len(adjustable) > 0]. *)
Definition loopGuard (availableWidth : Z) (st : loopState) : bool :=
  (availableWidth <? consumedWidth st)
  && (0 <? Z.of_nat (size (adjustable st))).

(** The sum of [widths[i] - WidthMin] over the adjustable columns. *)
Definition slack (ws : list Z) (entry : Z * ColumnSpec) : Z :=
  match index ws (fst entry) with
  | Some w => w - WidthMin (snd entry)
  | None => 0
  end.

Definition Zsum (l : list Z) : Z := foldr Z.add 0 l.

Definition potentialOf (adj : gmap Z ColumnSpec) (ws : list Z) : Z :=
  Zsum (slack ws <$> map_to_list adj).

Definition potential (st : loopState) : Z :=
  potentialOf (adjustable st) (widths st).

Section Rebalance.
(** The order in which the k-th [range] over a map visits its entries. *)
Variable rangeOrder : nat -> gmap Z ColumnSpec -> list (Z * ColumnSpec).
Variable availableWidth : Z.

(** The shrink loop; [k] numbers the [range] statements executed so far.
    The second component counts the iterations entered. *)
Fixpoint shrinkLoop (fuel : nat) (k : nat) (st : loopState)
    : result loopState * nat :=
  if loopGuard availableWidth st then
    match fuel with
    | O => (OutOfFuel, O)
    | S fuel' =>
        match shrinkStep (fst <$> rangeOrder k (adjustable st)) st with
        | Returns st' =>
            let '(r, n) := shrinkLoop fuel' (S k) st' in (r, S n)
        | Panics => (Panics, 1%nat)
        | OutOfFuel => (OutOfFuel, 1%nat)
        end
    end
  else (Returns st, O).

(** The state in which the shrink loop is entered. *)
Definition initialState (ws : list Z) (specs : gmap Z ColumnSpec)
    : result loopState :=
  adj ← buildAdjustable (rangeOrder 0 specs) ws;
  Returns {| widths := ws; consumedWidth := consumed ws; adjustable := adj |}.

Definition rebalanceWidths (ws : list Z) (specs : gmap Z ColumnSpec)
    : result (list Z) :=
  st ← initialState ws specs;
  final ← fst (shrinkLoop (Z.to_nat (potential st)) 1 st);
  Returns (widths final).
End Rebalance.

(** An order visits every entry of the map once. *)
Definition validOrder
    (rangeOrder : nat -> gmap Z ColumnSpec -> list (Z * ColumnSpec)) : Prop :=
  forall k m, rangeOrder k m ≡ₚ map_to_list m.

(** The order of stdpp's [map_to_list], one of the orders Go may use. *)
Definition keyOrder (k : nat) (m : gmap Z ColumnSpec) : list (Z * ColumnSpec) :=
  map_to_list m.

(** The adjustable set in the words of the specification: the indices
    present in [specs] whose spec has a flexible width and whose current
    width exceeds that spec's [WidthMin]. *)
Definition isAdjustable (ws : list Z) (entry : Z * ColumnSpec) : bool :=
  HasFlexibleWidth (snd entry) &&
  match index ws (fst entry) with
  | Some w => WidthMin (snd entry) <? w
  | None => false
  end.

Definition adjustableSet (ws : list Z) (specs : gmap Z ColumnSpec)
    : gmap Z ColumnSpec :=
  filter (fun entry => isAdjustable ws entry = true) specs.

(** The bound of the specification on the number of iterations: the sum
    of [width - WidthMin] over the initially adjustable columns. *)
Definition shrinkBound (ws : list Z) (specs : gmap Z ColumnSpec) : Z :=
  potentialOf (adjustableSet ws specs) ws.

(** Inputs whose integers are values of [int]. *)
Definition wfWidths (ws : list Z) : Prop := Forall isInt ws.

Definition wfSpecs (specs : gmap Z ColumnSpec) : Prop :=
  forall i s, specs !! i = Some s -> isInt (WidthMin s).

(** The gutters counted in [consumedWidth]: two per column after the
    first. *)
Definition gutters (n : nat) : Z := 2 * Z.of_nat (Nat.pred n).

(** The invariant of the shrink loop, relative to the widths [ws0] and the
    adjustable set [adj0] with which it is entered: a column still
    adjustable is above its minimum and not above its initial width; a
    column that has left the set sits at its minimum; every other column
    is untouched. *)
Definition columnInv (ws0 : list Z) (adj0 : gmap Z ColumnSpec)
    (st : loopState) (i : Z) : Prop :=
  match adjustable st !! i, adj0 !! i with
  | Some s, o =>
      o = Some s /\
      exists w w0, index (widths st) i = Some w /\ index ws0 i = Some w0 /\
                   WidthMin s < w <= w0
  | None, Some s =>
      index (widths st) i = Some (WidthMin s) /\
      exists w0, index ws0 i = Some w0 /\ WidthMin s < w0
  | None, None => index (widths st) i = index ws0 i
  end.

Definition loopInv (ws0 : list Z) (adj0 : gmap Z ColumnSpec)
    (st : loopState) : Prop :=
  length (widths st) = length ws0 /\
  wfWidths (widths st) /\
  consumedWidth st = consumed (widths st) /\
  forall i, columnInv ws0 adj0 st i.

(** ** Strings *)

Local Open Scope string_scope.
Local Open Scope Z_scope.

Definition len (s : string) : Z := Z.of_nat (String.length s).

Definition byteOf (c : ascii) : Z := Z.of_N (N_of_ascii c).

(** [s[lo:hi]]; [None] is the slice-bounds-out-of-range panic. *)
Definition slice (s : string) (lo hi : Z) : option string :=
  if (0 <=? lo) && (lo <=? hi) && (hi <=? len s)
  then Some (substring (Z.to_nat lo) (Z.to_nat (hi - lo)) s)
  else None.

(** [strings.HasSuffix]:
    [len(s) >= len(suffix) && s[len(s)-len(suffix):] == suffix]. *)
Definition HasSuffix (s suffix : string) : bool :=
  (len suffix <=? len s) &&
  match slice s (len s - len suffix) (len s) with
  | Some tail => String.eqb tail suffix
  | None => false
  end.

(** [strings.TrimSuffix]. *)
Definition TrimSuffix (s suffix : string) : string :=
  if HasSuffix s suffix
  then default s (slice s 0 (len s - len suffix))
  else s.

(** [strings.Split(s, sep)] for a separator of one byte: the pieces of
    [s] between the occurrences of [sep]; [cur] is the piece being read. *)
Fixpoint splitFrom (sep : ascii) (s cur : string) : list string :=
  match s with
  | EmptyString => [cur]
  | String c rest =>
      if Ascii.eqb c sep then cur :: splitFrom sep rest EmptyString
      else splitFrom sep rest (String.append cur (String c EmptyString))
  end.

Definition Split (s : string) (sep : ascii) : list string := splitFrom sep s EmptyString.

(** [strconv.Atoi]: an optional sign, then one or more decimal digits, the
    value within the range of [int]; [None] is a non-nil error. *)
Definition digitOf (c : ascii) : option Z :=
  let b := byteOf c in
  if (48 <=? b) && (b <=? 57) then Some (b - 48) else None.

Fixpoint digitsFrom (s : string) (acc : Z) : option Z :=
  match s with
  | EmptyString => Some acc
  | String c rest =>
      match digitOf c with
      | Some d => digitsFrom rest (10 * acc + d)
      | None => None
      end
  end.

Definition unsignedOf (s : string) : option Z :=
  match s with
  | EmptyString => None
  | _ => digitsFrom s 0
  end.

Definition Atoi (s : string) : option Z :=
  let signed :=
    match s with
    | String "+" rest => unsignedOf rest
    | String "-" rest => Z.opp <$> unsignedOf rest
    | _ => unsignedOf s
    end in
  match signed with
  | Some n => if (minInt <=? n) && (n <=? maxInt) then Some n else None
  | None => None
  end.

(** ** UTF-8 (package [unicode/utf8])

    [fmt] measures a width in code points and [bufio.ScanWords] splits at
    the code points that are spaces, so both need the decoder. *)

Definition RuneError : Z := 65533.

(** A continuation byte, [0x80..0xBF]. *)
Definition isCont (b : Z) : bool := (128 <=? b) && (b <=? 191).

(** For a leading byte: the length of the encoding and the range accepted
    for its second byte (the tables [first] and [acceptRanges]). *)
Definition leadInfo (b : Z) : option (nat * Z * Z) :=
  if b <? 194 then None
  else if b <? 224 then Some (2%nat, 128, 191)
  else if b =? 224 then Some (3%nat, 160, 191)
  else if b =? 237 then Some (3%nat, 128, 159)
  else if b <? 240 then Some (3%nat, 128, 191)
  else if b =? 240 then Some (4%nat, 144, 191)
  else if b <? 244 then Some (4%nat, 128, 191)
  else if b =? 244 then Some (4%nat, 128, 143)
  else None.

Definition low6 (b : Z) : Z := Z.land b 63.

(** [utf8.DecodeRuneInString]: the first code point of [s] and the number
    of bytes of its encoding; [(RuneError, 1)] for an invalid or truncated
    encoding, [(RuneError, 0)] for the empty string. *)
Definition DecodeRuneInString (s : string) : Z * nat :=
  match s with
  | EmptyString => (RuneError, O)
  | String c0 rest0 =>
      let b0 := byteOf c0 in
      if b0 <? 128 then (b0, 1%nat)
      else
        match leadInfo b0, rest0 with
        | Some (size, lo, hi), String c1 rest1 =>
            let b1 := byteOf c1 in
            if (b1 <? lo) || (hi <? b1) then (RuneError, 1%nat)
            else
              match size, rest1 with
              | 2%nat, _ =>
                  (Z.lor (Z.shiftl (Z.land b0 31) 6) (low6 b1), 2%nat)
              | 3%nat, String c2 _ =>
                  let b2 := byteOf c2 in
                  if isCont b2
                  then (Z.lor (Z.shiftl (Z.land b0 15) 12)
                          (Z.lor (Z.shiftl (low6 b1) 6) (low6 b2)), 3%nat)
                  else (RuneError, 1%nat)
              | 4%nat, String c2 (String c3 _) =>
                  let b2 := byteOf c2 in
                  let b3 := byteOf c3 in
                  if isCont b2 && isCont b3
                  then (Z.lor (Z.shiftl (Z.land b0 7) 18)
                          (Z.lor (Z.shiftl (low6 b1) 12)
                             (Z.lor (Z.shiftl (low6 b2) 6) (low6 b3))), 4%nat)
                  else (RuneError, 1%nat)
              | _, _ => (RuneError, 1%nat)
              end
        | _, _ => (RuneError, 1%nat)
        end
  end.

(** [utf8.RuneCountInString]; [skip] bytes of [s] still belong to the code
    point counted last. *)
Fixpoint runeCountFrom (s : string) (skip : nat) : nat :=
  match s with
  | EmptyString => O
  | String _ rest =>
      match skip with
      | S k => runeCountFrom rest k
      | O => S (runeCountFrom rest (Nat.pred (snd (DecodeRuneInString s))))
      end
  end.

Definition RuneCountInString (s : string) : Z := Z.of_nat (runeCountFrom s 0).

(** [isSpace] of package [bufio]. *)
Definition isSpace (r : Z) : bool :=
  if r <=? 255 then
    (r =? 32) || ((9 <=? r) && (r <=? 13)) || (r =? 133) || (r =? 160)
  else
    ((8192 <=? r) && (r <=? 8202)) ||
    (r =? 5760) || (r =? 8232) || (r =? 8233) || (r =? 8239) ||
    (r =? 8287) || (r =? 12288).

Definition flushWord (cur : string) : list string :=
  match cur with
  | EmptyString => []
  | _ => [cur]
  end.

(** [bufio.MaxScanTokenSize], the largest size of the buffer of a
    scanner. *)
Definition maxScanTokenSize : Z := 65536.

(** The words of [s] by [bufio.ScanWords], the split function applied
    from word to word with the whole of [s] at hand: the maximal runs of
    bytes between space code points.  [skip] bytes of [s] still belong to
    the code point read last, a space iff [inSpace]; [cur] is the word
    read so far. *)
Fixpoint scanWordsFrom (s : string) (skip : nat) (inSpace : bool)
    (cur : string) : list string :=
  match s with
  | EmptyString => flushWord cur
  | String c rest =>
      match skip with
      | S k =>
          if inSpace then scanWordsFrom rest k true cur
          else scanWordsFrom rest k false (String.append cur (String c EmptyString))
      | O =>
          let '(r, size) := DecodeRuneInString s in
          if isSpace r
          then flushWord cur ++ scanWordsFrom rest (Nat.pred size) true EmptyString
          else scanWordsFrom rest (Nat.pred size) false
                 (String.append cur (String c EmptyString))
      end
  end.

Definition ScanWords (s : string) : list string := scanWordsFrom s 0 false EmptyString.

(** The words that a [bufio.Scanner] with [bufio.ScanWords] yields on [s]
    before [Scan] returns false, and whether it stopped with
    [bufio.ErrTooLong].  The split function returns a word once the
    buffer holds it with the whole space code point that ends it, or at
    the end of the input; the spaces before a word are consumed first.  A
    buffer of [maxScanTokenSize] bytes that holds no token makes the
    scanner fail: this happens for a word that with the space after it
    has more bytes than that, and for a last word that has as many or
    more.  The arguments are those of [scanWordsFrom]. *)
Fixpoint scanWordsWithin (s : string) (skip : nat) (inSpace : bool)
    (cur : string) : list string * bool :=
  match s with
  | EmptyString =>
      if maxScanTokenSize <=? len cur then ([], true)
      else (flushWord cur, false)
  | String c rest =>
      match skip with
      | S k =>
          if inSpace then scanWordsWithin rest k true cur
          else scanWordsWithin rest k false (String.append cur (String c EmptyString))
      | O =>
          let '(r, size) := DecodeRuneInString s in
          if isSpace r
          then
            if maxScanTokenSize <? len cur + Z.of_nat size then ([], true)
            else
              let '(words, tooLong) :=
                scanWordsWithin rest (Nat.pred size) true EmptyString in
              ((flushWord cur ++ words)%list, tooLong)
          else scanWordsWithin rest (Nat.pred size) false
                 (String.append cur (String c EmptyString))
      end
  end.

(** Every byte of [s] is an ASCII character other than a space. *)
Fixpoint plainWord (s : string) : bool :=
  match s with
  | EmptyString => true
  | String c rest =>
      (byteOf c <? 128) && negb (isSpace (byteOf c)) && plainWord rest
  end.

(** ** ParseColumnSpecs *)

Inductive errorOr (E A : Type) : Type :=
| Value (a : A)
| Error (e : E).
Arguments Value {E A} a.
Arguments Error {E A} e.

(** The two [fmt.Errorf] of the parser, and the error of its scanner. *)
Inductive parseError : Type :=
| InvalidColumnNumber (n : Z)
| UnexpectedToken (word : string)
| WordTooLong.

(** [parseColumnWidth]: [None] is the result [(0, false)]. *)
Definition parseColumnWidth (word : string) : option Z :=
  match (if HasSuffix word "c" then Atoi (TrimSuffix word "c") else None) with
  | Some width => Some width
  | None => if String.eqb word "*" then Some (-1) else None
  end.

(** The variables of the parsing loop.  A [*ColumnSpec] is an address in
    [heap]; [specs] maps a column to the address stored under it, so that
    every column named before a [;] shares the spec being built. *)
Record parser : Type := {
  specs : gmap Z nat;
  heap : list ColumnSpec;
  spec : nat;
  needNewSpec : bool;
  maxColumn : Z
}.

Definition parserStart : parser :=
  {| specs := ∅; heap := [zeroSpec]; spec := O; needNewSpec := false;
     maxColumn := 0 |}.

(** [spec = &ColumnSpec{}]. *)
Definition newSpec (p : parser) : parser :=
  {| specs := specs p; heap := heap p ++ [zeroSpec];
     spec := length (heap p); needNewSpec := false;
     maxColumn := maxColumn p |}.

(** An assignment through the pointer [spec]. *)
Definition updateSpec (f : ColumnSpec -> ColumnSpec) (p : parser) : parser :=
  {| specs := specs p; heap := alter f (spec p) (heap p);
     spec := spec p; needNewSpec := needNewSpec p;
     maxColumn := maxColumn p |}.

Definition setNeedNewSpec (p : parser) : parser :=
  {| specs := specs p; heap := heap p; spec := spec p; needNewSpec := true;
     maxColumn := maxColumn p |}.

Definition setWidths (lo hi : Z) (s : ColumnSpec) : ColumnSpec :=
  {| Type_ := Type_ s; WidthMin := lo; WidthMax := hi |}.

Definition setType (t : ColumnType) (s : ColumnSpec) : ColumnSpec :=
  {| Type_ := t; WidthMin := WidthMin s; WidthMax := WidthMax s |}.

(** The [switch word] on the keywords. *)
Definition parseKeyword (word : string) (p : parser)
    : errorOr parseError parser :=
  if String.eqb word ";" then Value (setNeedNewSpec p)
  else if String.eqb word "age" then Value (updateSpec (setType TypeAge) p)
  else Error (UnexpectedToken word).

(** The width range [lower-upper]; [None] when the word is not one. *)
Definition parseRange (word : string) : option (Z * Z) :=
  match Split word "-" with
  | [b0; b1] =>
      match parseColumnWidth b0 with
      | Some lower =>
          match parseColumnWidth b1 with
          | Some upper => Some (lower, upper)
          | None => None
          end
      | None => None
      end
  | _ => None
  end.

(** The body of [for scan.Scan()] on the token [word0]. *)
Definition parseWord (p0 : parser) (word0 : string)
    : errorOr parseError parser :=
  let p1 := if needNewSpec p0 then newSpec p0 else p0 in
  let '(p, word) :=
    if HasSuffix word0 ";"
    then (setNeedNewSpec p1, TrimSuffix word0 ";")
    else (p1, word0) in
  match Atoi word with
  | Some n =>
      if n <? 1 then Error (InvalidColumnNumber n)
      else Value {| specs := <[wrap (n - 1) := spec p]> (specs p);
                    heap := heap p; spec := spec p;
                    needNewSpec := needNewSpec p;
                    maxColumn := if maxColumn p <? n then n else maxColumn p |}
  | None =>
      match parseColumnWidth word with
      | Some width => Value (updateSpec (setWidths width width) p)
      | None =>
          match parseRange word with
          | Some (lower, upper) => Value (updateSpec (setWidths lower upper) p)
          | None => parseKeyword word p
          end
      end
  end.

Fixpoint parseWords (p : parser) (words : list string)
    : errorOr parseError parser :=
  match words with
  | [] => Value p
  | word :: rest =>
      match parseWord p word with
      | Value p' => parseWords p' rest
      | Error e => Error e
      end
  end.

(** The spec behind the pointer [spec]. *)
Definition currentSpec (p : parser) : option ColumnSpec := heap p !! spec p.

(** The pointer [spec] is never dangling. *)
Definition wfParser (p : parser) : Prop := (spec p < length (heap p))%nat.

(** The map returned, with every pointer followed. *)
Definition specsOf (p : parser) : gmap Z ColumnSpec :=
  omap (fun a => heap p !! a) (specs p).

(** [ParseColumnSpecs]: the words are parsed as the scanner yields them,
    so the error of a word comes before the error of the scanner, which
    [scan.Err()] returns after the loop ([WordTooLong] is
    [bufio.ErrTooLong]). *)
Definition ParseColumnSpecs (specDescription : string)
    : errorOr parseError (gmap Z ColumnSpec) :=
  let '(words, tooLong) :=
    scanWordsWithin specDescription 0 false EmptyString in
  match parseWords parserStart words with
  | Value p => if tooLong then Error WordTooLong else Value (specsOf p)
  | Error e => Error e
  end.

(** ** Main: width resolution *)

(** The calls of [die] in [Main]. *)
Inductive fatal : Type :=
| ParsingColumnSpec (e : parseError)
| FieldCountMismatch.

(** [for j, column := range row { if len(column) > widths[j] { widths[j] =
    len(column) } }], from column [j] on. *)
Fixpoint scanRow (j : nat) (row : list string) (ws : list Z)
    : result (list Z) :=
  match row with
  | [] => Returns ws
  | column :: rest =>
      w ← orPanic (ws !! j);
      scanRow (S j) rest (if w <? len column then <[j := len column]> ws else ws)
  end.

(** [for _, row := range rows]: the check of the field count, then the
    scan of the row. *)
Fixpoint scanRows (rows : list (list string)) (ws : list Z)
    : errorOr fatal (result (list Z)) :=
  match rows with
  | [] => Value (Returns ws)
  | row :: rest =>
      if bool_decide (length row = length ws) then
        match scanRow 0 row ws with
        | Returns ws' => scanRows rest ws'
        | other => Value other
        end
      else Error FieldCountMismatch
  end.

(** The field of [row] that the scan started at column [j] compares with
    [widths[k]]. *)
Definition fieldAt (j : nat) (row : list string) (k : nat) : option string :=
  if decide (j <= k)%nat then row !! (k - j)%nat else None.

(** "calculate column widths": [widths := make([]int, len(rows[0]))] and
    the loop over the rows. *)
Definition calculateWidths (rows : list (list string))
    : errorOr fatal (result (list Z)) :=
  match rows with
  | [] => Value Panics
  | first :: _ => scanRows rows (replicate (length first) 0)
  end.

(** One iteration of "adjust column widths based on specs": both
    comparisons read the loop variable [width], the value of [widths[i]]
    when the iteration starts. *)
Definition adjustWidth (specs : gmap Z ColumnSpec) (i : nat) (width : Z) : Z :=
  match specs !! Z.of_nat i with
  | None => width
  | Some spec =>
      let raised := if width <? WidthMin spec then WidthMin spec else width in
      if (0 <=? WidthMax spec) && (WidthMax spec <? width)
      then WidthMax spec
      else raised
  end.

Definition adjustWidths (specs : gmap Z ColumnSpec) (ws : list Z) : list Z :=
  imap (adjustWidth specs) ws.

(** Width resolution: lines 110-136 of [Main]. *)
Definition resolveWidths (rows : list (list string))
    (specs : gmap Z ColumnSpec) : errorOr fatal (result (list Z)) :=
  match calculateWidths rows with
  | Value (Returns ws) => Value (Returns (adjustWidths specs ws))
  | other => other
  end.

(** The natural width of column [j] in the words of the specification:
    the maximum observed field length across all rows. *)
Definition naturalWidth (rows : list (list string)) (j : nat) : Z :=
  foldr (fun row acc => Z.max (from_option len 0 (row !! j)) acc) 0 rows.

(** ** Main: output *)

Fixpoint spaces (n : nat) : string :=
  match n with
  | O => EmptyString
  | S k => String " " (spaces k)
  end.

(** The decimal digit [d]. *)
Definition digitChar (d : Z) : ascii := ascii_of_N (Z.to_N (48 + d)).

(** The decimal digits of [n], which is not negative, before [acc]; an
    [int] has at most 19 of them. *)
Fixpoint digitsOf (fuel : nat) (n : Z) (acc : string) : string :=
  match fuel with
  | O => acc
  | S fuel' =>
      let acc' := String (digitChar (n mod 10)) acc in
      if n <? 10 then acc' else digitsOf fuel' (n / 10) acc'
  end.

(** [strconv.Itoa]. *)
Definition Itoa (n : Z) : string :=
  if n <? 0 then String "-" (digitsOf 19 (- n) EmptyString)
  else digitsOf 19 n EmptyString.

(** [tooLarge] of package [fmt]: "the magnitude of the integer is too
    large to be used as a formatting width". *)
Definition tooLarge (x : Z) : bool := (1000000 <? x) || (x <? -1000000).

(** [parsenum] of package [fmt] on the rest of the format: the number,
    whether there is one, and what follows it.  The test of [tooLarge]
    comes before each digit is added; on overflow the result is
    [(0, false, end)], nothing of the format being left. *)
Fixpoint parsenum (s : string) (num : Z) (isnum : bool)
    : Z * bool * string :=
  match s with
  | EmptyString => (num, isnum, EmptyString)
  | String c rest =>
      match digitOf c with
      | Some d =>
          if tooLarge num then (0, false, EmptyString)
          else parsenum rest (wrap (num * 10 + d)) true
      | None => (num, isnum, s)
      end
  end.

(** The flags of the format: it holds no flag but [-]. *)
Fixpoint minusFlags (s : string) : string :=
  match s with
  | EmptyString => EmptyString
  | String c rest => if Ascii.eqb c "-" then minusFlags rest else s
  end.

Definition noVerbString : string := "%!(NOVERB)".
Definition extraString : string := "%!(EXTRA ".

(** [fmt.Sprintf("%-" + strconv.Itoa(width) + "s", s)], for a [width]
    other than 0.  After the flags the width is read by [parsenum].  When
    it is read, the verb [s] writes the string and pads it on the right
    with spaces to [width] code points (the documentation of [fmt]:
    "Width is measured in units of Unicode code points").  When
    [parsenum] overflows, the format is at its end: there is no verb, and
    the argument is reported as extra. *)
Definition Sprintf_left (width : Z) (s : string) : string :=
  let '(wid, widPresent, rest) :=
    parsenum (minusFlags (String.append (Itoa width) "s")) 0 false in
  match rest with
  | EmptyString =>
      String.append noVerbString
        (String.append extraString
           (String.append "string=" (String.append s ")")))
  | String _ _ =>
      if negb widPresent || (wid =? 0) then s
      else String.append s (spaces (Z.to_nat (wid - RuneCountInString s)))
  end.

(** The first width that [fmt] does not read: 1000001 followed by one
    more digit. *)
Definition firstWidthTooLarge : Z := 10000010.

(** [if len(row[i]) > widths[i] { row[i] = row[i][0:widths[i]] }]. *)
Definition truncateField (width : Z) (field : string) : result string :=
  if width <? len field then orPanic (slice field 0 width) else Returns field.

(** The cell emitted for a field in a column of non-zero width. *)
Definition formatCell (width : Z) (field : string) : result string :=
  s ← truncateField width field;
  Returns (Sprintf_left width s).

(** [for i, format := range formats]: the cells of one row, from column
    [i] on; zero-width columns are skipped. *)
Fixpoint formatColumns (i : nat) (ws : list Z) (row : list string)
    : result (list string) :=
  match ws with
  | [] => Returns []
  | width :: rest =>
      if width =? 0 then formatColumns (S i) rest row
      else
        field ← orPanic (row !! i);
        cell ← formatCell width field;
        cells ← formatColumns (S i) rest row;
        Returns (cell :: cells)
  end.

(** [strings.Join]. *)
Fixpoint Join (elems : list string) (sep : string) : string :=
  match elems with
  | [] => EmptyString
  | [e] => e
  | e :: rest => String.append e (String.append sep (Join rest sep))
  end.

Definition outputFieldSeparator : string := "  ".
Definition outputRecordSeparator : string := String "010" EmptyString.

Definition formatRow (ws : list Z) (row : list string) : result string :=
  columns ← formatColumns 0 ws row;
  Returns (String.append (Join columns outputFieldSeparator)
             outputRecordSeparator).

(** The cell without its last [n] bytes. *)
Definition dropRight (n : nat) (s : string) : string :=
  substring 0 (String.length s - n) s.


(** Every byte is below [utf8.RuneSelf]. *)
Fixpoint isASCII (s : string) : bool :=
  match s with
  | EmptyString => true
  | String c rest => (byteOf c <? 128) && isASCII rest
  end.

(** How a run ends, and what it has written to standard output. *)
Inductive exitStatus : Type :=
| Exit0
| Exit1 (f : fatal)
| Panicked
| RanOutOfFuel.

Record run : Type := {
  stdout : string;
  status : exitStatus
}.

(** "output formatted data": the rows are written one by one, so a panic
    leaves the earlier lines on standard output. *)
Fixpoint writeRows (ws : list Z) (rows : list (list string)) (out : string)
    : run :=
  match rows with
  | [] => {| stdout := out; status := Exit0 |}
  | row :: rest =>
      match formatRow ws row with
      | Returns line => writeRows ws rest (String.append out line)
      | Panics => {| stdout := out; status := Panicked |}
      | OutOfFuel => {| stdout := out; status := RanOutOfFuel |}
      end
  end.

Definition stopped {A : Type} (r : result A) : exitStatus :=
  match r with
  | OutOfFuel => RanOutOfFuel
  | _ => Panicked
  end.

(** [Main] from the parsing of the column specification on.  [rawSpec] is
    the first argument of the command line, [rows] the records read from
    standard input, split into fields and with the age columns rendered,
    [terminalWidth] the global of that name after the flags are parsed
    (0 when standard output is not a terminal and no [-w] is given). *)
Definition Main (rangeOrder : nat -> gmap Z ColumnSpec -> list (Z * ColumnSpec))
    (terminalWidth : Z) (rawSpec : string) (rows : list (list string)) : run :=
  match ParseColumnSpecs rawSpec with
  | Error e => {| stdout := EmptyString; status := Exit1 (ParsingColumnSpec e) |}
  | Value specs =>
      match rows with
      | [] => {| stdout := EmptyString; status := Exit0 |}
      | _ =>
          match resolveWidths rows specs with
          | Error f => {| stdout := EmptyString; status := Exit1 f |}
          | Value (Returns ws) =>
              match rebalanceWidths rangeOrder terminalWidth ws specs with
              | Returns ws' => writeRows ws' rows EmptyString
              | other => {| stdout := EmptyString; status := stopped other |}
              end
          | Value other => {| stdout := EmptyString; status := stopped other |}
          end
      end
  end.

(** Levelling, relative to the widths [ws0] with which the shrink loop is
    entered: no adjustable column is more than one wider than a column
    that has been shrunk. *)
Definition levelInv (ws0 : list Z) (st : loopState) : Prop :=
  forall j wj0 wj i s wi,
    index ws0 j = Some wj0 -> index (widths st) j = Some wj -> wj < wj0 ->
    adjustable st !! i = Some s -> index (widths st) i = Some wi ->
    wi <= wj + 1.

(** ** Definitions used by the further properties *)

(** The calls on which the shrink loop cannot panic: every flexible spec
    names a column of the widths vector and has a minimum of 0 or more. *)
Definition safeSpecs (ws : list Z) (specs : gmap Z ColumnSpec) : Prop :=
  forall i s, specs !! i = Some s -> HasFlexibleWidth s = true ->
              is_Some (index ws i) /\ 0 <= WidthMin s.

(** [specs[n-1] = spec], with the update of [maxColumn]. *)
Definition assignColumn (n : Z) (p : parser) : parser :=
  {| specs := <[wrap (n - 1) := spec p]> (specs p);
     heap := heap p; spec := spec p;
     needNewSpec := needNewSpec p;
     maxColumn := if maxColumn p <? n then n else maxColumn p |}.

(** The bounds of a spec are values of [int]. *)
Definition intSpec (s : ColumnSpec) : Prop :=
  isInt (WidthMin s) /\ isInt (WidthMax s).

(** What every state of the parsing loop satisfies: the pointers are
    valid, the bounds are values of [int] and the keys are column numbers
    less one. *)
Definition parserInv (p : parser) : Prop :=
  wfParser p /\
  Forall intSpec (heap p) /\
  forall c a, specs p !! c = Some a ->
              0 <= c < maxInt /\ (a < length (heap p))%nat.

(** The column number a word stands for, if any. *)
Definition wordNumber (word : string) : option Z := Atoi (TrimSuffix word ";").

(** A later word names column [c] again. *)
Definition namedIn (c : Z) (words : list string) : Prop :=
  exists word n, word ∈ words /\ wordNumber word = Some n /\ 1 <= n /\ c = n - 1.

(** The specs allocated before address [a0] can no longer be reached
    through the pointer [spec]; [heap0] is the heap when the group was
    closed. *)
Definition sealedFrom (a0 : nat) (heap0 : list ColumnSpec) (p : parser) : Prop :=
  (a0 <= length (heap p))%nat /\
  (needNewSpec p = true \/ (a0 <= spec p)%nat) /\
  forall a, (a < a0)%nat -> heap p !! a = heap0 !! a.

(** The widths of the columns that are written. *)
Definition shownWidths (ws : list Z) : list Z := filter (fun w => w <> 0) ws.

(** The length of a line without its terminator: the widths shown and two
    per gutter between them. *)
Definition lineWidth (ws : list Z) : Z :=
  Zsum (shownWidths ws) + gutters (length (shownWidths ws)).

(** What the successive [io.WriteString] calls leave on standard output. *)
Definition concatLines (lines : list string) : string :=
  foldr String.append EmptyString lines.

(** [bytes.IndexByte]: the index of the first [c] in [s], -1 if there is
    none; [i] is the index of the first byte of [s]. *)
Fixpoint indexByteFrom (i : Z) (s : string) (c : ascii) : Z :=
  match s with
  | EmptyString => -1
  | String x rest => if Ascii.eqb x c then i else indexByteFrom (i + 1) rest c
  end.

Definition IndexByte (s : string) (c : ascii) : Z := indexByteFrom 0 s c.

(** The split function [on(delimiter)]: the advance and the token, [None]
    for a nil token; the error it returns is always nil. *)
Definition on (delimiter : ascii) (data : string) (atEOF : bool)
    : result (Z * option string) :=
  if atEOF then
    if len data =? 0 then Returns (0, None)
    else Returns (len data, Some data)
  else
    let i := IndexByte data delimiter in
    if 0 <=? i then
      token ← orPanic (slice data 0 i);
      Returns (wrap (i + 1), Some token)
    else Returns (0, None).

(** The number of empty tokens at the end of the input after which a
    scanner panics. *)
Definition maxConsecutiveEmptyReads : Z := 100.

(** The errors of a [bufio.Scanner] over an input that is read without
    error. *)
Inductive scanError : Type :=
  ErrNegativeAdvance | ErrAdvanceTooFar | ErrTooLong.

(** The number of bytes a read hands over: standard input is a file, a
    read of which gives at least one byte while there is input; it gives
    no more than there is room for in the buffer.  [wanted] is the choice
    of the operating system. *)
Definition readSize (wanted : Z) (buf input : string) : nat :=
  Z.to_nat (Z.max 1 (Z.min wanted
                       (Z.min (len input) (maxScanTokenSize - len buf)))).

(** "Must read more data": the scanner stops at the end of the input,
    fails when the buffer is full at its largest size, and reads
    otherwise.  [buf] holds the bytes read and not yet consumed, [input]
    the bytes not yet read. *)
Definition needMore {A : Type}
    (next : nat -> string -> string -> bool -> result (errorOr scanError (list A)))
    (reads : nat -> Z) (k : nat) (buf input : string) (atEOF : bool)
    : result (errorOr scanError (list A)) :=
  if atEOF then Returns (Value [])
  else if maxScanTokenSize <=? len buf then Returns (Error ErrTooLong)
  else if len input =? 0 then next k buf input true
  else
    let n := readSize (reads k) buf input in
    next (S k) (String.append buf (substring 0 n input))
         (substring n (String.length input - n) input) false.

(** [Scan] returns true with the token [tok]; the loop goes on. *)
Definition emit {A : Type} (tok : A) (r : result (errorOr scanError (list A)))
    : result (errorOr scanError (list A)) :=
  tokens ← r;
  Returns (match tokens with
           | Value toks => Value (tok :: toks)
           | Error e => Error e
           end).

(** The tokens of [for s.Scan()]: the loop of [bufio.Scanner.Scan], run
    until it returns false.  The split function is called on the bytes of
    the buffer when there are some or the end of the input has been seen;
    a token is handed to the body of the loop, a nil token makes the
    scanner read.  [reads k] sizes the [k]th read, [empties] counts the
    empty tokens at the end of the input. *)
Fixpoint scanLoop (fuel : nat)
    (split : string -> bool -> result (Z * option string))
    (reads : nat -> Z) (k : nat) (buf input : string) (atEOF : bool)
    (empties : Z) : result (errorOr scanError (list string)) :=
  match fuel with
  | O => OutOfFuel
  | S fuel' =>
      let next empties k buf input atEOF :=
        scanLoop fuel' split reads k buf input atEOF empties in
      if (0 <? len buf) || atEOF then
        r ← split buf atEOF;
        let '(advance, token) := r in
        if advance <? 0 then Returns (Error ErrNegativeAdvance)
        else if len buf <? advance then Returns (Error ErrAdvanceTooFar)
        else
          let rest := substring (Z.to_nat advance)
                        (String.length buf - Z.to_nat advance) buf in
          match token with
          | Some tok =>
              if negb atEOF || (0 <? advance)
              then emit tok (next 0 k rest input atEOF)
              else if maxConsecutiveEmptyReads <? empties + 1 then Panics
              else emit tok (next (empties + 1) k rest input atEOF)
          | None => needMore (next empties) reads k rest input atEOF
          end
      else needMore (next empties) reads k buf input atEOF
  end.

(** [s := bufio.NewScanner(os.Stdin); s.Split(on(inputRecordSeparator));
    for s.Scan()]: the records of the input. *)
Definition scanRecords (reads : nat -> Z) (delimiter : ascii) (data : string)
    : result (errorOr scanError (list string)) :=
  scanLoop (2 * String.length data + 3) (on delimiter) reads 0
           EmptyString data false 0.

(** The records written back, each followed by the delimiter. *)
Definition joinRecords (delimiter : ascii) (records : list string) : string :=
  concatLines ((fun r => String.append r (String delimiter EmptyString)) <$> records).

(** The records of an input, by its bytes: the pieces between the
    delimiters, and a last piece without delimiter unless it is empty. *)
Fixpoint recordsFrom (delimiter : ascii) (s cur : string) : list string :=
  match s with
  | EmptyString => flushWord cur
  | String c rest =>
      if Ascii.eqb c delimiter then cur :: recordsFrom delimiter rest EmptyString
      else recordsFrom delimiter rest (String.append cur (String c EmptyString))
  end.

(** Every record fits in the buffer of the scanner with its delimiter. *)
Definition shortRecords (records : list string) : bool :=
  forallb (fun r => len r <? maxScanTokenSize) records.

(** The records of an input, or [ErrTooLong] when one of them does not
    fit. *)
Definition recordsOrTooLong (delimiter : ascii) (data : string)
    : errorOr scanError (list string) :=
  let records := recordsFrom delimiter data EmptyString in
  if shortRecords records then Value records else Error ErrTooLong.

(** The last byte of a string. *)
Fixpoint lastByte (s : string) : option ascii :=
  match s with
  | EmptyString => None
  | String c EmptyString => Some c
  | String _ rest => lastByte rest
  end.

(** The input is empty or ends with the delimiter. *)
Definition terminated (delimiter : ascii) (data : string) : bool :=
  match lastByte data with
  | None => true
  | Some c => Ascii.eqb c delimiter
  end.

(** The byte [c] does not occur in [s]. *)
Fixpoint noByte (c : ascii) (s : string) : bool :=
  match s with
  | EmptyString => true
  | String x rest => negb (Ascii.eqb x c) && noByte c rest
  end.

(** [inputRecordSeparator] and [inputFieldSeparator]: the newline and the
    tab. *)
Definition inputRecordSeparator : ascii := "010".
Definition inputFieldSeparator : ascii := "009".

(** [renderAge]: the age of the time that [s] gives in one of the layouts,
    or [s] itself and an error when no layout fits.  [age s] stands for
    the parsing of the time and the reading of the clock: it is the age
    written out, when a layout fits.  The boolean is [err != nil]. *)
Definition renderAge (age : string -> option string) (s : string)
    : string * bool :=
  match age s with
  | Some rendered => (rendered, false)
  | None => (s, true)
  end.

(** The body of [for i, column := range columns]: the field is the
    column, rendered as an age under a spec of that type.  The warning on
    standard error is left out. *)
Definition collectField (age : string -> option string)
    (specs : gmap Z ColumnSpec) (i : nat) (column : string) : string :=
  match specs !! Z.of_nat i with
  | Some spec =>
      match Type_ spec with
      | TypeAge => fst (renderAge age column)
      | TypeString => column
      end
  | None => column
  end.

(** The body of [for s.Scan()]; [age i] is the rendering at field [i]. *)
Definition collectRow (age : nat -> string -> option string)
    (specs : gmap Z ColumnSpec) (line : string) : list string :=
  imap (fun i column => collectField (age i) specs i column)
       (Split line inputFieldSeparator).

(** "collect rows", from the records; [age r i] is the rendering at field
    [i] of record [r], the clock being read at every call. *)
Definition collectRows (age : nat -> nat -> string -> option string)
    (specs : gmap Z ColumnSpec) (records : list string) : list (list string) :=
  imap (fun r line => collectRow (age r) specs line) records.

(** [Main] with the reading of standard input: [Error e] is the death
    with "reading line: e". *)
Definition MainFromStdin
    (rangeOrder : nat -> gmap Z ColumnSpec -> list (Z * ColumnSpec))
    (reads : nat -> Z) (age : nat -> nat -> string -> option string)
    (terminalWidth : Z) (rawSpec : string) (input : string)
    : errorOr scanError run :=
  match ParseColumnSpecs rawSpec with
  | Error _ => Value (Main rangeOrder terminalWidth rawSpec [])
  | Value specs =>
      match scanRecords reads inputRecordSeparator input with
      | Returns (Value records) =>
          Value (Main rangeOrder terminalWidth rawSpec
                   (collectRows age specs records))
      | Returns (Error e) => Error e
      | other => Value {| stdout := EmptyString; status := stopped other |}
      end
  end.

(** Two lines of two fields, the second line closed by a newline. *)
Definition sampleInput : string :=
  String.append "abcd" (String "009" (String.append "0123456789"
    (String "010" (String.append "e" (String "009" (String.append "f"
      (String "010" EmptyString))))))).

(** A line of [n] bytes [c]. *)
Fixpoint repeatByte (n : nat) (c : ascii) : string :=
  match n with
  | O => EmptyString
  | S n' => String c (repeatByte n' c)
  end.

(** How far below 0 the minimum of a column lies. *)
Definition belowZero (entry : Z * ColumnSpec) : Z :=
  Z.max 0 (- WidthMin (snd entry)).

Definition roomBelowZero (adj : gmap Z ColumnSpec) : Z :=
  Zsum (belowZero <$> map_to_list adj).

(** What an adjustable column can give up before it is at its minimum or
    at 0, whichever comes first. *)
Definition positiveSlack (ws : list Z) (entry : Z * ColumnSpec) : Z :=
  match index ws (fst entry) with
  | Some w => w - Z.max 0 (WidthMin (snd entry))
  | None => 0
  end.

Definition positiveRoom (ws : list Z) (specs : gmap Z ColumnSpec) : Z :=
  Zsum (positiveSlack ws <$> map_to_list (adjustableSet ws specs)).

(** The states of a shrink loop that cannot end: an adjustable column has
    a negative minimum, no width is negative, and the budget lies below
    what is consumed once the adjustable columns are at their minimum or
    at 0.  [D] is the consumed width less the potential, [R] the room
    below zero, both constant. *)
Definition belowInv (ws0 : list Z) (adj0 : gmap Z ColumnSpec) (D R : Z)
    (st : loopState) : Prop :=
  loopInv ws0 adj0 st /\
  (exists i s, adjustable st !! i = Some s /\ WidthMin s < 0) /\
  (forall i w, index (widths st) i = Some w -> 0 <= w) /\
  consumedWidth st - potential st = D /\
  roomBelowZero (adjustable st) = R.

(** * Properties *)

(** ** Machine integers and slices *)

Ltac int_range := unfold isInt, minInt, maxInt; simpl; lia.
Ltac int_widths := unfold wfWidths; repeat constructor; int_range.

Lemma wrap_id (z : Z) : isInt z -> wrap z = z.
Proof.
  unfold isInt, minInt, maxInt, wrap. intros Hz.
  rewrite Z.mod_small; lia.
Qed.

Lemma wrap_isInt (z : Z) : isInt (wrap z).
Proof.
  unfold isInt, minInt, maxInt, wrap.
  pose proof (Z.mod_pos_bound (z + 2 ^ 63) (2 ^ 64)). lia.
Qed.

Lemma index_Some {A : Type} (s : list A) (i : Z) (x : A) :
  index s i = Some x <->
  0 <= i /\ i < Z.of_nat (length s) /\ s !! Z.to_nat i = Some x.
Proof.
  unfold index.
  destruct (Z.leb_spec 0 i) as [Hlo|Hlo];
    destruct (Z.ltb_spec i (Z.of_nat (length s))) as [Hhi|Hhi]; simpl.
  - split; [intros Hx; by repeat split | by intros (_ & _ & Hx)].
  - split; [done | intros (_ & Hlt & _); lia].
  - split; [done | intros (Hle & _); lia].
  - split; [done | intros (Hle & _); lia].
Qed.

Lemma index_None {A : Type} (s : list A) (i : Z) :
  index s i = None <-> ~ (0 <= i < Z.of_nat (length s)).
Proof.
  unfold index.
  destruct (Z.leb_spec 0 i) as [Hlo|Hlo];
    destruct (Z.ltb_spec i (Z.of_nat (length s))) as [Hhi|Hhi]; simpl.
  - split; [|intros Hn; lia].
    intros Hx%lookup_ge_None. lia.
  - split; [intros _; lia | done].
  - split; [intros _; lia | done].
  - split; [intros _; lia | done].
Qed.

Lemma index_of_nat {A : Type} (s : list A) (j : nat) :
  index s (Z.of_nat j) = s !! j.
Proof.
  destruct (s !! j) as [x|] eqn:E.
  - apply index_Some. rewrite Nat2Z.id.
    pose proof (lookup_lt_Some _ _ _ E). repeat split; [lia | lia | done].
  - apply index_None. apply lookup_ge_None in E. lia.
Qed.

Lemma length_store {A : Type} (s : list A) (i : Z) (x : A) :
  length (store s i x) = length s.
Proof. apply length_insert. Qed.

Lemma index_store_eq {A : Type} (s : list A) (i : Z) (x y : A) :
  index s i = Some y -> index (store s i x) i = Some x.
Proof.
  rewrite !index_Some, length_store. intros (? & ? & ?).
  repeat split; try lia. apply list_lookup_insert_eq. lia.
Qed.

Lemma index_store_ne {A : Type} (s : list A) (i j : Z) (x y : A) :
  index s i = Some y -> i <> j -> index (store s i x) j = index s j.
Proof.
  intros Hi Hne. apply index_Some in Hi as (? & ? & _).
  unfold index. rewrite length_store.
  destruct ((0 <=? j) && (j <? Z.of_nat (length s))) eqn:E; [|done].
  apply andb_true_iff in E as [?%Z.leb_le ?%Z.ltb_lt].
  apply list_lookup_insert_ne. lia.
Qed.

(** ** The adjustable set *)

Lemma addAdjustable_unfold ws adj i s :
  addAdjustable ws (Returns adj) (i, s) =
  if HasFlexibleWidth s then
    match index ws i with
    | Some w => Returns (if WidthMin s <? w then <[i := s]> adj else adj)
    | None => Panics
    end
  else Returns adj.
Proof.
  unfold addAdjustable. simpl.
  destruct (HasFlexibleWidth s); [|done]. by destruct (index ws i).
Qed.

Lemma foldl_addAdjustable_Panics ws l :
  foldl (addAdjustable ws) Panics l = Panics.
Proof. induction l as [|[i s] l IH]; [done|]. simpl. exact IH. Qed.

Lemma isAdjustable_true ws i s :
  isAdjustable ws (i, s) = true <->
  HasFlexibleWidth s = true /\ exists w, index ws i = Some w /\ WidthMin s < w.
Proof.
  unfold isAdjustable. simpl. rewrite andb_true_iff.
  destruct (index ws i) as [w|].
  - rewrite Z.ltb_lt. split.
    + intros [Hf Hw]. split; [done|]. by exists w.
    + intros [Hf (w' & [= <-] & Hw)]. by split.
  - split; [by intros [_ ?] | by intros [_ (w & ? & _)]].
Qed.

(** What [for i, spec := range specs] leaves in [adjustable], for any
    list of entries visited. *)
Lemma buildAdjustable_fold ws l : forall acc R,
  foldl (addAdjustable ws) (Returns acc) l = Returns R ->
  (forall i s, (i, s) ∈ l -> HasFlexibleWidth s = true ->
               is_Some (index ws i)) /\
  (forall i s, R !! i = Some s ->
               acc !! i = Some s \/ ((i, s) ∈ l /\ isAdjustable ws (i, s) = true)) /\
  (forall i s, acc !! i = Some s -> i ∉ l.*1 -> R !! i = Some s) /\
  (forall i s, NoDup l.*1 -> (i, s) ∈ l -> isAdjustable ws (i, s) = true ->
               R !! i = Some s).
Proof.
  induction l as [|[j t] l IH]; intros acc R HR.
  - simpl in HR. injection HR as <-. repeat split; try naive_solver.
    + intros i s Hin. by apply elem_of_nil in Hin.
    + intros i s _ Hin. by apply elem_of_nil in Hin.
  - cbn [foldl] in HR. rewrite addAdjustable_unfold in HR.
    assert (Hnext : exists acc',
      foldl (addAdjustable ws) (Returns acc') l = Returns R /\
      (HasFlexibleWidth t = true -> is_Some (index ws j)) /\
      acc' = (if isAdjustable ws (j, t) then <[j := t]> acc else acc)).
    { unfold isAdjustable; simpl.
      destruct (HasFlexibleWidth t); simpl.
      - destruct (index ws j) as [w|].
        + eexists; repeat split; [exact HR | eauto].
        + by rewrite foldl_addAdjustable_Panics in HR.
      - eexists; repeat split; [exact HR | done]. }
    destruct Hnext as (acc' & HR' & Hidx & ->).
    destruct (IH _ _ HR') as (H1 & H2 & H3 & H4).
    repeat split.
    + intros i s [[= -> ->]|Hin]%elem_of_cons; eauto.
    + intros i s HRi. destruct (H2 i s HRi) as [Hacc|[Hin Hadj]].
      * destruct (isAdjustable ws (j, t)) eqn:Ejt; [|by left].
        destruct (decide (j = i)) as [->|Hne].
        -- rewrite lookup_insert_eq in Hacc. injection Hacc as <-.
           right. split; [apply elem_of_cons; by left | done].
        -- rewrite lookup_insert_ne in Hacc by done. by left.
      * right. split; [apply elem_of_cons; by right | done].
    + intros i s Hacc Hnot. simpl in Hnot.
      apply not_elem_of_cons in Hnot as [Hne Hnot].
      apply H3; [|done].
      destruct (isAdjustable ws (j, t)); [|done].
      by rewrite lookup_insert_ne.
    + intros i s Hnd Hin Hadj. simpl in Hnd.
      apply NoDup_cons in Hnd as [Hj Hnd].
      apply elem_of_cons in Hin as [[= -> ->]|Hin].
      * apply H3; [|done]. rewrite Hadj. apply lookup_insert_eq.
      * by apply H4.
Qed.

Lemma buildAdjustable_total ws l : forall acc,
  (forall i s, (i, s) ∈ l -> HasFlexibleWidth s = true ->
               is_Some (index ws i)) ->
  exists R, foldl (addAdjustable ws) (Returns acc) l = Returns R.
Proof.
  induction l as [|[j t] l IH]; intros acc Hidx; [by eexists|].
  cbn [foldl]. rewrite addAdjustable_unfold.
  destruct (HasFlexibleWidth t) eqn:Ft.
  - destruct (Hidx j t) as [w ->]; [apply elem_of_cons; by left | done |].
    apply IH. intros i s Hin. apply Hidx, elem_of_cons. by right.
  - apply IH. intros i s Hin. apply Hidx, elem_of_cons. by right.
Qed.

Lemma buildAdjustable_panics ws l : forall acc i s,
  (i, s) ∈ l -> HasFlexibleWidth s = true -> index ws i = None ->
  foldl (addAdjustable ws) (Returns acc) l = Panics.
Proof.
  induction l as [|[j t] l IH]; intros acc i s Hin Hs Hi.
  - by apply elem_of_nil in Hin.
  - cbn [foldl]. rewrite addAdjustable_unfold.
    apply elem_of_cons in Hin as [[= -> ->]|Hin].
    + rewrite Hs, Hi. apply foldl_addAdjustable_Panics.
    + destruct (HasFlexibleWidth t); [destruct (index ws j)|]; eauto.
      apply foldl_addAdjustable_Panics.
Qed.

Lemma buildAdjustable_has_fuel ws l : forall acc,
  foldl (addAdjustable ws) (Returns acc) l <> OutOfFuel.
Proof.
  induction l as [|[j t] l IH]; intros acc; [done|].
  cbn [foldl]. rewrite addAdjustable_unfold.
  destruct (HasFlexibleWidth t); [destruct (index ws j)|]; eauto.
  by rewrite foldl_addAdjustable_Panics.
Qed.

Section Orders.
Variable rangeOrder : nat -> gmap Z ColumnSpec -> list (Z * ColumnSpec).
Hypothesis rangeOrder_perm : validOrder rangeOrder.

Lemma elem_of_rangeOrder k m i s :
  (i, s) ∈ rangeOrder k m <-> m !! i = Some s.
Proof. by rewrite (rangeOrder_perm k m), elem_of_map_to_list. Qed.

Lemma NoDup_rangeOrder k m : NoDup (rangeOrder k m).*1.
Proof. rewrite (rangeOrder_perm k m). apply NoDup_fst_map_to_list. Qed.

(** The loop of the source computes the adjustable set of the
    specification, or panics on a flexible spec whose column does not
    exist. *)
Lemma buildAdjustable_Returns ws specs adj :
  buildAdjustable (rangeOrder 0 specs) ws = Returns adj ->
  adj = adjustableSet ws specs /\
  forall i s, specs !! i = Some s -> HasFlexibleWidth s = true ->
              is_Some (index ws i).
Proof.
  intros HR. apply buildAdjustable_fold in HR as (H1 & H2 & H3 & H4).
  split.
  - apply map_eq. intros i. apply option_eq. intros s.
    unfold adjustableSet. rewrite map_lookup_filter_Some. split.
    + intros [Hempty|[Hin Hadj]]%H2; [by rewrite lookup_empty in Hempty|].
      by apply elem_of_rangeOrder in Hin.
    + intros [Hi Hadj]. apply H4; [apply NoDup_rangeOrder | | done].
      by apply elem_of_rangeOrder.
  - intros i s Hi. apply H1. by apply elem_of_rangeOrder.
Qed.

Lemma buildAdjustable_in_range ws specs :
  (forall i s, specs !! i = Some s -> HasFlexibleWidth s = true ->
               is_Some (index ws i)) ->
  buildAdjustable (rangeOrder 0 specs) ws = Returns (adjustableSet ws specs).
Proof.
  intros Hidx.
  destruct (buildAdjustable_total ws (rangeOrder 0 specs) ∅) as [R HR].
  { intros i s Hin. apply Hidx. by apply elem_of_rangeOrder in Hin. }
  unfold buildAdjustable. rewrite HR. f_equal.
  by apply buildAdjustable_Returns in HR as [-> _].
Qed.

Lemma buildAdjustable_out_of_range ws specs i s :
  specs !! i = Some s -> HasFlexibleWidth s = true -> index ws i = None ->
  buildAdjustable (rangeOrder 0 specs) ws = Panics.
Proof.
  intros Hi Hs Hidx. eapply buildAdjustable_panics; [|exact Hs|exact Hidx].
  by apply elem_of_rangeOrder.
Qed.

Lemma initialState_Returns ws specs st :
  initialState rangeOrder ws specs = Returns st ->
  st = {| widths := ws; consumedWidth := consumed ws;
          adjustable := adjustableSet ws specs |} /\
  forall i s, specs !! i = Some s -> HasFlexibleWidth s = true ->
              is_Some (index ws i).
Proof.
  unfold initialState, mbind, result_bind.
  destruct (buildAdjustable (rangeOrder 0 specs) ws) as [adj| |] eqn:Hb;
    [|done|done].
  apply buildAdjustable_Returns in Hb as [-> Hidx].
  intros [= <-]. by split.
Qed.

Lemma initialState_in_range ws specs :
  (forall i s, specs !! i = Some s -> HasFlexibleWidth s = true ->
               is_Some (index ws i)) ->
  initialState rangeOrder ws specs =
  Returns {| widths := ws; consumedWidth := consumed ws;
             adjustable := adjustableSet ws specs |}.
Proof.
  intros Hidx. unfold initialState.
  by rewrite (buildAdjustable_in_range ws specs Hidx).
Qed.

Lemma initialState_has_fuel ws specs :
  initialState rangeOrder ws specs <> OutOfFuel.
Proof.
  unfold initialState, mbind, result_bind.
  destruct (buildAdjustable (rangeOrder 0 specs) ws) as [adj| |] eqn:Hb;
    [done|done|].
  by apply buildAdjustable_has_fuel in Hb.
Qed.
End Orders.

(** ** The computation of the consumed width *)

Lemma wrap_add_l (a b : Z) : wrap (wrap a + b) = wrap (a + b).
Proof.
  unfold wrap. f_equal.
  replace ((a + 2 ^ 63) mod 2 ^ 64 - 2 ^ 63 + b + 2 ^ 63)
    with ((a + 2 ^ 63) mod 2 ^ 64 + b) by lia.
  rewrite Zplus_mod_idemp_l. f_equal. lia.
Qed.

Lemma wrap_sub_l (a b : Z) : wrap (wrap a - b) = wrap (a - b).
Proof. rewrite <- !Z.add_opp_r. apply wrap_add_l. Qed.

Lemma wrap_wrap (a : Z) : wrap (wrap a) = wrap a.
Proof. apply wrap_id, wrap_isInt. Qed.

Lemma consumedFrom_wrap ws : forall i a,
  consumedFrom i ws (wrap a) =
  wrap (a + Zsum ws +
        match i with O => gutters (length ws) | S _ => 2 * Z.of_nat (length ws) end).
Proof.
  induction ws as [|w ws IH]; intros i a.
  - cbn [consumedFrom Zsum foldr length]. f_equal.
    destruct i; unfold gutters; simpl; lia.
  - cbn [consumedFrom]. rewrite wrap_add_l.
    destruct i as [|i].
    + rewrite IH. f_equal. unfold gutters, Zsum. cbn [foldr length Nat.pred]. lia.
    + rewrite wrap_add_l, IH. f_equal. unfold Zsum. cbn [foldr length]. lia.
Qed.

(** [consumedWidth] is the sum of the widths plus two per gutter, reduced
    to the range of [int]. *)
Lemma consumed_eq ws : consumed ws = wrap (Zsum ws + gutters (length ws)).
Proof.
  unfold consumed. change 0 with (wrap 0) at 1.
  rewrite consumedFrom_wrap. f_equal.
Qed.

Lemma Zsum_insert (ws : list Z) : forall (j : nat) (w x : Z),
  ws !! j = Some w -> Zsum (<[j := x]> ws) = Zsum ws - w + x.
Proof.
  induction ws as [|v ws IH]; intros j w x Hj; [done|].
  destruct j as [|j]; simpl in *.
  - injection Hj as ->. lia.
  - unfold Zsum in *. rewrite (IH j w x Hj). lia.
Qed.

Lemma consumed_store ws j w :
  index ws j = Some w ->
  consumed (store ws j (w - 1)) = wrap (consumed ws - 1).
Proof.
  intros (_ & _ & Hj)%index_Some.
  rewrite !consumed_eq, length_store, wrap_sub_l. f_equal.
  unfold store. rewrite (Zsum_insert _ _ _ _ Hj). lia.
Qed.

Lemma Zsum_nonneg_le (ws : list Z) :
  Forall (fun w => 0 <= w) ws -> Forall (fun w => w <= Zsum ws) ws /\ 0 <= Zsum ws.
Proof.
  induction 1 as [|w ws Hw _ [IH1 IH2]]; [split; [constructor | done]|].
  unfold Zsum in *; simpl. split; [|lia].
  constructor; [lia|]. eapply Forall_impl; [exact IH1|]. simpl. intros; lia.
Qed.

(** ** The potential of the shrink loop *)

Lemma Zsum_perm (l1 l2 : list Z) : l1 ≡ₚ l2 -> Zsum l1 = Zsum l2.
Proof.
  induction 1 as [|x l1 l2 _ IH|x y l|l1 l2 l3 _ IH1 _ IH2]; unfold Zsum in *;
    simpl; lia.
Qed.

Lemma potentialOf_delete adj ws j s :
  adj !! j = Some s ->
  potentialOf adj ws = slack ws (j, s) + potentialOf (delete j adj) ws.
Proof.
  intros Hj. unfold potentialOf.
  rewrite <- (Zsum_perm _ _ (fmap_Permutation (slack ws) _ _
                              (map_to_list_delete adj j s Hj))).
  done.
Qed.

Lemma Zsum_cons (x : Z) (l : list Z) : Zsum (x :: l) = x + Zsum l.
Proof. done. Qed.

Lemma Zsum_fmap_ext {A : Type} (f g : A -> Z) (l : list A) :
  (forall x, x ∈ l -> f x = g x) -> Zsum (f <$> l) = Zsum (g <$> l).
Proof.
  induction l as [|x l IH]; intros Hfg; [done|].
  rewrite !fmap_cons, !Zsum_cons.
  rewrite Hfg by (apply elem_of_cons; by left).
  rewrite IH; [done|]. intros y Hy. apply Hfg, elem_of_cons. by right.
Qed.

Lemma potentialOf_ext adj ws ws' :
  (forall i s, adj !! i = Some s -> index ws' i = index ws i) ->
  potentialOf adj ws' = potentialOf adj ws.
Proof.
  intros Hext. apply Zsum_fmap_ext. intros [i s] Hin%elem_of_map_to_list.
  unfold slack; simpl. by rewrite (Hext i s Hin).
Qed.

Lemma Zsum_fmap_lower {A : Type} (f : A -> Z) (l : list A) :
  (forall x, x ∈ l -> 1 <= f x) -> Z.of_nat (length l) <= Zsum (f <$> l).
Proof.
  induction l as [|x l IH]; intros Hf; [done|].
  rewrite fmap_cons, Zsum_cons. cbn [length].
  pose proof (Hf x ltac:(apply elem_of_cons; by left)).
  assert (Z.of_nat (length l) <= Zsum (f <$> l)).
  { apply IH. intros y Hy. apply Hf, elem_of_cons. by right. }
  lia.
Qed.

Lemma potentialOf_lower adj ws :
  (forall i s, adj !! i = Some s -> exists w, index ws i = Some w /\ WidthMin s < w) ->
  Z.of_nat (size adj) <= potentialOf adj ws.
Proof.
  intros Hadj. unfold potentialOf. rewrite <- length_map_to_list.
  apply Zsum_fmap_lower. intros [i s] Hin%elem_of_map_to_list.
  destruct (Hadj i s Hin) as (w & Hw & Hlt). unfold slack; simpl.
  rewrite Hw. lia.
Qed.

Lemma potential_eq st : potential st = potentialOf (adjustable st) (widths st).
Proof. done. Qed.

(** ** One iteration of the shrink loop *)

Lemma findWidest_has_fuel ws keys : forall acc,
  foldl (widerOf ws) acc keys = OutOfFuel -> acc = OutOfFuel.
Proof.
  induction keys as [|i keys IH]; intros acc Hacc; [done|].
  cbn [foldl] in Hacc. apply IH in Hacc.
  destruct acc as [cur| |]; [|done|done].
  unfold widerOf, mbind, result_bind in Hacc.
  by destruct (index ws i).
Qed.

(** An iteration that completes has decremented a column that was in the
    adjustable set: either the widest one, or column 0 when no adjustable
    column has a positive width; otherwise the iteration panics. *)
Lemma shrinkStep_Returns keys st st' :
  shrinkStep keys st = Returns st' ->
  exists j s w,
    adjustable st !! j = Some s /\
    index (widths st) j = Some w /\
    widths st' = store (widths st) j (wrap (w - 1)) /\
    consumedWidth st' = wrap (consumedWidth st - 1) /\
    adjustable st' = (if wrap (w - 1) <=? WidthMin s
                      then delete j (adjustable st) else adjustable st).
Proof.
  unfold shrinkStep, mbind, result_bind.
  destruct (findWidest keys (widths st)) as [[j wj]| |]; [|done|done].
  cbn [fst].
  destruct (index (widths st) j) as [w|] eqn:Hw; [|done]. cbn [orPanic].
  rewrite (index_store_eq _ _ _ _ Hw). cbn [orPanic].
  destruct (adjustable st !! j) as [s|] eqn:Hs; [|done]. cbn [orPanic].
  intros [= <-]. exists j, s, w. by repeat split.
Qed.

Lemma shrinkStep_has_fuel keys st : shrinkStep keys st <> OutOfFuel.
Proof.
  unfold shrinkStep, mbind, result_bind.
  destruct (findWidest keys (widths st)) as [[j wj]| |] eqn:Hf; [|done|].
  - cbn [fst]. destruct (index (widths st) j) as [w|] eqn:Hw; [|done].
    cbn [orPanic]. rewrite (index_store_eq _ _ _ _ Hw). cbn [orPanic].
    by destruct (adjustable st !! j).
  - by apply findWidest_has_fuel in Hf.
Qed.

Section Loop.
Variable ws0 : list Z.
Variable adj0 : gmap Z ColumnSpec.
Hypothesis adj0_int : forall i s, adj0 !! i = Some s -> isInt (WidthMin s).

Lemma loopInv_adjustable st i s :
  loopInv ws0 adj0 st -> adjustable st !! i = Some s ->
  adj0 !! i = Some s /\
  exists w w0, index (widths st) i = Some w /\ index ws0 i = Some w0 /\
               WidthMin s < w <= w0 /\ isInt w.
Proof.
  intros (_ & Hwf & _ & Hcol) Hi. specialize (Hcol i).
  unfold columnInv in Hcol. rewrite Hi in Hcol.
  destruct Hcol as (H0 & w & w0 & Hw & Hw0 & Hlt). split; [done|].
  exists w, w0. repeat split; try done; try lia.
  - apply index_Some in Hw as (_ & _ & Hw).
    by apply (Forall_lookup_1 _ _ _ _ Hwf Hw).
  - apply index_Some in Hw as (_ & _ & Hw).
    by apply (Forall_lookup_1 _ _ _ _ Hwf Hw).
Qed.

Lemma shrinkStep_inv keys st st' :
  loopInv ws0 adj0 st -> shrinkStep keys st = Returns st' ->
  loopInv ws0 adj0 st' /\ potential st' = potential st - 1.
Proof.
  intros Hinv Hstep.
  apply shrinkStep_Returns in Hstep as (j & s & w & Hj & Hw & Hws & Hc & Hadj).
  destruct (loopInv_adjustable _ _ _ Hinv Hj)
    as (H0 & w1 & w0 & Hw1 & Hw0 & Hlt & Hint).
  rewrite Hw in Hw1. injection Hw1 as <-.
  pose proof (adj0_int _ _ H0) as Hmin.
  assert (Hnowrap : wrap (w - 1) = w - 1).
  { apply wrap_id. unfold isInt in *. lia. }
  rewrite Hnowrap in Hws, Hadj.
  destruct Hinv as (Hlen & Hwf & Hcons & Hcol).
  assert (Hother : forall i, i <> j -> index (widths st') i = index (widths st) i).
  { intros i Hne. rewrite Hws. by apply (index_store_ne _ _ _ _ _ Hw). }
  assert (Hself : index (widths st') j = Some (w - 1)).
  { rewrite Hws. by apply (index_store_eq _ _ _ _ Hw). }
  split.
  - split; [by rewrite Hws, length_store|].
    split.
    { rewrite Hws. unfold wfWidths, store. apply Forall_insert; [done|].
      unfold isInt in *. lia. }
    split; [by rewrite Hc, Hws, Hcons, (consumed_store _ _ _ Hw)|].
    intros i. specialize (Hcol i). unfold columnInv in *.
    destruct (decide (i = j)) as [->|Hne].
    + rewrite Hadj, Hself, H0.
      destruct (Z.leb_spec (w - 1) (WidthMin s)).
      * rewrite lookup_delete_eq. split; [f_equal; lia|].
        exists w0. split; [done | lia].
      * rewrite Hj. split; [done|]. exists (w - 1), w0.
        repeat split; try done; lia.
    + rewrite (Hother i Hne).
      replace (adjustable st' !! i) with (adjustable st !! i); [done|].
      rewrite Hadj. destruct (w - 1 <=? WidthMin s); [|done].
      by rewrite lookup_delete_ne.
  - rewrite !potential_eq, (potentialOf_delete _ (widths st) _ _ Hj).
    assert (Hrest : potentialOf (delete j (adjustable st)) (widths st') =
                    potentialOf (delete j (adjustable st)) (widths st)).
    { apply potentialOf_ext. intros i t Hi. apply Hother.
      intros ->. by rewrite lookup_delete_eq in Hi. }
    unfold slack at 1; cbn [fst snd]. rewrite Hw, Hadj.
    destruct (Z.leb_spec (w - 1) (WidthMin s)).
    + rewrite Hrest. lia.
    + rewrite (potentialOf_delete _ (widths st') _ _ Hj), Hrest.
      unfold slack at 1; cbn [fst snd]. rewrite Hself. lia.
Qed.

Lemma loopInv_potential st :
  loopInv ws0 adj0 st -> Z.of_nat (size (adjustable st)) <= potential st.
Proof.
  intros Hinv. rewrite potential_eq. apply potentialOf_lower.
  intros i s Hi.
  destruct (loopInv_adjustable _ _ _ Hinv Hi) as (_ & w & w0 & Hw & _ & Hlt & _).
  exists w. split; [done | lia].
Qed.

Variable rangeOrder : nat -> gmap Z ColumnSpec -> list (Z * ColumnSpec).
Variable availableWidth : Z.

(** With fuel for [potential st] iterations the loop ends, normally or
    by a panic, after at most that many iterations; a final state
    satisfies the invariant and falsifies the guard. *)
Lemma shrinkLoop_spec fuel : forall k st,
  loopInv ws0 adj0 st -> (potential st <= Z.of_nat fuel) ->
  exists r n,
    shrinkLoop rangeOrder availableWidth fuel k st = (r, n) /\
    r <> OutOfFuel /\
    Z.of_nat n <= potential st /\
    forall st', r = Returns st' ->
      loopInv ws0 adj0 st' /\ loopGuard availableWidth st' = false.
Proof.
  induction fuel as [|fuel IH]; intros k st Hinv Hfuel;
    pose proof (loopInv_potential _ Hinv) as Hsize;
    cbn [shrinkLoop]; destruct (loopGuard availableWidth st) eqn:Hguard.
  - unfold loopGuard in Hguard.
    apply andb_true_iff in Hguard as [_ Hne%Z.ltb_lt]. lia.
  - exists (Returns st), O. split_and!; [done | done | lia |].
    intros st' [= <-]. by split.
  - assert (Hpos : 1 <= potential st).
    { unfold loopGuard in Hguard.
      apply andb_true_iff in Hguard as [_ Hne%Z.ltb_lt]. lia. }
    destruct (shrinkStep (rangeOrder k (adjustable st)).*1 st) as [st1| |] eqn:Hstep.
    + destruct (shrinkStep_inv _ _ _ Hinv Hstep) as [Hinv1 Hpot].
      destruct (IH (S k) st1 Hinv1 ltac:(lia)) as (r & n & -> & Hr & Hn & Hfinal).
      exists r, (S n). split_and!; [done | done | lia |]. exact Hfinal.
    + exists Panics, 1%nat. split_and!; [done | done | lia | done].
    + by apply shrinkStep_has_fuel in Hstep.
  - exists (Returns st), O. split_and!; [done | done | lia |].
    intros st' [= <-]. by split.
Qed.
End Loop.

(** ** rebalanceWidths as a whole *)

Lemma adjustableSet_lookup ws specs i s :
  adjustableSet ws specs !! i = Some s <->
  specs !! i = Some s /\ isAdjustable ws (i, s) = true.
Proof. unfold adjustableSet. by rewrite map_lookup_filter_Some. Qed.

Lemma initial_loopInv ws specs :
  wfWidths ws ->
  loopInv ws (adjustableSet ws specs)
    {| widths := ws; consumedWidth := consumed ws;
       adjustable := adjustableSet ws specs |}.
Proof.
  intros Hwf. split_and!; try done.
  intros i. unfold columnInv. cbn [adjustable widths].
  destruct (adjustableSet ws specs !! i) as [s|] eqn:Hi; [|done].
  split; [done|].
  apply adjustableSet_lookup in Hi as [_ (_ & w & Hw & Hlt)%isAdjustable_true].
  exists w, w. split; [done|]. split; [done|]. lia.
Qed.

Lemma shrinkLoop_guard_false rangeOrder availableWidth fuel k st :
  loopGuard availableWidth st = false ->
  shrinkLoop rangeOrder availableWidth fuel k st = (Returns st, O).
Proof. intros Hg. destruct fuel; cbn [shrinkLoop]; by rewrite Hg. Qed.

Section Whole.
Variable rangeOrder : nat -> gmap Z ColumnSpec -> list (Z * ColumnSpec).
Hypothesis rangeOrder_perm : validOrder rangeOrder.
Variable availableWidth : Z.
Variable ws : list Z.
Variable specs : gmap Z ColumnSpec.
Hypothesis ws_int : wfWidths ws.
Hypothesis specs_int : wfSpecs specs.

Lemma adjustableSet_int i s :
  adjustableSet ws specs !! i = Some s -> isInt (WidthMin s).
Proof. intros [Hi _]%adjustableSet_lookup. by apply (specs_int i). Qed.

(** The final state of a call that returns. *)
Lemma rebalanceWidths_Returns out :
  rebalanceWidths rangeOrder availableWidth ws specs = Returns out ->
  exists st,
    widths st = out /\
    loopInv ws (adjustableSet ws specs) st /\
    loopGuard availableWidth st = false /\
    forall i s, specs !! i = Some s -> HasFlexibleWidth s = true ->
                is_Some (index ws i).
Proof.
  unfold rebalanceWidths, mbind, result_bind.
  destruct (initialState rangeOrder ws specs) as [st0| |] eqn:Hinit;
    [|done|done].
  apply (initialState_Returns _ rangeOrder_perm) in Hinit as [-> Hidx].
  set (st0 := {| widths := ws |}).
  destruct (shrinkLoop_spec ws (adjustableSet ws specs) adjustableSet_int
              rangeOrder availableWidth (Z.to_nat (potential st0)) 1 st0
              (initial_loopInv ws specs ws_int) ltac:(lia))
    as (r & n & -> & _ & _ & Hfinal).
  cbn [fst]. destruct r as [st| |]; [|done|done].
  intros [= <-]. destruct (Hfinal st eq_refl) as [Hinv Hguard].
  exists st. by split_and!.
Qed.

Lemma rebalanceWidths_has_fuel :
  rebalanceWidths rangeOrder availableWidth ws specs <> OutOfFuel.
Proof.
  unfold rebalanceWidths, mbind, result_bind.
  destruct (initialState rangeOrder ws specs) as [st0| |] eqn:Hinit; [|done|].
  - apply (initialState_Returns _ rangeOrder_perm) in Hinit as [-> Hidx].
    set (st0 := {| widths := ws |}).
    destruct (shrinkLoop_spec ws (adjustableSet ws specs) adjustableSet_int
                rangeOrder availableWidth (Z.to_nat (potential st0)) 1 st0
                (initial_loopInv ws specs ws_int) ltac:(lia))
      as (r & n & -> & Hr & _ & _).
    cbn [fst]. by destruct r.
  - by apply (initialState_has_fuel _ ws specs) in Hinit.
Qed.
End Whole.

(** A budget that covers the consumed width leaves the widths alone,
    provided no flexible spec names a column that does not exist. *)
Lemma rebalanceWidths_fits rangeOrder availableWidth ws specs :
  validOrder rangeOrder ->
  (forall i s, specs !! i = Some s -> HasFlexibleWidth s = true ->
               is_Some (index ws i)) ->
  consumed ws <= availableWidth ->
  rebalanceWidths rangeOrder availableWidth ws specs = Returns ws.
Proof.
  intros Hperm Hidx Hfits. unfold rebalanceWidths.
  rewrite (initialState_in_range _ Hperm ws specs Hidx).
  unfold mbind, result_bind. rewrite shrinkLoop_guard_false; [done|].
  unfold loopGuard. cbn [consumedWidth].
  destruct (Z.ltb_spec availableWidth (consumed ws)); [lia | done].
Qed.

(** For widths that are not negative and whose total fits an [int], the
    consumed width is the sum of the widths plus two per gutter. *)
Lemma consumed_exact ws :
  Forall (fun w => 0 <= w) ws ->
  Zsum ws + gutters (length ws) <= maxInt ->
  consumed ws = Zsum ws + gutters (length ws).
Proof.
  intros Hpos Hmax. rewrite consumed_eq. apply wrap_id.
  destruct (Zsum_nonneg_le ws Hpos) as [_ Hsum].
  unfold isInt, minInt, gutters in *. lia.
Qed.

(** The no-op in the terms of the consumed width of the specification:
    widths that are not negative, a budget (an [int]) of at least their
    sum plus two per gutter, and no flexible spec for a column that does
    not exist. *)
Lemma rebalanceWidths_fits_sum rangeOrder availableWidth ws specs :
  validOrder rangeOrder ->
  (forall i s, specs !! i = Some s -> HasFlexibleWidth s = true ->
               is_Some (index ws i)) ->
  Forall (fun w => 0 <= w) ws ->
  Zsum ws + 2 * (Z.of_nat (length ws) - 1) <= availableWidth ->
  availableWidth <= maxInt ->
  rebalanceWidths rangeOrder availableWidth ws specs = Returns ws.
Proof.
  intros Hperm Hidx Hpos Hfits Hmax.
  destruct ws as [|w ws].
  - unfold rebalanceWidths.
    rewrite (initialState_in_range _ Hperm [] specs Hidx).
    unfold mbind, result_bind. rewrite shrinkLoop_guard_false; [done|].
    unfold loopGuard. cbn [adjustable].
    assert (adjustableSet [] specs = ∅) as ->.
    { apply map_eq. intros i. rewrite lookup_empty.
      destruct (adjustableSet [] specs !! i) as [s|] eqn:Hi; [|done].
      apply adjustableSet_lookup in Hi as [_ Hadj].
      apply isAdjustable_true in Hadj as (_ & w & Hw & _).
      apply index_Some in Hw as (? & ? & _). simpl in *. lia. }
    rewrite map_size_empty. apply andb_false_r.
  - apply rebalanceWidths_fits; [done | done |].
    assert (Hg : gutters (length (w :: ws)) =
                 2 * (Z.of_nat (length (w :: ws)) - 1)).
    { unfold gutters. cbn [length Nat.pred]. lia. }
    rewrite consumed_exact; [lia | done | lia].
Qed.

(** ** Concrete inputs *)

Lemma keyOrder_valid : validOrder keyOrder.
Proof. intros k m. reflexivity. Qed.

Lemma wfSpecs_singleton i s : isInt (WidthMin s) -> wfSpecs {[ i := s ]}.
Proof. intros Hs j t [_ <-]%lookup_singleton_Some. exact Hs. Qed.

(** ** The claims about rebalanceWidths *)

(** C1 (amended).  When [rebalanceWidths] returns, the result has the
    length of the input and no column is wider than before; a column with
    a spec ends at or above the smaller of its input width and the spec's
    [WidthMin] (so at or above [WidthMin] whenever it entered there); a
    column whose spec has no flexible width ([HasFlexibleWidth] false,
    that is [0 <= WidthMax <= WidthMin]) and a column without a spec keep
    exactly their input width. *)
Theorem rebalanceWidths_bounds rangeOrder availableWidth ws specs out :
  validOrder rangeOrder -> wfWidths ws -> wfSpecs specs ->
  rebalanceWidths rangeOrder availableWidth ws specs = Returns out ->
  length out = length ws /\
  forall (i : nat) (w0 : Z), ws !! i = Some w0 ->
    exists w, out !! i = Some w /\
      match specs !! Z.of_nat i with
      | None => w = w0
      | Some s => Z.min w0 (WidthMin s) <= w <= w0 /\
                  (HasFlexibleWidth s = false -> w = w0)
      end.
Proof.
  intros Hperm Hws Hspecs Hout.
  destruct (rebalanceWidths_Returns _ Hperm _ _ _ Hws Hspecs _ Hout)
    as (st & <- & (Hlen & _ & _ & Hcol) & _ & _).
  split; [done|]. intros i w0 Hi.
  specialize (Hcol (Z.of_nat i)). unfold columnInv in Hcol.
  rewrite !index_of_nat, Hi in Hcol.
  destruct (adjustable st !! Z.of_nat i) as [s|] eqn:Hadj.
  - destruct Hcol as (H0 & w & w0' & Hw & [= <-] & Hlt).
    apply adjustableSet_lookup in H0 as [Hs [Hflex _]%isAdjustable_true].
    exists w. rewrite Hs. split; [done|]. split; [lia|]. congruence.
  - destruct (adjustableSet ws specs !! Z.of_nat i) as [s|] eqn:H0.
    + destruct Hcol as (Hw & w0' & [= <-] & Hlt).
      apply adjustableSet_lookup in H0 as [Hs [Hflex _]%isAdjustable_true].
      exists (WidthMin s). rewrite Hs. split; [done|]. split; [lia|]. congruence.
    + exists w0. split; [done|].
      destruct (specs !! Z.of_nat i) as [s|]; [|done]. split; [lia | done].
Qed.

Lemma rebalanceWidths_bounds_witness :
  length [4; 4] = length [4; 10] /\
  forall (i : nat) (w0 : Z), [4; 10] !! i = Some w0 ->
    exists w, [4; 4] !! i = Some w /\
      match ({[ 1 := widthSpec 3 (-1) ]} : gmap Z ColumnSpec) !! Z.of_nat i with
      | None => w = w0
      | Some s => Z.min w0 (WidthMin s) <= w <= w0 /\
                  (HasFlexibleWidth s = false -> w = w0)
      end.
Proof.
  apply (rebalanceWidths_bounds keyOrder 10 [4; 10]
           {[ 1 := widthSpec 3 (-1) ]} [4; 4]).
  - exact keyOrder_valid.
  - int_widths.
  - apply wfSpecs_singleton. int_range.
  - vm_compute. reflexivity.
Defined.

(** C1 as stated fails.  The spec written [*] has [WidthMin = WidthMax =
    -1]; it is rigid in the sense of the claim, yet [HasFlexibleWidth]
    holds and with no room at all its column of width 5 is shrunk to 0.
    And a column that enters below its minimum leaves below it: under the
    spec written [9c-4c] a column of natural width 6 is clamped to 4, and
    the rebalancer returns it at 4, below [WidthMin] 9. *)
Lemma rebalanceWidths_claimed_bounds_fail :
  (exists out s w,
     rebalanceWidths keyOrder 0 [5] {[ 0 := widthSpec (-1) (-1) ]} = Returns out /\
     ({[ 0 := widthSpec (-1) (-1) ]} : gmap Z ColumnSpec) !! 0 = Some s /\
     WidthMin s = WidthMax s /\
     out !! 0%nat = Some w /\ w <> 5) /\
  (exists out s w,
     adjustWidths {[ 0 := widthSpec 9 4 ]} [6] = [4] /\
     rebalanceWidths keyOrder 100 [4] {[ 0 := widthSpec 9 4 ]} = Returns out /\
     ({[ 0 := widthSpec 9 4 ]} : gmap Z ColumnSpec) !! 0 = Some s /\
     out !! 0%nat = Some w /\ w < WidthMin s).
Proof.
  split.
  - exists [0], (widthSpec (-1) (-1)), 0. split_and!; try done.
  - exists [4], (widthSpec 9 4), 4. split_and!; try done.
Qed.

(** C4 at the failing input.  The widths [1; 1] consume 4 of the 100
    columns available, but the spec of the fifth column, which the rows
    do not have, is flexible: [widths[4]] is out of range and the call
    panics instead of returning the widths. *)
Theorem rebalanceWidths_fits_but_panics :
  consumed [1; 1] = 4 /\
  rebalanceWidths keyOrder 100 [1; 1] {[ 4 := widthSpec (-1) (-1) ]} = Panics.
Proof. split; vm_compute; reflexivity. Qed.

(** C5.  A result of [rebalanceWidths] is a fixed point: called again on
    it with the same specs and the same budget, whatever the order in
    which the maps are visited, the function returns it unchanged. *)
Theorem rebalanceWidths_idempotent rangeOrder rangeOrder' availableWidth
    ws specs out :
  validOrder rangeOrder -> validOrder rangeOrder' ->
  wfWidths ws -> wfSpecs specs ->
  rebalanceWidths rangeOrder availableWidth ws specs = Returns out ->
  rebalanceWidths rangeOrder' availableWidth out specs = Returns out.
Proof.
  intros Hperm Hperm' Hws Hspecs Hout.
  destruct (rebalanceWidths_Returns _ Hperm _ _ _ Hws Hspecs _ Hout)
    as (st & <- & (Hlen & _ & Hcons & Hcol) & Hguard & Hidx).
  assert (Hidx' : forall i s, specs !! i = Some s -> HasFlexibleWidth s = true ->
                              is_Some (index (widths st) i)).
  { intros i s Hi Hs. destruct (Hidx i s Hi Hs) as [w Hw].
    apply index_Some in Hw as (? & ? & _).
    destruct (index (widths st) i) eqn:E; [by eexists|].
    apply index_None in E. lia. }
  unfold rebalanceWidths.
  rewrite (initialState_in_range _ Hperm' _ _ Hidx').
  unfold mbind, result_bind. rewrite shrinkLoop_guard_false; [done|].
  unfold loopGuard in *. cbn [consumedWidth adjustable].
  apply andb_false_iff in Hguard as [Hfit|Hempty].
  - by rewrite <- Hcons, Hfit.
  - apply andb_false_iff. right.
    assert (Hnone : adjustable st = ∅).
    { apply map_size_empty_inv. apply Z.ltb_ge in Hempty. lia. }
    assert (Hnone' : adjustableSet (widths st) specs = ∅).
    { apply map_eq. intros i. rewrite lookup_empty.
      destruct (adjustableSet (widths st) specs !! i) as [s|] eqn:Hi; [|done].
      exfalso.
      apply adjustableSet_lookup in Hi as [Hs Hadj].
      pose proof Hadj as (Hflex & w & Hw & Hlt)%isAdjustable_true.
      specialize (Hcol i). unfold columnInv in Hcol.
      rewrite Hnone, lookup_empty in Hcol.
      destruct (adjustableSet ws specs !! i) as [s'|] eqn:H0.
      - apply adjustableSet_lookup in H0 as [Hs' _].
        assert (s' = s) as -> by congruence.
        destruct Hcol as [Hmin _]. rewrite Hw in Hmin. injection Hmin as ->. lia.
      - rewrite Hw in Hcol.
        assert (adjustableSet ws specs !! i = Some s); [|congruence].
        apply adjustableSet_lookup. split; [done|].
        apply isAdjustable_true. split; [done|]. by exists w. }
    rewrite Hnone', map_size_empty. done.
Qed.

Lemma rebalanceWidths_idempotent_witness :
  rebalanceWidths keyOrder 10 [4; 4] {[ 1 := widthSpec 3 (-1) ]} = Returns [4; 4].
Proof.
  apply (rebalanceWidths_idempotent keyOrder keyOrder 10 [4; 10]
           {[ 1 := widthSpec 3 (-1) ]} [4; 4]).
  - exact keyOrder_valid.
  - exact keyOrder_valid.
  - int_widths.
  - apply wfSpecs_singleton. int_range.
  - vm_compute. reflexivity.
Defined.

(** C6.  Entered with the adjustable set of the specification, the shrink
    loop ends, by the failure of its guard or by a panic, after at most
    [shrinkBound ws specs] iterations: the sum of [width - WidthMin] over
    the columns adjustable at entry.  Fuel for that many iterations is
    never exhausted, and so [rebalanceWidths], which gives itself that
    much fuel, never runs out of it. *)
Theorem shrinkLoop_terminates rangeOrder availableWidth ws specs st0 fuel :
  validOrder rangeOrder -> wfWidths ws -> wfSpecs specs ->
  initialState rangeOrder ws specs = Returns st0 ->
  shrinkBound ws specs <= Z.of_nat fuel ->
  adjustable st0 = adjustableSet ws specs /\
  (exists r n,
     shrinkLoop rangeOrder availableWidth fuel 1 st0 = (r, n) /\
     r <> OutOfFuel /\
     Z.of_nat n <= shrinkBound ws specs) /\
  rebalanceWidths rangeOrder availableWidth ws specs <> OutOfFuel.
Proof.
  intros Hperm Hws Hspecs Hinit Hfuel.
  apply (initialState_Returns _ Hperm) in Hinit as [-> _].
  split; [done|]. split.
  - destruct (shrinkLoop_spec ws (adjustableSet ws specs)
                (adjustableSet_int ws specs Hspecs)
                rangeOrder availableWidth fuel 1 _
                (initial_loopInv ws specs Hws) Hfuel)
      as (r & n & Hrun & Hr & Hn & _).
    by exists r, n.
  - by apply rebalanceWidths_has_fuel.
Qed.

Lemma shrinkLoop_terminates_witness :
  adjustable {| widths := [4; 10]; consumedWidth := 16;
                adjustable := {[ 1 := widthSpec 3 (-1) ]} |} =
  adjustableSet [4; 10] {[ 1 := widthSpec 3 (-1) ]} /\
  (exists r n,
     shrinkLoop keyOrder 10 7 1
       {| widths := [4; 10]; consumedWidth := 16;
          adjustable := {[ 1 := widthSpec 3 (-1) ]} |} = (r, n) /\
     r <> OutOfFuel /\
     Z.of_nat n <= shrinkBound [4; 10] {[ 1 := widthSpec 3 (-1) ]}) /\
  rebalanceWidths keyOrder 10 [4; 10] {[ 1 := widthSpec 3 (-1) ]} <> OutOfFuel.
Proof.
  apply (shrinkLoop_terminates keyOrder 10 [4; 10]
           {[ 1 := widthSpec 3 (-1) ]}).
  - exact keyOrder_valid.
  - int_widths.
  - apply wfSpecs_singleton. int_range.
  - vm_compute. reflexivity.
  - vm_compute. discriminate.
Defined.

Lemma buildAdjustable_Panics_inv ws l : forall acc,
  foldl (addAdjustable ws) (Returns acc) l = Panics ->
  exists i s, (i, s) ∈ l /\ HasFlexibleWidth s = true /\ index ws i = None.
Proof.
  induction l as [|[j t] l IH]; intros acc Hp; [done|].
  cbn [foldl] in Hp. rewrite addAdjustable_unfold in Hp.
  destruct (HasFlexibleWidth t) eqn:Ht.
  - destruct (index ws j) as [w|] eqn:Hj.
    + destruct (IH _ Hp) as (i & s & Hin & Hs). exists i, s.
      split; [apply elem_of_cons; by right | done].
    + exists j, t. split; [apply elem_of_cons; by left | done].
  - destruct (IH _ Hp) as (i & s & Hin & Hs). exists i, s.
    split; [apply elem_of_cons; by right | done].
Qed.

(** C9 (amended).  Building the adjustable set panics exactly when the
    spec mapping holds a spec with a flexible width under an index outside
    the widths vector; [rebalanceWidths] then panics too.  (The index of
    a spec without flexible width is never used: [&&] does not evaluate
    [widths[i]] for it.)  The clamp pass ranges over the widths instead:
    it is total and does not depend on the entries beyond them. *)
Theorem rebalanceWidths_out_of_range rangeOrder availableWidth ws specs :
  validOrder rangeOrder ->
  ((exists i s, specs !! i = Some s /\ HasFlexibleWidth s = true /\
                ~ (0 <= i < Z.of_nat (length ws)))
   <-> initialState rangeOrder ws specs = Panics) /\
  (initialState rangeOrder ws specs = Panics ->
   rebalanceWidths rangeOrder availableWidth ws specs = Panics) /\
  length (adjustWidths specs ws) = length ws /\
  (forall specs' : gmap Z ColumnSpec,
     (forall i, 0 <= i < Z.of_nat (length ws) -> specs' !! i = specs !! i) ->
     adjustWidths specs' ws = adjustWidths specs ws).
Proof.
  intros Hperm. split_and!.
  - split.
    + intros (i & s & Hi & Hs & Hout).
      apply (proj2 (index_None ws i)) in Hout.
      unfold initialState.
      by rewrite (buildAdjustable_out_of_range _ Hperm ws specs i s Hi Hs Hout).
    + unfold initialState, mbind, result_bind.
      destruct (buildAdjustable (rangeOrder 0%nat specs) ws) as [adj| |] eqn:Hb;
        [done| |done].
      intros _. apply buildAdjustable_Panics_inv in Hb as (i & s & Hin & Hs & Hi).
      exists i, s. split_and!; [|done|by apply index_None].
      by apply (elem_of_rangeOrder _ Hperm) in Hin.
  - intros Hinit. unfold rebalanceWidths. by rewrite Hinit.
  - apply length_imap.
  - intros specs' Hsame. unfold adjustWidths. apply imap_ext.
    intros j w Hj. unfold adjustWidth. rewrite Hsame; [done|].
    apply lookup_lt_Some in Hj. lia.
Qed.

Lemma rebalanceWidths_out_of_range_witness :
  ((exists i s, ({[ 4 := widthSpec (-1) (-1) ]} : gmap Z ColumnSpec) !! i = Some s /\
                HasFlexibleWidth s = true /\
                ~ (0 <= i < Z.of_nat (length [1; 1])))
   <-> initialState keyOrder [1; 1] {[ 4 := widthSpec (-1) (-1) ]} = Panics) /\
  (initialState keyOrder [1; 1] {[ 4 := widthSpec (-1) (-1) ]} = Panics ->
   rebalanceWidths keyOrder 100 [1; 1] {[ 4 := widthSpec (-1) (-1) ]} = Panics) /\
  length (adjustWidths {[ 4 := widthSpec (-1) (-1) ]} [1; 1]) = length [1; 1] /\
  (forall specs' : gmap Z ColumnSpec,
     (forall i, 0 <= i < Z.of_nat (length [1; 1]) ->
                specs' !! i = ({[ 4 := widthSpec (-1) (-1) ]} : gmap Z ColumnSpec) !! i) ->
     adjustWidths specs' [1; 1] = adjustWidths {[ 4 := widthSpec (-1) (-1) ]} [1; 1]).
Proof.
  apply (rebalanceWidths_out_of_range keyOrder 100 [1; 1]
           {[ 4 := widthSpec (-1) (-1) ]}).
  exact keyOrder_valid.
Defined.

(** C9 as stated fails.  The spec written [7c] is rigid; stored under
    column 5 of rows with two fields, its index is never used and
    [rebalanceWidths] returns. *)
Lemma rebalanceWidths_rigid_out_of_range_returns :
  ({[ 4 := widthSpec 7 7 ]} : gmap Z ColumnSpec) !! 4 = Some (widthSpec 7 7) /\
  Z.of_nat (length [1; 1]) <= 4 /\
  rebalanceWidths keyOrder 0 [1; 1] {[ 4 := widthSpec 7 7 ]} = Returns [1; 1].
Proof. split_and!; [done | simpl; lia | vm_compute; reflexivity]. Qed.

(** ** Width resolution *)

Lemma len_nonneg (s : string) : 0 <= len s.
Proof. unfold len. lia. Qed.

Lemma scanRow_spec row : forall j ws,
  (j + length row <= length ws)%nat ->
  exists ws',
    scanRow j row ws = Returns ws' /\
    length ws' = length ws /\
    forall k w, ws !! k = Some w ->
      ws' !! k = Some (Z.max w (from_option len 0 (fieldAt j row k))) \/
      (ws' !! k = Some w /\ fieldAt j row k = None).
Proof.
  induction row as [|column rest IH]; intros j ws Hlen.
  - exists ws. split_and!; [done | done |].
    intros k w Hk. right. split; [done|].
    unfold fieldAt. case_decide; [apply lookup_nil | done].
  - cbn [scanRow length] in *.
    destruct (lookup_lt_is_Some_2 ws j ltac:(lia)) as [wj Hj].
    rewrite Hj. cbn [orPanic mbind result_bind].
    set (ws1 := if wj <? len column then <[j := len column]> ws else ws).
    assert (Hlen1 : length ws1 = length ws).
    { unfold ws1. destruct (wj <? len column); [apply length_insert | done]. }
    assert (Hj1 : ws1 !! j = Some (Z.max wj (len column))).
    { unfold ws1. destruct (Z.ltb_spec wj (len column)).
      - rewrite list_lookup_insert_eq by lia. f_equal. lia.
      - rewrite Hj. f_equal. lia. }
    assert (Hother : forall k, k <> j -> ws1 !! k = ws !! k).
    { intros k Hne. unfold ws1. destruct (wj <? len column); [|done].
      by apply list_lookup_insert_ne. }
    destruct (IH (S j) ws1 ltac:(lia)) as (ws' & Hrun & Hlen' & Hpoint).
    exists ws'. split_and!; [done | lia |].
    intros k w Hk. unfold fieldAt.
    destruct (decide (k = j)) as [->|Hne].
    + rewrite Hj in Hk. injection Hk as <-.
      destruct (Hpoint j _ Hj1) as [Hmax|[Hsame Hnone]].
      * unfold fieldAt in Hmax. case_decide; [lia|]. simpl in Hmax.
        left. rewrite Hmax. case_decide; [|lia].
        rewrite Nat.sub_diag. simpl. f_equal. pose proof (len_nonneg column). lia.
      * left. rewrite Hsame. case_decide; [|lia].
        by rewrite Nat.sub_diag.
    + rewrite <- (Hother k Hne) in Hk.
      destruct (Hpoint k w Hk) as [Hmax|[Hsame Hnone]]; unfold fieldAt in *.
      * left. rewrite Hmax. repeat case_decide; try lia; [|done].
        replace (k - j)%nat with (S (k - S j)) by lia. done.
      * repeat case_decide; try lia.
        -- right. split; [done|].
           replace (k - j)%nat with (S (k - S j)) by lia. done.
        -- right. by split.
Qed.

(** A whole row leaves in every column the larger of the width so far and
    the length of its field. *)
Lemma scanRow_whole row ws :
  length row = length ws ->
  exists ws',
    scanRow 0 row ws = Returns ws' /\
    length ws' = length ws /\
    forall k w, ws !! k = Some w ->
      ws' !! k = Some (Z.max w (from_option len 0 (row !! k))).
Proof.
  intros Hlen.
  destruct (scanRow_spec row 0 ws ltac:(lia)) as (ws' & Hrun & Hlen' & Hpoint).
  exists ws'. split_and!; [done | done |].
  intros k w Hk. pose proof (lookup_lt_Some _ _ _ Hk) as Hlt.
  destruct (lookup_lt_is_Some_2 row k ltac:(lia)) as [field Hfield].
  destruct (Hpoint k w Hk) as [Hmax|[_ Hnone]]; unfold fieldAt in *;
    simpl in *; rewrite Nat.sub_0_r in *; [done | congruence].
Qed.

Lemma naturalWidth_nonneg rows k : 0 <= naturalWidth rows k.
Proof. induction rows as [|row rows IH]; simpl; lia. Qed.

Lemma naturalWidth_ge rows k row field :
  row ∈ rows -> row !! k = Some field -> len field <= naturalWidth rows k.
Proof.
  induction rows as [|row' rows IH]; intros Hin Hk.
  - by apply elem_of_nil in Hin.
  - apply elem_of_cons in Hin as [->|Hin]; simpl.
    + rewrite Hk. simpl. lia.
    + specialize (IH Hin Hk). lia.
Qed.

Lemma scanRows_uniform rows : forall ws,
  Forall (fun row => length row = length ws) rows ->
  exists ws',
    scanRows rows ws = Value (Returns ws') /\
    length ws' = length ws /\
    forall k w, ws !! k = Some w -> 0 <= w ->
                ws' !! k = Some (Z.max w (naturalWidth rows k)).
Proof.
  induction rows as [|row rows IH]; intros ws Hall.
  - exists ws. split_and!; [done | done |].
    intros k w Hk Hw. rewrite Hk. f_equal. simpl. lia.
  - apply Forall_cons in Hall as [Hrow Hall]. cbn [scanRows].
    rewrite bool_decide_eq_true_2 by done.
    destruct (scanRow_whole row ws Hrow) as (ws1 & -> & Hlen1 & Hpoint1).
    rewrite <- Hlen1 in Hall.
    destruct (IH ws1 Hall) as (ws' & -> & Hlen' & Hpoint').
    exists ws'. split_and!; [done | lia |].
    intros k w Hk Hw.
    rewrite (Hpoint' k _ (Hpoint1 k w Hk)) by lia.
    f_equal. simpl. lia.
Qed.

Lemma scanRows_mismatch rows : forall ws,
  ~ Forall (fun row => length row = length ws) rows ->
  scanRows rows ws = Error FieldCountMismatch.
Proof.
  induction rows as [|row rows IH]; intros ws Hnot.
  - exfalso. apply Hnot. constructor.
  - cbn [scanRows]. case_bool_decide as Hrow; [|done].
    destruct (scanRow_whole row ws Hrow) as (ws1 & -> & Hlen1 & _).
    apply IH. rewrite Hlen1. intros Hall. apply Hnot. by constructor.
Qed.

Lemma calculateWidths_uniform rows n :
  rows <> [] -> Forall (fun row => length row = n) rows ->
  exists ws,
    calculateWidths rows = Value (Returns ws) /\
    length ws = n /\
    forall k, (k < n)%nat -> ws !! k = Some (naturalWidth rows k).
Proof.
  intros Hne Hall. destruct rows as [|first rest]; [done|].
  unfold calculateWidths.
  assert (Hfirst : length first = n) by (by apply Forall_cons in Hall as [? _]).
  destruct (scanRows_uniform (first :: rest) (replicate (length first) 0))
    as (ws & Hrun & Hlen & Hpoint).
  { rewrite length_replicate, Hfirst. exact Hall. }
  rewrite length_replicate in Hlen.
  exists ws. split_and!; [exact Hrun | lia |].
  intros k Hk.
  rewrite (Hpoint k 0); [|apply lookup_replicate_2; lia | lia].
  f_equal. pose proof (naturalWidth_nonneg (first :: rest) k). lia.
Qed.

Lemma calculateWidths_Returns rows ws :
  calculateWidths rows = Value (Returns ws) ->
  rows <> [] /\ Forall (fun row => length row = length ws) rows.
Proof.
  intros Hrun. destruct rows as [|first rest]; [done|]. split; [done|].
  destruct (decide (Forall (fun row => length row = length first) (first :: rest)))
    as [Hall|Hnot].
  - assert (Hne : first :: rest <> []) by done.
    destruct (calculateWidths_uniform _ _ Hne Hall) as (ws' & Hrun' & Hlen & _).
    rewrite Hrun in Hrun'. injection Hrun' as <-. by rewrite Hlen.
  - unfold calculateWidths in Hrun.
    rewrite scanRows_mismatch in Hrun; [done|].
    by rewrite length_replicate.
Qed.

Lemma resolveWidths_Returns rows specs ws :
  resolveWidths rows specs = Value (Returns ws) ->
  exists natural,
    calculateWidths rows = Value (Returns natural) /\
    ws = adjustWidths specs natural.
Proof.
  unfold resolveWidths.
  destruct (calculateWidths rows) as [[natural| |]|f]; try done.
  intros [= <-]. by exists natural.
Qed.

(** The width to which a column with a spec resolves. *)
Lemma adjustWidth_spec specs i s width :
  specs !! Z.of_nat i = Some s ->
  adjustWidth specs i width =
  if (0 <=? WidthMax s) && (WidthMax s <? width) then WidthMax s
  else Z.max width (WidthMin s).
Proof.
  intros Hs. unfold adjustWidth. rewrite Hs.
  destruct ((0 <=? WidthMax s) && (WidthMax s <? width)); [done|].
  destruct (Z.ltb_spec width (WidthMin s)); lia.
Qed.

(** C3.  For rows that all have [n] fields, width resolution returns [n]
    widths; the width of a column is the spec's [WidthMax] when the spec
    has [0 <= WidthMax] below the natural width of the column, and
    otherwise it is at least the length of every field of the column. *)
Theorem resolveWidths_covers rows specs n :
  rows <> [] -> Forall (fun row => length row = n) rows ->
  exists ws,
    resolveWidths rows specs = Value (Returns ws) /\
    length ws = n /\
    forall j w, ws !! j = Some w ->
      (forall s, specs !! Z.of_nat j = Some s ->
                 0 <= WidthMax s < naturalWidth rows j -> w = WidthMax s) /\
      ((forall s, specs !! Z.of_nat j = Some s ->
                  ~ (0 <= WidthMax s < naturalWidth rows j)) ->
       forall row field, row ∈ rows -> row !! j = Some field -> len field <= w).
Proof.
  intros Hne Hall.
  destruct (calculateWidths_uniform rows n Hne Hall) as (natural & Hrun & Hlen & Hnat).
  exists (adjustWidths specs natural). unfold resolveWidths. rewrite Hrun.
  split_and!; [done | unfold adjustWidths; by rewrite length_imap |].
  intros j w Hj. unfold adjustWidths in Hj.
  apply list_lookup_imap_Some in Hj as (w0 & Hj & ->).
  pose proof (lookup_lt_Some _ _ _ Hj) as Hlt.
  rewrite Hnat in Hj by lia. injection Hj as <-.
  split.
  - intros s Hs Hmax. rewrite (adjustWidth_spec _ _ _ _ Hs).
    destruct (Z.leb_spec 0 (WidthMax s)); [|lia].
    destruct (Z.ltb_spec (WidthMax s) (naturalWidth rows j)); [done | lia].
  - intros Hfree row field Hrow Hfield.
    pose proof (naturalWidth_ge rows j row field Hrow Hfield) as Hge.
    destruct (specs !! Z.of_nat j) as [s|] eqn:Hs.
    + rewrite (adjustWidth_spec _ _ _ _ Hs). specialize (Hfree s eq_refl).
      destruct (Z.leb_spec 0 (WidthMax s));
        destruct (Z.ltb_spec (WidthMax s) (naturalWidth rows j)); simpl; lia.
    + unfold adjustWidth. by rewrite Hs.
Qed.

Lemma resolveWidths_covers_witness :
  exists ws,
    resolveWidths [["hello world"; "x"]; ["a"; "bcd"]] {[ 0 := widthSpec 5 5 ]}
      = Value (Returns ws) /\
    length ws = 2%nat /\
    forall j w, ws !! j = Some w ->
      (forall s, ({[ 0 := widthSpec 5 5 ]} : gmap Z ColumnSpec) !! Z.of_nat j = Some s ->
                 0 <= WidthMax s < naturalWidth [["hello world"; "x"]; ["a"; "bcd"]] j ->
                 w = WidthMax s) /\
      ((forall s, ({[ 0 := widthSpec 5 5 ]} : gmap Z ColumnSpec) !! Z.of_nat j = Some s ->
                  ~ (0 <= WidthMax s < naturalWidth [["hello world"; "x"]; ["a"; "bcd"]] j)) ->
       forall row field, row ∈ [["hello world"; "x"]; ["a"; "bcd"]] ->
                         row !! j = Some field -> len field <= w).
Proof.
  apply (resolveWidths_covers [["hello world"; "x"]; ["a"; "bcd"]]
           {[ 0 := widthSpec 5 5 ]} 2).
  - discriminate.
  - repeat constructor.
Defined.

(** C10.  Both comparisons of the clamp pass read the natural width: a
    column with a spec resolves to [WidthMax] when [0 <= WidthMax] is
    below its natural width, and to the larger of the natural width and
    [WidthMin] otherwise.  For a spec with [0 <= WidthMax < WidthMin],
    which the parser builds from the range [9c-4c], a column of natural
    width at most [WidthMax] resolves to [WidthMin], above [WidthMax], and
    a wider one to [WidthMax], below [WidthMin]. *)
Theorem resolveWidths_clamp rows specs ws j w s :
  resolveWidths rows specs = Value (Returns ws) ->
  ws !! j = Some w -> specs !! Z.of_nat j = Some s ->
  w = (if (0 <=? WidthMax s) && (WidthMax s <? naturalWidth rows j)
       then WidthMax s
       else Z.max (naturalWidth rows j) (WidthMin s)) /\
  (0 <= WidthMax s < WidthMin s ->
   (naturalWidth rows j <= WidthMax s -> w = WidthMin s /\ WidthMax s < w) /\
   (WidthMax s < naturalWidth rows j -> w = WidthMax s /\ w < WidthMin s)) /\
  ParseColumnSpecs "1 9c-4c" = Value {[ 0 := widthSpec 9 4 ]}.
Proof.
  intros (natural & Hrun & ->)%resolveWidths_Returns Hj Hs.
  apply calculateWidths_Returns in Hrun as Hrows. destruct Hrows as [Hne Hall].
  destruct (calculateWidths_uniform rows _ Hne Hall) as (natural' & Hrun' & _ & Hnat).
  rewrite Hrun in Hrun'. injection Hrun' as <-.
  unfold adjustWidths in Hj.
  apply list_lookup_imap_Some in Hj as (w0 & Hj & ->).
  pose proof (lookup_lt_Some _ _ _ Hj) as Hlt.
  rewrite Hnat in Hj by lia. injection Hj as <-.
  rewrite (adjustWidth_spec _ _ _ _ Hs).
  split_and!; [done | | vm_compute; reflexivity].
  intros Hconflict.
  destruct (Z.leb_spec 0 (WidthMax s));
    destruct (Z.ltb_spec (WidthMax s) (naturalWidth rows j)); simpl; lia.
Qed.

Lemma resolveWidths_clamp_witness :
  9 = (if (0 <=? WidthMax (widthSpec 9 4)) &&
          (WidthMax (widthSpec 9 4) <? naturalWidth [["abc"]] 0)
       then WidthMax (widthSpec 9 4)
       else Z.max (naturalWidth [["abc"]] 0) (WidthMin (widthSpec 9 4))) /\
  (0 <= WidthMax (widthSpec 9 4) < WidthMin (widthSpec 9 4) ->
   (naturalWidth [["abc"]] 0 <= WidthMax (widthSpec 9 4) ->
    9 = WidthMin (widthSpec 9 4) /\ WidthMax (widthSpec 9 4) < 9) /\
   (WidthMax (widthSpec 9 4) < naturalWidth [["abc"]] 0 ->
    9 = WidthMax (widthSpec 9 4) /\ 9 < WidthMin (widthSpec 9 4))) /\
  ParseColumnSpecs "1 9c-4c" = Value {[ 0 := widthSpec 9 4 ]}.
Proof.
  apply (resolveWidths_clamp [["abc"]] {[ 0 := widthSpec 9 4 ]} [9] 0 9
           (widthSpec 9 4)).
  - vm_compute. reflexivity.
  - reflexivity.
  - reflexivity.
Defined.

(** ** Main *)

(** C7.  When the column specification parses and two of the rows differ
    in their number of fields, the run exits through
    [die("Not all records have the same number of fields")] and has
    written nothing to standard output. *)
Theorem Main_field_count_mismatch rangeOrder terminalWidth rawSpec specs
    rows row1 row2 :
  ParseColumnSpecs rawSpec = Value specs ->
  row1 ∈ rows -> row2 ∈ rows -> length row1 <> length row2 ->
  Main rangeOrder terminalWidth rawSpec rows =
  {| stdout := EmptyString; status := Exit1 FieldCountMismatch |}.
Proof.
  intros Hparse Hin1 Hin2 Hdiff. unfold Main. rewrite Hparse.
  destruct rows as [|first rest]; [by apply elem_of_nil in Hin1|].
  unfold resolveWidths, calculateWidths.
  rewrite scanRows_mismatch; [done|].
  rewrite length_replicate. intros Hall.
  rewrite Forall_forall in Hall.
  apply Hdiff. by rewrite (Hall _ Hin1), (Hall _ Hin2).
Qed.

Lemma Main_field_count_mismatch_witness :
  Main keyOrder 80 "1 5c" [["a"; "b"]; ["c"]] =
  {| stdout := EmptyString; status := Exit1 FieldCountMismatch |}.
Proof.
  apply (Main_field_count_mismatch keyOrder 80 "1 5c" {[ 0 := widthSpec 5 5 ]}
           [["a"; "b"]; ["c"]] ["a"; "b"] ["c"]).
  - vm_compute. reflexivity.
  - apply elem_of_cons. left. reflexivity.
  - apply elem_of_cons. right. apply elem_of_cons. left. reflexivity.
  - simpl. lia.
Defined.

(** ** The parser *)

Lemma newSpec_wf p : wfParser (newSpec p).
Proof. unfold wfParser, newSpec. cbn. rewrite length_app. simpl. lia. Qed.

Lemma updateSpec_wf f p : wfParser p -> wfParser (updateSpec f p).
Proof. unfold wfParser, updateSpec. cbn. by rewrite length_alter. Qed.

Lemma currentSpec_updateSpec f p :
  currentSpec (updateSpec f p) = f <$> currentSpec p.
Proof. unfold currentSpec, updateSpec. cbn. apply list_lookup_alter_eq. Qed.

(** Every state the parsing loop reaches has a current spec. *)
Lemma parseWord_wf p word p' :
  wfParser p -> parseWord p word = Value p' -> wfParser p'.
Proof.
  intros Hp. unfold parseWord.
  set (p1 := if needNewSpec p then newSpec p else p).
  assert (Hp1 : wfParser p1).
  { unfold p1. destruct (needNewSpec p); [apply newSpec_wf | done]. }
  destruct (HasSuffix word ";");
    [set (p2 := setNeedNewSpec p1); set (w := TrimSuffix word ";")
    | set (p2 := p1); set (w := word)];
    (assert (Hp2 : wfParser p2) by exact Hp1);
    clearbody p2 w;
    (destruct (Atoi w) as [n|];
     [destruct (n <? 1); [done | by intros [= <-]]|]);
    (destruct (parseColumnWidth w) as [width|];
     [intros [= <-]; by apply updateSpec_wf|]);
    (destruct (parseRange w) as [[lower upper]|];
     [intros [= <-]; by apply updateSpec_wf|]);
    unfold parseKeyword;
    (destruct (String.eqb w ";"); [by intros [= <-]|]);
    (destruct (String.eqb w "age"); [|done]);
    intros [= <-]; by apply updateSpec_wf.
Qed.

Lemma parseWords_wf words : forall p p',
  wfParser p -> parseWords p words = Value p' -> wfParser p'.
Proof.
  induction words as [|word words IH]; intros p p' Hp; cbn [parseWords].
  - by intros [= <-].
  - destruct (parseWord p word) as [p1|e] eqn:Hword; [|done].
    apply IH. by apply (parseWord_wf p word).
Qed.

Lemma parserStart_wf : wfParser parserStart.
Proof. unfold wfParser. simpl. lia. Qed.

(** C2 (amended).  In every state of the parsing loop, the token [*]
    (alone or closing its group as [*;]) is accepted and stores -1 in both
    [WidthMin] and [WidthMax] of the current spec, whatever they held
    before; the type of the spec and the columns already named are left as
    they are. *)
Theorem parseWord_star (p : parser) :
  wfParser p ->
  let p1 := if needNewSpec p then newSpec p else p in
  exists p' before,
    parseWord p "*" = Value p' /\
    currentSpec p1 = Some before /\
    currentSpec p' = Some {| Type_ := Type_ before;
                             WidthMin := -1; WidthMax := -1 |} /\
    specs p' = specs p /\
    parseWord p "*;" = Value (setNeedNewSpec p').
Proof.
  intros Hp p1.
  assert (Hp1 : wfParser p1).
  { unfold p1. destruct (needNewSpec p); [apply newSpec_wf | done]. }
  destruct (lookup_lt_is_Some_2 _ _ Hp1) as [before Hbefore].
  exists (updateSpec (setWidths (-1) (-1)) p1), before.
  split_and!.
  - reflexivity.
  - exact Hbefore.
  - rewrite currentSpec_updateSpec. unfold currentSpec. by rewrite Hbefore.
  - unfold p1. by destruct (needNewSpec p).
  - reflexivity.
Qed.

Lemma parseWord_star_witness :
  let p1 := if needNewSpec parserStart then newSpec parserStart
            else parserStart in
  exists p' before,
    parseWord parserStart "*" = Value p' /\
    currentSpec p1 = Some before /\
    currentSpec p' = Some {| Type_ := Type_ before;
                             WidthMin := -1; WidthMax := -1 |} /\
    specs p' = specs parserStart /\
    parseWord parserStart "*;" = Value (setNeedNewSpec p').
Proof. apply (parseWord_star parserStart). unfold wfParser. simpl. lia. Defined.

(** C2 as stated fails.  After [2 5c] the spec of column 2 has [WidthMin]
    5; the token [*] that follows replaces it by -1.  On a fresh spec,
    [WidthMin] is -1 after [*], not the default 0. *)
Lemma parse_star_overwrites_WidthMin :
  ParseColumnSpecs "2 5c" = Value {[ 1 := widthSpec 5 5 ]} /\
  ParseColumnSpecs "2 5c *" = Value {[ 1 := widthSpec (-1) (-1) ]} /\
  ParseColumnSpecs "2 *" = Value {[ 1 := widthSpec (-1) (-1) ]}.
Proof. split_and!; vm_compute; reflexivity. Qed.

(** ** The formatter *)

Lemma length_append (s t : string) :
  String.length (String.append s t) = (String.length s + String.length t)%nat.
Proof. induction s as [|c s IH]; simpl; [done | by rewrite IH]. Qed.

Lemma append_assoc (a b c : string) :
  String.append (String.append a b) c = String.append a (String.append b c).
Proof.
  induction a as [|x a IH]; [done|].
  change (String x (String.append (String.append a b) c) =
          String x (String.append a (String.append b c))).
  by rewrite IH.
Qed.

Lemma append_empty_r (s : string) : String.append s EmptyString = s.
Proof.
  induction s as [|c s IH]; [done|].
  change (String c (String.append s EmptyString) = String c s). by rewrite IH.
Qed.

Lemma substring_append_l (s t : string) :
  substring 0 (String.length s) (String.append s t) = s.
Proof.
  induction s as [|c s IH]; simpl.
  - by destruct t.
  - by rewrite IH.
Qed.

Lemma substring_prefix (s : string) : forall n,
  (n <= String.length s)%nat ->
  String.length (substring 0 n s) = n /\
  exists rest, s = String.append (substring 0 n s) rest.
Proof.
  induction s as [|c s IH]; intros n Hn; simpl in *.
  - assert (n = O) as -> by lia. split; [done|]. by exists EmptyString.
  - destruct n as [|n]; simpl.
    + split; [done|]. by eexists.
    + destruct (IH n ltac:(lia)) as [Hlen [rest Hrest]].
      split; [by rewrite Hlen|]. exists rest.
      change (String c s = String c (String.append (substring 0 n s) rest)).
      by rewrite <- Hrest.
Qed.

Lemma length_spaces (n : nat) : String.length (spaces n) = n.
Proof. induction n as [|n IH]; simpl; [done | by rewrite IH]. Qed.

Lemma dropRight_append (s pad : string) :
  dropRight (String.length pad) (String.append s pad) = s.
Proof.
  unfold dropRight. rewrite length_append.
  replace (String.length s + String.length pad - String.length pad)%nat
    with (String.length s) by lia.
  apply substring_append_l.
Qed.

Lemma runeCount_ASCII (s : string) :
  isASCII s = true -> RuneCountInString s = len s.
Proof.
  unfold RuneCountInString, len. intros Hs. f_equal.
  induction s as [|c s IH]; [done|].
  cbn [isASCII] in Hs. apply andb_true_iff in Hs as [Hc Hs].
  cbn [runeCountFrom DecodeRuneInString]. rewrite Hc. cbn [snd Nat.pred].
  cbn [String.length]. by rewrite IH.
Qed.

(** *** The width that [fmt] reads *)

Lemma digitOf_digitChar (d : Z) :
  0 <= d < 10 -> digitOf (digitChar d) = Some d.
Proof.
  intros Hd.
  assert (d = 0 \/ d = 1 \/ d = 2 \/ d = 3 \/ d = 4 \/ d = 5 \/ d = 6 \/
          d = 7 \/ d = 8 \/ d = 9) as Hcases by lia.
  repeat (destruct Hcases as [->|Hcases]; [reflexivity|]).
  by subst d.
Qed.

Lemma digitChar_not_minus (d : Z) :
  0 <= d < 10 -> Ascii.eqb (digitChar d) "-" = false.
Proof.
  intros Hd.
  assert (d = 0 \/ d = 1 \/ d = 2 \/ d = 3 \/ d = 4 \/ d = 5 \/ d = 6 \/
          d = 7 \/ d = 8 \/ d = 9) as Hcases by lia.
  repeat (destruct Hcases as [->|Hcases]; [reflexivity|]).
  by subst d.
Qed.

(** The digits start with a digit. *)
Lemma minusFlags_digitsOf fuel : forall n acc,
  minusFlags (digitsOf (S fuel) n acc) = digitsOf (S fuel) n acc.
Proof.
  induction fuel as [|fuel IH]; intros n acc.
  - cbn [digitsOf]. assert (0 <= n mod 10 < 10) by (apply Z.mod_pos_bound; lia).
    destruct (n <? 10); cbn [minusFlags]; by rewrite digitChar_not_minus.
  - change (digitsOf (S (S fuel)) n acc)
      with (if n <? 10 then String (digitChar (n mod 10)) acc
            else digitsOf (S fuel) (n / 10) (String (digitChar (n mod 10)) acc)).
    destruct (n <? 10); [|apply IH].
    assert (0 <= n mod 10 < 10) by (apply Z.mod_pos_bound; lia).
    cbn [minusFlags]. by rewrite digitChar_not_minus.
Qed.

(** Reading back the digits of [n]: [parsenum] overflows when the digits
    but the last make a number above 1000000, and reads [n] otherwise. *)
Lemma parsenum_digitsOf fuel : forall n acc,
  0 <= n < 10 ^ Z.of_nat (S fuel) ->
  parsenum (digitsOf (S fuel) n acc) 0 false =
  if 1000000 <? n / 10 then (0, false, EmptyString) else parsenum acc n true.
Proof.
  induction fuel as [|fuel IH]; intros n acc Hn.
  - change (10 ^ Z.of_nat 1) with 10 in Hn.
    cbn [digitsOf]. replace (n mod 10) with n by (symmetry; apply Z.mod_small; lia).
    assert (Hdiv : n / 10 = 0) by (apply Z.div_small; lia).
    rewrite Hdiv. cbn [Z.ltb Z.compare].
    destruct (n <? 10); cbn [parsenum]; rewrite digitOf_digitChar by lia;
      cbn; by rewrite wrap_id by (unfold isInt, minInt, maxInt; lia).
  - change (digitsOf (S (S fuel)) n acc)
      with (if n <? 10 then String (digitChar (n mod 10)) acc
            else digitsOf (S fuel) (n / 10) (String (digitChar (n mod 10)) acc)).
    assert (Hmod : 0 <= n mod 10 < 10) by (apply Z.mod_pos_bound; lia).
    destruct (Z.ltb_spec n 10) as [Hsmall|Hbig].
    + replace (n mod 10) with n by (symmetry; apply Z.mod_small; lia).
      assert (Hdiv : n / 10 = 0) by (apply Z.div_small; lia).
      rewrite Hdiv. cbn [Z.ltb Z.compare parsenum].
      rewrite digitOf_digitChar by lia.
      cbn. by rewrite wrap_id by (unfold isInt, minInt, maxInt; lia).
    + rewrite IH.
      2:{ split; [apply Z.div_pos; lia|].
          apply Z.div_lt_upper_bound; [lia|].
          replace (Z.of_nat (S (S fuel))) with (1 + Z.of_nat (S fuel)) in Hn by lia.
          rewrite Z.pow_add_r in Hn by lia. change (10 ^ 1) with 10 in Hn. lia. }
      destruct (Z.ltb_spec 1000000 (n / 10 / 10)) as [Hov|Hok].
      { destruct (Z.ltb_spec 1000000 (n / 10)); [done|].
        assert (0 <= n / 10) by (apply Z.div_pos; lia).
        assert (n / 10 / 10 <= n / 10) by (apply Z.div_le_upper_bound; lia).
        lia. }
      cbn [parsenum]. rewrite digitOf_digitChar by lia.
      unfold tooLarge.
      assert (0 <= n / 10) by (apply Z.div_pos; lia).
      pose proof (Z.div_mod n 10 ltac:(lia)) as Hsplit.
      destruct (Z.ltb_spec 1000000 (n / 10)) as [Hov'|Hok']; [done|].
      destruct (Z.ltb_spec (n / 10) (-1000000)); [lia|]. cbn [orb].
      replace (n / 10 * 10 + n mod 10) with n by lia.
      by rewrite wrap_id by (unfold isInt, minInt, maxInt; lia).
Qed.

Lemma append_digitsOf fuel : forall n acc rest,
  String.append (digitsOf fuel n acc) rest = digitsOf fuel n (String.append acc rest).
Proof.
  induction fuel as [|fuel IH]; intros n acc rest; [done|].
  cbn [digitsOf]. destruct (n <? 10); [done|]. by rewrite IH.
Qed.

Lemma parsenum_width (w : Z) :
  0 < w <= maxInt ->
  parsenum (minusFlags (String.append (Itoa w) "s")) 0 false =
  if w <? firstWidthTooLarge then (w, true, "s") else (0, false, EmptyString).
Proof.
  intros Hw. unfold Itoa.
  destruct (Z.ltb_spec w 0); [lia|].
  rewrite append_digitsOf, minusFlags_digitsOf, parsenum_digitsOf.
  2:{ unfold maxInt in Hw. change (10 ^ Z.of_nat 19) with 10000000000000000000. lia. }
  unfold firstWidthTooLarge.
  pose proof (Z.div_mod w 10 ltac:(lia)) as Hsplit.
  pose proof (Z.mod_pos_bound w 10 ltac:(lia)) as Hmod.
  destruct (Z.ltb_spec 1000000 (w / 10)); destruct (Z.ltb_spec w 10000010);
    try lia; reflexivity.
Qed.

(** Below the limit of [fmt] the string is padded to the width. *)
Lemma Sprintf_left_pads (w : Z) (s : string) :
  0 < w < firstWidthTooLarge ->
  Sprintf_left w s =
  String.append s (spaces (Z.to_nat (w - RuneCountInString s))).
Proof.
  intros Hw. unfold Sprintf_left. rewrite parsenum_width.
  2:{ unfold firstWidthTooLarge, maxInt in *. lia. }
  destruct (Z.ltb_spec w firstWidthTooLarge); [|lia].
  cbn [negb orb]. by destruct (Z.eqb_spec w 0); [lia|].
Qed.

(** From the limit on there is no width and no verb. *)
Lemma Sprintf_left_no_verb (w : Z) (s : string) :
  firstWidthTooLarge <= w <= maxInt ->
  Sprintf_left w s =
  String.append "%!(NOVERB)%!(EXTRA string=" (String.append s ")").
Proof.
  intros Hw. unfold Sprintf_left. rewrite parsenum_width.
  2:{ unfold firstWidthTooLarge in *. lia. }
  by destruct (Z.ltb_spec w firstWidthTooLarge); [lia|].
Qed.

Lemma truncateField_short width field :
  len field <= width -> truncateField width field = Returns field.
Proof.
  intros Hle. unfold truncateField.
  destruct (Z.ltb_spec width (len field)); [lia | done].
Qed.

Lemma truncateField_long width field :
  0 <= width < len field ->
  truncateField width field = Returns (substring 0 (Z.to_nat width) field) /\
  slice field 0 width = Some (substring 0 (Z.to_nat width) field).
Proof.
  intros [Hlo Hhi]. unfold truncateField, slice.
  destruct (Z.ltb_spec width (len field)); [|lia].
  destruct (Z.leb_spec 0 0); [|lia].
  destruct (Z.leb_spec 0 width); [|lia].
  destruct (Z.leb_spec width (len field)); [|lia].
  cbn [andb orPanic]. by rewrite Z.sub_0_r.
Qed.







(** ** Scenarios *)

Example Main_natural_widths :
  Main keyOrder 80 EmptyString [["a"; "bb"]; ["ccc"; "d"]] =
  {| stdout := String.append "a    bb"
                 (String.append outputRecordSeparator
                    (String.append "ccc  d " outputRecordSeparator));
     status := Exit0 |}.
Proof. vm_compute. reflexivity. Qed.

Example Main_exact_width :
  Main keyOrder 80 "1 5c" [["hello world"; "x"]] =
  {| stdout := String.append "hello  x" outputRecordSeparator;
     status := Exit0 |}.
Proof. vm_compute. reflexivity. Qed.

(** The loop stops as soon as the consumed width is no longer above the
    budget: 4 + 2 + 4 = 10. *)
Example rebalanceWidths_stops_at_budget :
  ParseColumnSpecs "2 3c-*" = Value {[ 1 := widthSpec 3 (-1) ]} /\
  rebalanceWidths keyOrder 10 [4; 10] {[ 1 := widthSpec 3 (-1) ]} = Returns [4; 4].
Proof. split; vm_compute; reflexivity. Qed.

(** Columns named before a [;] share the spec that the later tokens of the
    group still change. *)
Example ParseColumnSpecs_shared_spec :
  ParseColumnSpecs "1 2 7c; 3 age" =
  Value {[ 0 := widthSpec 7 7; 1 := widthSpec 7 7;
           2 := {| Type_ := TypeAge; WidthMin := 0; WidthMax := 0 |} ]}.
Proof. vm_compute. reflexivity. Qed.

(** A minimum of -1 keeps a column of width 0 adjustable.  When standard
    output is not a terminal ([terminalWidth] 0), the second iteration on
    a row of two one-byte fields finds no adjustable column of positive
    width, decrements column 0 and dereferences [adjustable[0]], which is
    nil. *)
Example Main_star_not_a_terminal :
  Main keyOrder 0 "2 *" [["a"; "b"]] =
  {| stdout := EmptyString; status := Panicked |}.
Proof. vm_compute. reflexivity. Qed.

(** * Further properties of the code *)

(** ** The choice of the column to shrink *)

Lemma widerOf_unfold ws j0 w0 i w :
  index ws i = Some w ->
  widerOf ws (Returns (j0, w0)) i = Returns (if w0 <? w then (i, w) else (j0, w0)).
Proof. intros Hi. unfold widerOf, mbind, result_bind. by rewrite Hi. Qed.

Lemma findWidest_fold ws keys : forall j0 w0,
  (forall i, i ∈ keys -> is_Some (index ws i)) ->
  exists j wj,
    foldl (widerOf ws) (Returns (j0, w0)) keys = Returns (j, wj) /\
    ((j = j0 /\ wj = w0 /\
      forall i w, i ∈ keys -> index ws i = Some w -> w <= w0) \/
     (w0 < wj /\ index ws j = Some wj /\
      exists pre post, keys = (pre ++ j :: post)%list /\
        (forall i w, i ∈ pre -> index ws i = Some w -> w < wj) /\
        (forall i w, i ∈ post -> index ws i = Some w -> w <= wj))).
Proof.
  induction keys as [|i rest IH]; intros j0 w0 Hidx.
  - exists j0, w0. split; [done|]. left. split_and!; try done.
    intros i w Hin. by apply elem_of_nil in Hin.
  - destruct (Hidx i) as [w Hw]; [apply elem_of_cons; by left|].
    assert (Hrest : forall i', i' ∈ rest -> is_Some (index ws i')).
    { intros i' Hin. apply Hidx, elem_of_cons. by right. }
    cbn [foldl]. rewrite (widerOf_unfold _ _ _ _ _ Hw).
    destruct (Z.ltb_spec w0 w) as [Hlt|Hge].
    + destruct (IH i w Hrest) as (j & wj & -> & [(-> & -> & Hall)|(Hw' & Hj & Hsplit)]).
      * exists i, w. split; [done|]. right. split_and!; try done.
        exists [], rest. split_and!; try done.
        intros i' w' Hin. by apply elem_of_nil in Hin.
      * destruct Hsplit as (pre & post & -> & Hpre & Hpost).
        exists j, wj. split; [done|]. right. split_and!; [lia | done |].
        exists (i :: pre), post. split_and!; try done.
        intros i' w' [->|Hin]%elem_of_cons Hi'; [|by eapply Hpre].
        rewrite Hw in Hi'. injection Hi' as <-. lia.
    + destruct (IH j0 w0 Hrest) as (j & wj & -> & [(-> & -> & Hall)|(Hw' & Hj & Hsplit)]).
      * exists j0, w0. split; [done|]. left. split_and!; try done.
        intros i' w' [->|Hin]%elem_of_cons Hi'; [|by eapply Hall].
        rewrite Hw in Hi'. injection Hi' as <-. lia.
      * destruct Hsplit as (pre & post & -> & Hpre & Hpost).
        exists j, wj. split; [done|]. right. split_and!; [lia | done |].
        exists (i :: pre), post. split_and!; try done.
        intros i' w' [->|Hin]%elem_of_cons Hi'; [|by eapply Hpre].
        rewrite Hw in Hi'. injection Hi' as <-. lia.
Qed.

(** X1.  The scan [for i := range adjustable] selects the first key, in the
    order of the visit, whose column is widest, provided that width is
    positive; when no key has a column of positive width it leaves
    [widestIndex] at 0, whether or not 0 is a key. *)
Theorem findWidest_first_widest ws keys :
  (forall i, i ∈ keys -> is_Some (index ws i)) ->
  exists j wj,
    findWidest keys ws = Returns (j, wj) /\
    ((j = 0 /\ wj = 0 /\
      forall i w, i ∈ keys -> index ws i = Some w -> w <= 0) \/
     (0 < wj /\ index ws j = Some wj /\
      exists pre post, keys = (pre ++ j :: post)%list /\
        (forall i w, i ∈ pre -> index ws i = Some w -> w < wj) /\
        (forall i w, i ∈ post -> index ws i = Some w -> w <= wj))).
Proof. intros Hidx. by apply findWidest_fold. Qed.

Lemma findWidest_first_widest_witness :
  exists j wj,
    findWidest [2; 0; 1] [7; 3; 7] = Returns (j, wj) /\
    ((j = 0 /\ wj = 0 /\
      forall i w, i ∈ [2; 0; 1] -> index [7; 3; 7] i = Some w -> w <= 0) \/
     (0 < wj /\ index [7; 3; 7] j = Some wj /\
      exists pre post, [2; 0; 1] = (pre ++ j :: post)%list /\
        (forall i w, i ∈ pre -> index [7; 3; 7] i = Some w -> w < wj) /\
        (forall i w, i ∈ post -> index [7; 3; 7] i = Some w -> w <= wj))).
Proof.
  apply (findWidest_first_widest [7; 3; 7] [2; 0; 1]).
  intros i Hi.
  repeat (apply elem_of_cons in Hi as [->|Hi]; [by eexists|]).
  by apply elem_of_nil in Hi.
Defined.

(** ** How far the shrink loop goes *)

Lemma potentialOf_empty ws : potentialOf ∅ ws = 0.
Proof. unfold potentialOf. by rewrite map_to_list_empty. Qed.

Lemma consumed_isInt ws : isInt (consumed ws).
Proof. rewrite consumed_eq. apply wrap_isInt. Qed.

Section LoopExact.
Variable ws0 : list Z.
Variable adj0 : gmap Z ColumnSpec.
Hypothesis adj0_int : forall i s, adj0 !! i = Some s -> isInt (WidthMin s).
Variable rangeOrder : nat -> gmap Z ColumnSpec -> list (Z * ColumnSpec).
Variable availableWidth : Z.
Hypothesis availableWidth_int : isInt availableWidth.

(** A loop that ends normally has run exactly as many iterations as the
    smaller of the excess over the budget and the slack available. *)
Lemma shrinkLoop_exact fuel : forall k st st' n,
  loopInv ws0 adj0 st ->
  shrinkLoop rangeOrder availableWidth fuel k st = (Returns st', n) ->
  consumedWidth st' = consumedWidth st - Z.of_nat n /\
  potential st' = potential st - Z.of_nat n /\
  Z.of_nat n = Z.min (Z.max 0 (consumedWidth st - availableWidth)) (potential st).
Proof.
  induction fuel as [|fuel IH]; intros k st st' n Hinv;
    pose proof (loopInv_potential ws0 adj0 _ Hinv) as Hsize;
    cbn [shrinkLoop]; destruct (loopGuard availableWidth st) eqn:Hguard;
    try done.
  - intros [= <- <-]. split_and!; [lia | lia |].
    unfold loopGuard in Hguard. apply andb_false_iff in Hguard as [Hfit|Hempty].
    + apply Z.ltb_ge in Hfit. lia.
    + apply Z.ltb_ge in Hempty.
      assert (adjustable st = ∅) as Hnone by (apply map_size_empty_inv; lia).
      rewrite potential_eq, Hnone, potentialOf_empty. lia.
  - unfold loopGuard in Hguard.
    apply andb_true_iff in Hguard as [Hexcess%Z.ltb_lt Hne%Z.ltb_lt].
    destruct (shrinkStep (rangeOrder k (adjustable st)).*1 st) as [st1| |] eqn:Hstep;
      [|done|done].
    destruct (shrinkStep_inv ws0 adj0 adj0_int _ _ _ Hinv Hstep) as [Hinv1 Hpot].
    apply shrinkStep_Returns in Hstep as (j & s & w & _ & _ & _ & Hc & _).
    destruct (shrinkLoop rangeOrder availableWidth fuel (S k) st1)
      as [r n1] eqn:Hrun.
    intros [= -> <-].
    destruct (IH _ _ _ _ Hinv1 Hrun) as (Hc' & Hpot' & Hn).
    assert (Hcint : isInt (consumedWidth st)).
    { destruct Hinv as (_ & _ & -> & _). apply consumed_isInt. }
    rewrite wrap_id in Hc by (unfold isInt in *; lia).
    rewrite Hc' , Hpot', Hc, Hpot. lia.
  - intros [= <- <-]. split_and!; [lia | lia |].
    unfold loopGuard in Hguard. apply andb_false_iff in Hguard as [Hfit|Hempty].
    + apply Z.ltb_ge in Hfit. lia.
    + apply Z.ltb_ge in Hempty.
      assert (adjustable st = ∅) as Hnone by (apply map_size_empty_inv; lia).
      rewrite potential_eq, Hnone, potentialOf_empty. lia.
Qed.
End LoopExact.

(** ** The shrink loop on minimums that are not negative *)

Section LoopFair.
Variable ws0 : list Z.
Variable adj0 : gmap Z ColumnSpec.
Hypothesis adj0_int : forall i s, adj0 !! i = Some s -> isInt (WidthMin s).
Hypothesis adj0_nonneg : forall i s, adj0 !! i = Some s -> 0 <= WidthMin s.
Variable rangeOrder : nat -> gmap Z ColumnSpec -> list (Z * ColumnSpec).
Hypothesis rangeOrder_perm : validOrder rangeOrder.
Variable availableWidth : Z.

Lemma elem_of_keys k (m : gmap Z ColumnSpec) i :
  i ∈ (rangeOrder k m).*1 <-> is_Some (m !! i).
Proof.
  rewrite list_elem_of_fmap. split.
  - intros ([i' s] & -> & Hin). exists s.
    by apply (elem_of_rangeOrder _ rangeOrder_perm) in Hin.
  - intros [s Hs]. exists (i, s). split; [done|].
    by apply (elem_of_rangeOrder _ rangeOrder_perm).
Qed.

(** With every minimum at 0 or above, an iteration never panics: it
    shrinks an adjustable column that no adjustable column exceeds. *)
Lemma shrinkStep_widest k st :
  loopInv ws0 adj0 st -> adjustable st <> ∅ ->
  exists st' j s w,
    shrinkStep (rangeOrder k (adjustable st)).*1 st = Returns st' /\
    adjustable st !! j = Some s /\
    index (widths st) j = Some w /\
    widths st' = store (widths st) j (w - 1) /\
    adjustable st' = (if w - 1 <=? WidthMin s
                      then delete j (adjustable st) else adjustable st) /\
    forall i t wi, adjustable st !! i = Some t ->
                   index (widths st) i = Some wi -> wi <= w.
Proof.
  intros Hinv Hne.
  set (keys := (rangeOrder k (adjustable st)).*1).
  assert (Hidx : forall i, i ∈ keys -> is_Some (index (widths st) i)).
  { intros i [s Hs]%elem_of_keys.
    destruct (loopInv_adjustable ws0 adj0 _ _ _ Hinv Hs) as (_ & w & w0 & Hw & _).
    by exists w. }
  destruct (findWidest_fold (widths st) keys 0 0 Hidx)
    as (j & wj & Hfind & [(-> & -> & Hall)|(Hpos & Hj & pre & post & Hkeys & Hpre & Hpost)]).
  - exfalso. apply map_choose in Hne as (i & s & Hs).
    destruct (loopInv_adjustable ws0 adj0 _ _ _ Hinv Hs)
      as (H0 & w & w0 & Hw & _ & Hlt & _).
    pose proof (adj0_nonneg _ _ H0).
    assert (w <= 0); [|lia].
    apply (Hall i w); [|done]. apply elem_of_keys. by exists s.
  - assert (Hjkey : j ∈ keys).
    { rewrite Hkeys. apply elem_of_app. right. apply elem_of_cons. by left. }
    apply elem_of_keys in Hjkey as [s Hs].
    destruct (loopInv_adjustable ws0 adj0 _ _ _ Hinv Hs)
      as (H0 & w & w0 & Hw & _ & Hlt & Hint).
    rewrite Hj in Hw. injection Hw as Heq. subst w.
    pose proof (adj0_int _ _ H0) as Hmin.
    assert (Hnowrap : wrap (wj - 1) = wj - 1).
    { apply wrap_id. unfold isInt in *. lia. }
    eexists _, j, s, wj. split_and!; try done.
    + unfold shrinkStep, findWidest, mbind, result_bind. fold keys.
      rewrite Hfind.
      cbn [fst]. rewrite Hj. cbn [orPanic].
      rewrite (index_store_eq _ _ _ _ Hj). cbn [orPanic]. rewrite Hs.
      cbn [orPanic]. rewrite Hnowrap. reflexivity.
    + done.
    + done.
    + intros i t wi Hi Hwi.
      assert (Hikey : i ∈ keys) by (apply elem_of_keys; by exists t).
      rewrite Hkeys in Hikey.
      apply elem_of_app in Hikey as [Hin|[->|Hin]%elem_of_cons].
      * specialize (Hpre i wi Hin Hwi). lia.
      * rewrite Hj in Hwi. injection Hwi as <-. lia.
      * by apply (Hpost i wi).
Qed.

Lemma shrinkStep_level k st st' :
  loopInv ws0 adj0 st -> levelInv ws0 st -> adjustable st <> ∅ ->
  shrinkStep (rangeOrder k (adjustable st)).*1 st = Returns st' ->
  levelInv ws0 st'.
Proof.
  intros Hinv Hlevel Hne Hstep.
  destruct (shrinkStep_widest k st Hinv Hne)
    as (st1 & j & s & w & Hstep1 & Hs & Hw & Hws & Hadj & Hmax).
  rewrite Hstep in Hstep1. injection Hstep1 as <-.
  assert (Hself : index (widths st') j = Some (w - 1)).
  { rewrite Hws. by apply (index_store_eq _ _ _ _ Hw). }
  assert (Hother : forall i, i <> j -> index (widths st') i = index (widths st) i).
  { intros i Hi. rewrite Hws. by apply (index_store_ne _ _ _ _ _ Hw). }
  intros j' wj0 wj' i t wi Hj0 Hj' Hshrunk Hi Hwi.
  assert (Hi_old : adjustable st !! i = Some t).
  { rewrite Hadj in Hi. destruct (w - 1 <=? WidthMin s); [|done].
    apply lookup_delete_Some in Hi as [_ Hi]. done. }
  assert (Hwi_old : exists wi', index (widths st) i = Some wi' /\ wi <= wi').
  { destruct (decide (i = j)) as [->|Hij].
    - rewrite Hself in Hwi. injection Hwi as <-. exists w. split; [done | lia].
    - rewrite (Hother i Hij) in Hwi. exists wi. split; [done | lia]. }
  destruct Hwi_old as (wi' & Hwi' & Hle).
  destruct (decide (j' = j)) as [->|Hjj].
  - rewrite Hself in Hj'. injection Hj' as <-.
    specialize (Hmax i t wi' Hi_old Hwi'). lia.
  - rewrite (Hother j' Hjj) in Hj'.
    specialize (Hlevel j' wj0 wj' i t wi' Hj0 Hj' Hshrunk Hi_old Hwi'). lia.
Qed.

Lemma shrinkLoop_fair fuel : forall k st,
  loopInv ws0 adj0 st -> levelInv ws0 st -> potential st <= Z.of_nat fuel ->
  exists st' n,
    shrinkLoop rangeOrder availableWidth fuel k st = (Returns st', n) /\
    loopInv ws0 adj0 st' /\ levelInv ws0 st' /\
    loopGuard availableWidth st' = false.
Proof.
  induction fuel as [|fuel IH]; intros k st Hinv Hlevel Hfuel;
    pose proof (loopInv_potential ws0 adj0 _ Hinv) as Hsize;
    cbn [shrinkLoop]; destruct (loopGuard availableWidth st) eqn:Hguard.
  - unfold loopGuard in Hguard.
    apply andb_true_iff in Hguard as [_ Hne%Z.ltb_lt]. lia.
  - exists st, O. by split_and!.
  - assert (Hne : adjustable st <> ∅).
    { unfold loopGuard in Hguard.
      apply andb_true_iff in Hguard as [_ Hne%Z.ltb_lt].
      intros Hempty. rewrite Hempty, map_size_empty in Hne. lia. }
    destruct (shrinkStep_widest k st Hinv Hne) as (st1 & j & s & w & Hstep & _).
    rewrite Hstep.
    destruct (shrinkStep_inv ws0 adj0 adj0_int _ _ _ Hinv Hstep) as [Hinv1 Hpot].
    pose proof (shrinkStep_level k st st1 Hinv Hlevel Hne Hstep) as Hlevel1.
    destruct (IH (S k) st1 Hinv1 Hlevel1 ltac:(lia))
      as (st' & n & -> & Hinv' & Hlevel' & Hguard').
    exists st', (S n). by split_and!.
  - exists st, O. by split_and!.
Qed.
End LoopFair.

(** ** rebalanceWidths: what a call that returns has achieved *)

Lemma initial_levelInv ws specs :
  levelInv ws {| widths := ws; consumedWidth := consumed ws;
                 adjustable := adjustableSet ws specs |}.
Proof.
  intros j wj0 wj i s wi Hj0 Hj Hlt. cbn [widths] in Hj.
  rewrite Hj0 in Hj. injection Hj as <-. lia.
Qed.

(** A flexible column that is not in the adjustable set of the final
    state is at or below its minimum. *)
Lemma loopInv_not_adjustable ws specs st i s w :
  loopInv ws (adjustableSet ws specs) st ->
  specs !! i = Some s -> HasFlexibleWidth s = true ->
  index (widths st) i = Some w -> adjustable st !! i = None ->
  w <= WidthMin s.
Proof.
  intros (_ & _ & _ & Hcol) Hs Hflex Hw Hnone.
  specialize (Hcol i). unfold columnInv in Hcol. rewrite Hnone in Hcol.
  destruct (adjustableSet ws specs !! i) as [s'|] eqn:H0.
  - apply adjustableSet_lookup in H0 as [Hs' _].
    assert (s' = s) as -> by congruence.
    destruct Hcol as [Hmin _]. rewrite Hw in Hmin. injection Hmin as ->. lia.
  - rewrite Hw in Hcol.
    destruct (Z.le_gt_cases w (WidthMin s)) as [|Hgt]; [done|].
    assert (adjustableSet ws specs !! i = Some s); [|congruence].
    apply adjustableSet_lookup. split; [done|].
    apply isAdjustable_true. split; [done|]. exists w. split; [done | lia].
Qed.

(** X2.  A call that returns has either brought the consumed width within
    the budget or left every flexible column at or below its minimum. *)
Theorem rebalanceWidths_fits_or_exhausted rangeOrder availableWidth ws specs out :
  validOrder rangeOrder -> wfWidths ws -> wfSpecs specs ->
  rebalanceWidths rangeOrder availableWidth ws specs = Returns out ->
  consumed out <= availableWidth \/
  (forall i s w, specs !! i = Some s -> HasFlexibleWidth s = true ->
                 index out i = Some w -> w <= WidthMin s).
Proof.
  intros Hperm Hws Hspecs Hout.
  destruct (rebalanceWidths_Returns _ Hperm _ _ _ Hws Hspecs _ Hout)
    as (st & <- & Hinv & Hguard & _).
  unfold loopGuard in Hguard. apply andb_false_iff in Hguard as [Hfit|Hempty].
  - left. destruct Hinv as (_ & _ & <- & _). by apply Z.ltb_ge.
  - right. intros i s w Hs Hflex Hw.
    apply (loopInv_not_adjustable ws specs st i s w); try done.
    assert (adjustable st = ∅) as ->; [|apply lookup_empty].
    apply map_size_empty_inv. apply Z.ltb_ge in Hempty. lia.
Qed.

Lemma rebalanceWidths_fits_or_exhausted_witness :
  consumed [4; 4] <= 10 \/
  (forall i s w, ({[ 1 := widthSpec 3 (-1) ]} : gmap Z ColumnSpec) !! i = Some s ->
                 HasFlexibleWidth s = true ->
                 index [4; 4] i = Some w -> w <= WidthMin s).
Proof.
  apply (rebalanceWidths_fits_or_exhausted keyOrder 10 [4; 10]
           {[ 1 := widthSpec 3 (-1) ]} [4; 4]).
  - exact keyOrder_valid.
  - int_widths.
  - apply wfSpecs_singleton. int_range.
  - vm_compute. reflexivity.
Defined.

Lemma rebalanceWidths_run rangeOrder availableWidth ws specs out :
  validOrder rangeOrder ->
  rebalanceWidths rangeOrder availableWidth ws specs = Returns out ->
  exists st n,
    shrinkLoop rangeOrder availableWidth (Z.to_nat (shrinkBound ws specs)) 1
      {| widths := ws; consumedWidth := consumed ws;
         adjustable := adjustableSet ws specs |} = (Returns st, n) /\
    widths st = out.
Proof.
  intros Hperm. unfold rebalanceWidths, mbind, result_bind.
  destruct (initialState rangeOrder ws specs) as [st0| |] eqn:Hinit;
    [|done|done].
  apply (initialState_Returns _ Hperm) in Hinit as [-> _].
  change (potential {| widths := ws; consumedWidth := consumed ws;
                       adjustable := adjustableSet ws specs |})
    with (shrinkBound ws specs).
  destruct (shrinkLoop rangeOrder availableWidth _ 1 _) as [r n] eqn:Hrun.
  cbn [fst]. destruct r as [st| |]; [|done|done].
  intros [= <-]. by exists st, n.
Qed.

(** X3.  The loop shrinks no more than it must: when the call returns,
    the consumed width is the budget, unless the widths fitted already
    (nothing changes) or the slack of the adjustable columns runs out
    first (all of it is used). *)
Theorem rebalanceWidths_exact rangeOrder availableWidth ws specs out :
  validOrder rangeOrder -> wfWidths ws -> wfSpecs specs ->
  isInt availableWidth ->
  rebalanceWidths rangeOrder availableWidth ws specs = Returns out ->
  0 <= shrinkBound ws specs /\
  consumed out =
    Z.max (Z.min availableWidth (consumed ws))
          (consumed ws - shrinkBound ws specs).
Proof.
  intros Hperm Hws Hspecs Htw Hout.
  destruct (rebalanceWidths_run _ _ _ _ _ Hperm Hout) as (st & n & Hrun & <-).
  set (st0 := {| widths := ws; consumedWidth := consumed ws;
                 adjustable := adjustableSet ws specs |}) in *.
  pose proof (initial_loopInv ws specs Hws) as Hinv0. fold st0 in Hinv0.
  pose proof (loopInv_potential _ _ _ Hinv0) as Hpos.
  assert (Hbound : potential st0 = shrinkBound ws specs) by done.
  assert (Hfuel : potential st0 <= Z.of_nat (Z.to_nat (shrinkBound ws specs)))
    by lia.
  destruct (shrinkLoop_spec ws (adjustableSet ws specs)
              (adjustableSet_int ws specs Hspecs)
              rangeOrder availableWidth _ 1 st0 Hinv0 Hfuel)
    as (r & n' & Hrun' & _ & _ & Hfinal).
  rewrite Hrun in Hrun'. injection Hrun' as <- <-.
  destruct (Hfinal st eq_refl) as [(_ & _ & Hcons & _) _].
  destruct (shrinkLoop_exact ws (adjustableSet ws specs)
              (adjustableSet_int ws specs Hspecs)
              rangeOrder availableWidth Htw _ _ _ _ _ Hinv0 Hrun)
    as (Hc & _ & Hn).
  rewrite <- Hcons, Hc. cbn [consumedWidth st0] in *. lia.
Qed.

Lemma rebalanceWidths_exact_witness :
  0 <= shrinkBound [4; 10] {[ 1 := widthSpec 3 (-1) ]} /\
  consumed [4; 4] =
    Z.max (Z.min 10 (consumed [4; 10]))
          (consumed [4; 10] - shrinkBound [4; 10] {[ 1 := widthSpec 3 (-1) ]}).
Proof.
  apply (rebalanceWidths_exact keyOrder 10 [4; 10]
           {[ 1 := widthSpec 3 (-1) ]} [4; 4]).
  - exact keyOrder_valid.
  - int_widths.
  - apply wfSpecs_singleton. int_range.
  - int_range.
  - vm_compute. reflexivity.
Defined.

(** X4.  Without a flexible spec nothing can be shrunk: whatever the
    budget, the widths are returned as they are.  This is the case of a
    run without any column specification, on which the width of the
    terminal has no effect. *)
Theorem rebalanceWidths_no_flexible rangeOrder availableWidth ws specs :
  validOrder rangeOrder ->
  (forall i s, specs !! i = Some s -> HasFlexibleWidth s = false) ->
  rebalanceWidths rangeOrder availableWidth ws specs = Returns ws.
Proof.
  intros Hperm Hrigid. unfold rebalanceWidths.
  rewrite (initialState_in_range _ Hperm ws specs).
  2:{ intros i s Hs Hflex. rewrite (Hrigid i s Hs) in Hflex. done. }
  unfold mbind, result_bind. rewrite shrinkLoop_guard_false; [done|].
  unfold loopGuard. cbn [adjustable].
  assert (adjustableSet ws specs = ∅) as ->.
  { apply map_eq. intros i. rewrite lookup_empty.
    destruct (adjustableSet ws specs !! i) as [s|] eqn:Hi; [|done].
    apply adjustableSet_lookup in Hi as [Hs [Hflex _]%isAdjustable_true].
    rewrite (Hrigid i s Hs) in Hflex. done. }
  rewrite map_size_empty. apply andb_false_r.
Qed.

Lemma rebalanceWidths_no_flexible_witness :
  rebalanceWidths keyOrder 0 [11; 1] {[ 0 := widthSpec 5 5 ]} = Returns [11; 1].
Proof.
  apply (rebalanceWidths_no_flexible keyOrder 0 [11; 1] {[ 0 := widthSpec 5 5 ]}).
  - exact keyOrder_valid.
  - intros i s [_ <-]%lookup_singleton_Some. reflexivity.
Defined.

Lemma rebalanceWidths_fair_run rangeOrder availableWidth ws specs :
  validOrder rangeOrder -> wfWidths ws -> wfSpecs specs ->
  safeSpecs ws specs ->
  exists st,
    rebalanceWidths rangeOrder availableWidth ws specs = Returns (widths st) /\
    loopInv ws (adjustableSet ws specs) st /\
    levelInv ws st /\
    loopGuard availableWidth st = false.
Proof.
  intros Hperm Hws Hspecs Hsafe. unfold rebalanceWidths.
  rewrite (initialState_in_range _ Hperm ws specs).
  2:{ intros i s Hs Hflex. by destruct (Hsafe i s Hs Hflex). }
  set (st0 := {| widths := ws; consumedWidth := consumed ws;
                 adjustable := adjustableSet ws specs |}).
  assert (Hnonneg : forall i s, adjustableSet ws specs !! i = Some s ->
                                0 <= WidthMin s).
  { intros i s [Hs [Hflex _]%isAdjustable_true]%adjustableSet_lookup.
    by destruct (Hsafe i s Hs Hflex). }
  destruct (shrinkLoop_fair ws (adjustableSet ws specs)
              (adjustableSet_int ws specs Hspecs) Hnonneg
              rangeOrder Hperm availableWidth (Z.to_nat (potential st0)) 1 st0
              (initial_loopInv ws specs Hws) (initial_levelInv ws specs)
              ltac:(lia))
    as (st & n & Hrun & Hinv & Hlevel & Hguard).
  exists st. unfold mbind, result_bind. rewrite Hrun. by split_and!.
Qed.

(** X5.  When every flexible spec names a column that exists and has a
    minimum of 0 or more, [rebalanceWidths] returns: it neither indexes
    the widths out of range nor dereferences a missing entry of
    [adjustable]; and widths that are not negative stay so. *)
Theorem rebalanceWidths_safe rangeOrder availableWidth ws specs :
  validOrder rangeOrder -> wfWidths ws -> wfSpecs specs ->
  safeSpecs ws specs ->
  exists out,
    rebalanceWidths rangeOrder availableWidth ws specs = Returns out /\
    length out = length ws /\
    (Forall (fun w => 0 <= w) ws -> Forall (fun w => 0 <= w) out).
Proof.
  intros Hperm Hws Hspecs Hsafe.
  destruct (rebalanceWidths_fair_run rangeOrder availableWidth ws specs
              Hperm Hws Hspecs Hsafe)
    as (st & Hrun & (Hlen & _ & _ & Hcol) & _ & _).
  exists (widths st). split_and!; [done | done |].
  intros Hpos. apply Forall_lookup_2. intros k w Hk.
  pose proof (lookup_lt_Some _ _ _ Hk) as Hlt.
  destruct (lookup_lt_is_Some_2 ws k ltac:(lia)) as [w0 Hw0].
  pose proof (Forall_lookup_1 _ _ _ _ Hpos Hw0) as Hw0pos. simpl in Hw0pos.
  specialize (Hcol (Z.of_nat k)). unfold columnInv in Hcol.
  rewrite !index_of_nat, Hk, Hw0 in Hcol.
  destruct (adjustable st !! Z.of_nat k) as [s|] eqn:Hadj.
  - destruct Hcol as (H0 & w' & w0' & [= <-] & _ & Hrange).
    apply adjustableSet_lookup in H0 as [Hs [Hflex _]%isAdjustable_true].
    destruct (Hsafe _ _ Hs Hflex). lia.
  - destruct (adjustableSet ws specs !! Z.of_nat k) as [s|] eqn:H0.
    + destruct Hcol as ([= ->] & _).
      apply adjustableSet_lookup in H0 as [Hs [Hflex _]%isAdjustable_true].
      by destruct (Hsafe _ _ Hs Hflex).
    + injection Hcol as ->. done.
Qed.

Lemma rebalanceWidths_safe_witness :
  exists out,
    rebalanceWidths keyOrder 0 [4; 10] {[ 1 := widthSpec 3 (-1) ]} = Returns out /\
    length out = length [4; 10] /\
    (Forall (fun w => 0 <= w) [4; 10] -> Forall (fun w => 0 <= w) out).
Proof.
  apply (rebalanceWidths_safe keyOrder 0 [4; 10] {[ 1 := widthSpec 3 (-1) ]}).
  - exact keyOrder_valid.
  - int_widths.
  - apply wfSpecs_singleton. int_range.
  - intros i s [<- <-]%lookup_singleton_Some _. split; [by eexists | simpl; lia].
Defined.

(** X6.  Shrinking is levelled.  Under the same conditions, a column
    that was shrunk ends at most one below any flexible column that could
    still be shrunk: the loop always takes from a widest adjustable
    column. *)
Theorem rebalanceWidths_level rangeOrder availableWidth ws specs out :
  validOrder rangeOrder -> wfWidths ws -> wfSpecs specs ->
  safeSpecs ws specs ->
  rebalanceWidths rangeOrder availableWidth ws specs = Returns out ->
  forall j wj0 wj i s wi,
    index ws j = Some wj0 -> index out j = Some wj -> wj < wj0 ->
    specs !! i = Some s -> HasFlexibleWidth s = true ->
    index out i = Some wi -> WidthMin s < wi ->
    wi <= wj + 1.
Proof.
  intros Hperm Hws Hspecs Hsafe Hout.
  destruct (rebalanceWidths_fair_run rangeOrder availableWidth ws specs
              Hperm Hws Hspecs Hsafe)
    as (st & Hrun & Hinv & Hlevel & _).
  rewrite Hout in Hrun. injection Hrun as ->.
  intros j wj0 wj i s wi Hj0 Hj Hshrunk Hs Hflex Hi Hmin.
  destruct (adjustable st !! i) as [t|] eqn:Hadj.
  - by apply (Hlevel j wj0 wj i t wi).
  - pose proof (loopInv_not_adjustable ws specs st i s wi Hinv Hs Hflex Hi Hadj).
    lia.
Qed.

Lemma rebalanceWidths_level_witness : 7 <= 7 + 1.
Proof.
  apply (rebalanceWidths_level keyOrder 21 [12; 9; 3]
           {[ 0 := widthSpec 0 (-1); 1 := widthSpec 0 (-1) ]} [7; 7; 3]
           ltac:(exact keyOrder_valid) ltac:(int_widths)) with
    (j := 0) (wj0 := 12) (i := 1) (s := widthSpec 0 (-1)).
  - intros i s Hs.
    apply lookup_insert_Some in Hs as [[_ <-]|[_ [_ <-]%lookup_singleton_Some]];
      int_range.
  - intros i s Hs _.
    apply lookup_insert_Some in Hs as [[<- <-]|[_ [<- <-]%lookup_singleton_Some]];
      (split; [by eexists | simpl; lia]).
  - vm_compute. reflexivity.
  - reflexivity.
  - reflexivity.
  - lia.
  - reflexivity.
  - reflexivity.
  - reflexivity.
  - simpl. lia.
Defined.

(** ** The shrink loop on a negative minimum *)

Lemma Zsum_fmap_le {A : Type} (f g : A -> Z) (l : list A) :
  (forall x, x ∈ l -> f x <= g x) -> Zsum (f <$> l) <= Zsum (g <$> l).
Proof.
  induction l as [|x l IH]; intros Hfg; [done|].
  rewrite !fmap_cons, !Zsum_cons.
  pose proof (Hfg x ltac:(apply elem_of_cons; by left)).
  assert (Zsum (f <$> l) <= Zsum (g <$> l)); [|lia].
  apply IH. intros y Hy. apply Hfg, elem_of_cons. by right.
Qed.

Lemma Zsum_fmap_sub {A : Type} (f g h : A -> Z) (l : list A) :
  (forall x, x ∈ l -> h x = f x - g x) ->
  Zsum (h <$> l) = Zsum (f <$> l) - Zsum (g <$> l).
Proof.
  induction l as [|x l IH]; intros Hfg; [done|].
  rewrite !fmap_cons, !Zsum_cons.
  rewrite (Hfg x) by (apply elem_of_cons; by left).
  rewrite IH; [lia|]. intros y Hy. apply Hfg, elem_of_cons. by right.
Qed.

Lemma roomBelowZero_delete adj j s :
  adj !! j = Some s ->
  roomBelowZero adj = belowZero (j, s) + roomBelowZero (delete j adj).
Proof.
  intros Hj. unfold roomBelowZero.
  rewrite <- (Zsum_perm _ _ (fmap_Permutation belowZero _ _
                              (map_to_list_delete adj j s Hj))).
  done.
Qed.

Lemma roomBelowZero_nonneg adj : 0 <= roomBelowZero adj.
Proof.
  unfold roomBelowZero. apply Zsum_nonneg_le, Forall_fmap, Forall_forall.
  intros entry _. cbn. unfold belowZero. lia.
Qed.

Lemma roomBelowZero_positive adj i s :
  adj !! i = Some s -> WidthMin s < 0 -> 1 <= roomBelowZero adj.
Proof.
  intros Hi Hneg. rewrite (roomBelowZero_delete adj i s Hi).
  pose proof (roomBelowZero_nonneg (delete i adj)).
  unfold belowZero. cbn [snd]. lia.
Qed.

Lemma positiveRoom_eq ws specs :
  positiveRoom ws specs =
  shrinkBound ws specs - roomBelowZero (adjustableSet ws specs).
Proof.
  unfold positiveRoom, shrinkBound, potentialOf, roomBelowZero.
  apply Zsum_fmap_sub. intros [i s] Hin%elem_of_map_to_list.
  apply adjustableSet_lookup in Hin as [_ Hadj].
  apply isAdjustable_true in Hadj as (_ & w & Hw & _).
  unfold positiveSlack, slack, belowZero. cbn [fst snd]. rewrite Hw. lia.
Qed.

Section LoopBelowZero.
Variable ws0 : list Z.
Variable adj0 : gmap Z ColumnSpec.
Hypothesis adj0_int : forall i s, adj0 !! i = Some s -> isInt (WidthMin s).
Hypothesis adj0_first : forall s, adj0 !! 0 = Some s -> 0 <= WidthMin s.
Variable rangeOrder : nat -> gmap Z ColumnSpec -> list (Z * ColumnSpec).
Hypothesis rangeOrder_perm : validOrder rangeOrder.
Variable availableWidth : Z.
Hypothesis availableWidth_int : isInt availableWidth.
Variables D R : Z.
Hypothesis budget : availableWidth < D + R.

Lemma belowInv_potential st :
  belowInv ws0 adj0 D R st -> R <= potential st /\ 1 <= R.
Proof.
  intros (Hinv & (i0 & s0 & Hi0 & Hneg) & Hpos & _ & <-). split.
  - rewrite potential_eq. unfold potentialOf, roomBelowZero.
    apply Zsum_fmap_le. intros [i s] Hin%elem_of_map_to_list.
    destruct (loopInv_adjustable _ _ _ _ _ Hinv Hin)
      as (_ & w & w0 & Hw & _ & Hlt & _).
    pose proof (Hpos i w Hw).
    unfold slack, belowZero. cbn [fst snd]. rewrite Hw. lia.
  - by apply (roomBelowZero_positive _ i0 s0).
Qed.

Lemma belowInv_guard st :
  belowInv ws0 adj0 D R st -> loopGuard availableWidth st = true.
Proof.
  intros Hbelow. destruct (belowInv_potential st Hbelow) as [Hpot HR].
  destruct Hbelow as (Hinv & (i0 & s0 & Hi0 & Hneg) & _ & HD & _).
  unfold loopGuard. apply andb_true_iff. split.
  - apply Z.ltb_lt. lia.
  - apply Z.ltb_lt.
    assert (size (adjustable st) <> 0%nat); [|lia].
    intros Hsize%map_size_empty_iff. by rewrite Hsize, lookup_empty in Hi0.
Qed.

(** An iteration either dereferences the missing entry of column 0 or
    shrinks a column of positive width, which stays adjustable when its
    minimum is negative. *)
Lemma shrinkStep_below k st :
  belowInv ws0 adj0 D R st ->
  shrinkStep (rangeOrder k (adjustable st)).*1 st = Panics \/
  exists st',
    shrinkStep (rangeOrder k (adjustable st)).*1 st = Returns st' /\
    belowInv ws0 adj0 D R st' /\ potential st' = potential st - 1.
Proof.
  intros Hbelow. pose proof (belowInv_guard st Hbelow) as Hguard.
  destruct Hbelow as (Hinv & (i0 & s0 & Hi0 & Hneg) & Hpos & HD & HR).
  set (keys := (rangeOrder k (adjustable st)).*1).
  assert (Hidx : forall i, i ∈ keys -> is_Some (index (widths st) i)).
  { intros i [s Hs]%(elem_of_keys rangeOrder rangeOrder_perm).
    destruct (loopInv_adjustable _ _ _ _ _ Hinv Hs) as (_ & w & w0 & Hw & _).
    by exists w. }
  destruct (findWidest_fold (widths st) keys 0 0 Hidx)
    as (j & wj & Hfind & [(-> & -> & Hall)|(Hwj & Hj & pre & post & Hkeys & _)]).
  - left. unfold shrinkStep, findWidest, mbind, result_bind.
    rewrite Hfind. cbn [fst].
    destruct (index (widths st) 0) as [w|] eqn:Hw0; [|done]. cbn [orPanic].
    rewrite (index_store_eq _ _ _ _ Hw0). cbn [orPanic].
    destruct (adjustable st !! 0) as [s|] eqn:Hs; [|done]. exfalso.
    destruct (loopInv_adjustable _ _ _ _ _ Hinv Hs)
      as (H0 & w' & w0' & Hw' & _ & Hlt & _).
    rewrite Hw0 in Hw'. injection Hw' as <-.
    assert (Hin : 0 ∈ keys).
    { apply (elem_of_keys rangeOrder rangeOrder_perm). by exists s. }
    pose proof (Hall 0 w Hin Hw0). pose proof (adj0_first s H0). lia.
  - right.
    assert (Hin : j ∈ keys).
    { rewrite Hkeys. apply elem_of_app. right. apply elem_of_cons. by left. }
    apply (elem_of_keys rangeOrder rangeOrder_perm) in Hin as [s Hs].
    destruct (loopInv_adjustable _ _ _ _ _ Hinv Hs)
      as (H0 & w' & w0' & Hw' & _ & Hlt & Hint).
    rewrite Hj in Hw'. injection Hw' as <-.
    assert (Hnowrap : wrap (wj - 1) = wj - 1).
    { apply wrap_id. unfold isInt, minInt, maxInt in *. lia. }
    set (st' := {| widths := store (widths st) j (wj - 1);
                   consumedWidth := wrap (consumedWidth st - 1);
                   adjustable := if wj - 1 <=? WidthMin s
                                 then delete j (adjustable st)
                                 else adjustable st |}).
    assert (Hstep : shrinkStep keys st = Returns st').
    { unfold shrinkStep, findWidest, mbind, result_bind.
      rewrite Hfind. cbn [fst]. rewrite Hj. cbn [orPanic].
      rewrite (index_store_eq _ _ _ _ Hj). cbn [orPanic].
      rewrite Hs. cbn [orPanic]. by rewrite Hnowrap. }
    exists st'. split; [done|].
    destruct (shrinkStep_inv ws0 adj0 adj0_int keys st st' Hinv Hstep)
      as [Hinv' Hpot'].
    split; [|done]. split_and!.
    + done.
    + exists i0, s0. split; [|done]. cbn [st' adjustable].
      destruct (Z.leb_spec (wj - 1) (WidthMin s)); [|done].
      rewrite lookup_delete_ne; [done|].
      intros ->. rewrite Hs in Hi0. injection Hi0 as ->. lia.
    + intros i w. cbn [st' widths]. destruct (decide (j = i)) as [<-|Hne].
      * rewrite (index_store_eq _ _ _ _ Hj). intros [= <-]. lia.
      * rewrite (index_store_ne _ _ _ _ _ Hj Hne). apply Hpos.
    + rewrite Hpot'. cbn [st' consumedWidth].
      assert (Hcons : isInt (consumedWidth st)).
      { destruct Hinv as (_ & _ & -> & _). apply consumed_isInt. }
      unfold loopGuard in Hguard. apply andb_true_iff in Hguard as [Hlt' _].
      apply Z.ltb_lt in Hlt'.
      rewrite wrap_id; [lia|]. unfold isInt, minInt, maxInt in *. lia.
    + cbn [st' adjustable].
      destruct (Z.leb_spec (wj - 1) (WidthMin s)); [|done].
      rewrite (roomBelowZero_delete _ j s Hs) in HR.
      unfold belowZero in HR. cbn [snd] in HR. lia.
Qed.

(** The loop ends in the panic. *)
Lemma shrinkLoop_below fuel : forall k st,
  belowInv ws0 adj0 D R st -> potential st <= Z.of_nat fuel ->
  fst (shrinkLoop rangeOrder availableWidth fuel k st) = Panics.
Proof.
  induction fuel as [|fuel IH]; intros k st Hbelow Hfuel.
  - destruct (belowInv_potential st Hbelow). lia.
  - cbn [shrinkLoop]. rewrite (belowInv_guard st Hbelow).
    destruct (shrinkStep_below k st Hbelow) as [->|(st' & -> & Hbelow' & Hpot)];
      [done|].
    specialize (IH (S k) st' Hbelow' ltac:(lia)).
    destruct (shrinkLoop rangeOrder availableWidth fuel (S k) st') as [r n].
    exact IH.
Qed.
End LoopBelowZero.

(** X23.  When some flexible spec has a negative minimum (the spec of
    [*] has -1) and the first column has no such spec (any flexible spec
    of column 0 has a minimum of 0 or more), [rebalanceWidths] panics
    whenever the widths, none of them negative, do not fit the budget even
    with every adjustable column at its minimum or at 0, whichever is
    larger: the loop then finds no adjustable column of positive width,
    takes column 0, and dereferences [adjustable[0]], which is nil (or
    it has indexed the widths out of range before). *)
Theorem rebalanceWidths_negative_minimum_panics rangeOrder availableWidth
    ws specs i s :
  validOrder rangeOrder -> wfWidths ws -> wfSpecs specs ->
  isInt availableWidth -> Forall (fun w => 0 <= w) ws ->
  specs !! i = Some s -> HasFlexibleWidth s = true -> WidthMin s < 0 ->
  (forall s0, specs !! 0 = Some s0 -> HasFlexibleWidth s0 = true ->
              0 <= WidthMin s0) ->
  availableWidth < consumed ws - positiveRoom ws specs ->
  rebalanceWidths rangeOrder availableWidth ws specs = Panics.
Proof.
  intros Hperm Hws Hspecs Htw Hpos Hi Hflex Hneg Hfirst Hbudget.
  unfold rebalanceWidths, mbind, result_bind.
  destruct (initialState rangeOrder ws specs) as [st0| |] eqn:Hinit; [|done|].
  2:{ by apply initialState_has_fuel in Hinit. }
  apply (initialState_Returns _ Hperm) in Hinit as [-> Hidx].
  set (st0 := {| widths := ws; consumedWidth := consumed ws;
                 adjustable := adjustableSet ws specs |}).
  assert (Hnonneg : forall j w, index ws j = Some w -> 0 <= w).
  { intros j w (_ & _ & Hw)%index_Some.
    by apply (Forall_lookup_1 _ _ _ _ Hpos Hw). }
  rewrite (shrinkLoop_below ws (adjustableSet ws specs)) with
    (D := consumed ws - shrinkBound ws specs)
    (R := roomBelowZero (adjustableSet ws specs)); try done.
  - intros j t [Ht _]%adjustableSet_lookup. by apply (Hspecs j t).
  - intros t [Ht Hadj]%adjustableSet_lookup.
    apply isAdjustable_true in Hadj as [Ht' _]. by apply Hfirst.
  - rewrite positiveRoom_eq in Hbudget. lia.
  - split_and!.
    + by apply initial_loopInv.
    + exists i, s. split; [|done]. apply adjustableSet_lookup. split; [done|].
      apply isAdjustable_true. split; [done|].
      destruct (Hidx i s Hi Hflex) as [w Hw]. exists w. split; [done|].
      pose proof (Hnonneg i w Hw). lia.
    + exact Hnonneg.
    + done.
    + done.
  - lia.
Qed.

Lemma rebalanceWidths_negative_minimum_panics_witness :
  rebalanceWidths keyOrder 0 [1; 1] {[ 1 := widthSpec (-1) (-1) ]} = Panics.
Proof.
  apply (rebalanceWidths_negative_minimum_panics keyOrder 0 [1; 1]
           {[ 1 := widthSpec (-1) (-1) ]} 1 (widthSpec (-1) (-1))).
  - exact keyOrder_valid.
  - int_widths.
  - apply wfSpecs_singleton. int_range.
  - int_range.
  - repeat constructor; lia.
  - reflexivity.
  - reflexivity.
  - simpl. lia.
  - intros s0 Hs0. by rewrite lookup_singleton_ne in Hs0.
  - vm_compute. reflexivity.
Defined.

(** The condition on the first column is needed.  With the spec of [*] on
    columns 0 and 1 (the specification [1 2 *]), widths [1; 1] and a budget
    of 1, column 0 is itself adjustable when the loop falls back on it: it
    is taken below zero and leaves the set, and the call returns a negative
    width. *)
Example rebalanceWidths_first_column_below_zero :
  rebalanceWidths keyOrder 1 [1; 1]
    {[ 0 := widthSpec (-1) (-1); 1 := widthSpec (-1) (-1) ]} = Returns [-1; 0].
Proof. vm_compute. reflexivity. Qed.

(** ** Suffixes *)

Lemma substring_all (t : string) : substring 0 (String.length t) t = t.
Proof. induction t as [|c t IH]; simpl; [done | by rewrite IH]. Qed.

Lemma substring_append_r (s t : string) :
  substring (String.length s) (String.length t) (String.append s t) = t.
Proof. induction s as [|c s IH]; simpl; [apply substring_all | done]. Qed.

Lemma substring_split (s : string) : forall n,
  (n <= String.length s)%nat ->
  s = String.append (substring 0 n s) (substring n (String.length s - n) s).
Proof.
  induction s as [|c s IH]; intros n Hn; simpl in *.
  - by assert (n = O) as -> by lia.
  - destruct n as [|n]; simpl.
    + change (String c s = String c (substring 0 (String.length s) s)).
      by rewrite substring_all.
    + change (String c s = String c (String.append (substring 0 n s)
                                       (substring n (String.length s - n) s))).
      f_equal. apply IH. lia.
Qed.

Lemma slice_suffix (pre suf : string) :
  slice (String.append pre suf) (len (String.append pre suf) - len suf)
        (len (String.append pre suf)) = Some suf.
Proof.
  unfold slice, len. rewrite length_append.
  destruct (Z.leb_spec 0 (Z.of_nat (String.length pre + String.length suf)
                          - Z.of_nat (String.length suf))); [|lia].
  destruct (Z.leb_spec (Z.of_nat (String.length pre + String.length suf)
                        - Z.of_nat (String.length suf))
              (Z.of_nat (String.length pre + String.length suf))); [|lia].
  destruct (Z.leb_spec (Z.of_nat (String.length pre + String.length suf))
              (Z.of_nat (String.length pre + String.length suf))); [|lia].
  cbn [andb]. f_equal.
  replace (Z.to_nat (Z.of_nat (String.length pre + String.length suf)
                     - Z.of_nat (String.length suf)))
    with (String.length pre) by lia.
  replace (Z.to_nat (Z.of_nat (String.length pre + String.length suf)
                     - (Z.of_nat (String.length pre + String.length suf)
                        - Z.of_nat (String.length suf))))
    with (String.length suf) by lia.
  apply substring_append_r.
Qed.

(** [HasSuffix] holds exactly of the strings that end in the suffix. *)
Lemma HasSuffix_true (s suf : string) :
  HasSuffix s suf = true <-> exists pre, s = String.append pre suf.
Proof.
  split.
  - unfold HasSuffix. intros [Hlen Htail]%andb_true_iff.
    apply Z.leb_le in Hlen. unfold slice in Htail.
    destruct ((0 <=? len s - len suf) && (len s - len suf <=? len s)
              && (len s <=? len s)); [|done].
    apply String.eqb_eq in Htail.
    exists (substring 0 (Z.to_nat (len s - len suf)) s).
    pose proof (substring_split s (Z.to_nat (len s - len suf))
                  ltac:(unfold len in *; lia)) as Hsplit.
    replace (String.length s - Z.to_nat (len s - len suf))%nat
      with (Z.to_nat (len s - (len s - len suf))) in Hsplit
      by (unfold len in *; lia).
    by rewrite Htail in Hsplit.
  - intros [pre ->]. unfold HasSuffix. rewrite slice_suffix.
    apply andb_true_iff. split.
    + apply Z.leb_le. unfold len. rewrite length_append. lia.
    + apply String.eqb_refl.
Qed.

Lemma TrimSuffix_append (pre suf : string) :
  TrimSuffix (String.append pre suf) suf = pre.
Proof.
  unfold TrimSuffix.
  rewrite (proj2 (HasSuffix_true _ suf)) by (by exists pre).
  unfold slice, len. rewrite length_append.
  destruct (Z.leb_spec 0 0); [|lia].
  destruct (Z.leb_spec 0 (Z.of_nat (String.length pre + String.length suf)
                          - Z.of_nat (String.length suf))); [|lia].
  destruct (Z.leb_spec (Z.of_nat (String.length pre + String.length suf)
                        - Z.of_nat (String.length suf))
              (Z.of_nat (String.length pre + String.length suf))); [|lia].
  cbn [andb default]. rewrite Z.sub_0_r.
  replace (Z.to_nat (Z.of_nat (String.length pre + String.length suf)
                     - Z.of_nat (String.length suf)))
    with (String.length pre) by lia.
  apply substring_append_l.
Qed.

(** ** parseColumnWidth *)

Lemma Atoi_isInt s n : Atoi s = Some n -> isInt n.
Proof.
  unfold Atoi.
  destruct (match s with
            | String "+" rest => unsignedOf rest
            | String "-" rest => Z.opp <$> unsignedOf rest
            | _ => unsignedOf s
            end) as [m|]; [|done].
  destruct ((minInt <=? m) && (m <=? maxInt)) eqn:Hrange; [|done].
  intros [= <-]. apply andb_true_iff in Hrange as [?%Z.leb_le ?%Z.leb_le].
  by split.
Qed.

Lemma parseColumnWidth_cases (word : string) (w : Z) :
  parseColumnWidth word = Some w <->
  (exists digits, word = String.append digits "c" /\ Atoi digits = Some w) \/
  (word = "*" /\ w = -1).
Proof.
  unfold parseColumnWidth. split.
  - destruct (HasSuffix word "c") eqn:Hc.
    + apply HasSuffix_true in Hc as [digits ->].
      rewrite TrimSuffix_append.
      destruct (Atoi digits) as [n|] eqn:Hn.
      * intros [= <-]. left. by exists digits.
      * destruct (String.eqb_spec (String.append digits "c") "*") as [Heq|]; [|done].
        intros [= <-]. by right.
    + destruct (String.eqb_spec word "*") as [->|]; [|done].
      intros [= <-]. by right.
  - intros [(digits & -> & Hn)|[-> ->]]; [|reflexivity].
    rewrite (proj2 (HasSuffix_true _ "c")) by (by exists digits).
    by rewrite TrimSuffix_append, Hn.
Qed.

(** X7.  [parseColumnWidth] accepts exactly the words made of an integer
    that [strconv.Atoi] reads followed by [c], for which it returns that
    integer (negative ones included), and the word [*], for which it
    returns -1. *)
Theorem parseColumnWidth_accepts (word : string) (w : Z) :
  parseColumnWidth word = Some w <->
  (exists digits, word = String.append digits "c" /\ Atoi digits = Some w) \/
  (word = "*" /\ w = -1).
Proof. apply parseColumnWidth_cases. Qed.

Lemma parseColumnWidth_isInt word w :
  parseColumnWidth word = Some w -> isInt w.
Proof.
  intros [(digits & _ & Hn)|[_ ->]]%parseColumnWidth_cases.
  - by apply (Atoi_isInt digits).
  - int_range.
Qed.

Lemma parseRange_isInt word lower upper :
  parseRange word = Some (lower, upper) -> isInt lower /\ isInt upper.
Proof.
  unfold parseRange.
  destruct (Split word "-") as [|b0 [|b1 [|b2 rest]]]; try done.
  destruct (parseColumnWidth b0) as [l|] eqn:Hl; [|done].
  destruct (parseColumnWidth b1) as [u|] eqn:Hu; [|done].
  intros [= <- <-]. split; by eapply parseColumnWidth_isInt.
Qed.

(** ** The states of the parser *)

(** The body of the loop, by the kind of the word. *)
Lemma parseWord_cases p word0 :
  let p1 := if needNewSpec p then newSpec p else p in
  let p2 := if HasSuffix word0 ";" then setNeedNewSpec p1 else p1 in
  let word := TrimSuffix word0 ";" in
  parseWord p word0 =
  match Atoi word with
  | Some n =>
      if n <? 1 then Error (InvalidColumnNumber n) else Value (assignColumn n p2)
  | None =>
      match parseColumnWidth word with
      | Some width => Value (updateSpec (setWidths width width) p2)
      | None =>
          match parseRange word with
          | Some (lower, upper) => Value (updateSpec (setWidths lower upper) p2)
          | None => parseKeyword word p2
          end
      end
  end.
Proof.
  unfold parseWord, TrimSuffix. by destruct (HasSuffix word0 ";").
Qed.

Lemma newSpec_inv p : parserInv p -> parserInv (newSpec p).
Proof.
  intros (Hp & Hheap & Hkeys). split_and!.
  - apply newSpec_wf.
  - cbn. apply Forall_app. split; [done|]. repeat constructor; int_range.
  - intros c a Hc. cbn in *. destruct (Hkeys c a Hc) as [? ?].
    split; [done|]. rewrite length_app. simpl. lia.
Qed.

Lemma setNeedNewSpec_inv p : parserInv p -> parserInv (setNeedNewSpec p).
Proof. done. Qed.

Lemma updateSpec_inv f p :
  (forall s, intSpec s -> intSpec (f s)) ->
  parserInv p -> parserInv (updateSpec f p).
Proof.
  intros Hf (Hp & Hheap & Hkeys). split_and!.
  - by apply updateSpec_wf.
  - cbn. apply Forall_alter; [done|]. intros s _. apply Hf.
  - intros c a Hc. cbn in *. rewrite length_alter. by apply Hkeys.
Qed.

Lemma assignColumn_inv n p :
  1 <= n -> isInt n -> parserInv p -> parserInv (assignColumn n p).
Proof.
  intros Hn Hint (Hp & Hheap & Hkeys). split_and!; [done | done |].
  intros c a. cbn.
  rewrite wrap_id by (unfold isInt, minInt, maxInt in *; lia).
  intros [[<- <-]|[_ Hc]]%lookup_insert_Some.
  - split; [unfold isInt, maxInt in *; lia | exact Hp].
  - by apply Hkeys.
Qed.

Lemma parseKeyword_inv word p p' :
  parserInv p -> parseKeyword word p = Value p' -> parserInv p'.
Proof.
  intros Hp. unfold parseKeyword.
  destruct (String.eqb word ";"); [by intros [= <-]|].
  destruct (String.eqb word "age"); [|done].
  intros [= <-]. by apply updateSpec_inv.
Qed.

Lemma parseWord_inv p word p' :
  parserInv p -> parseWord p word = Value p' -> parserInv p'.
Proof.
  intros Hp. rewrite parseWord_cases.
  set (p1 := if needNewSpec p then newSpec p else p).
  set (p2 := if HasSuffix word ";" then setNeedNewSpec p1 else p1).
  assert (Hp2 : parserInv p2).
  { unfold p2, p1.
    destruct (HasSuffix word ";"), (needNewSpec p);
      auto using newSpec_inv, setNeedNewSpec_inv. }
  clearbody p2. clear p1.
  destruct (Atoi (TrimSuffix word ";")) as [n|] eqn:Hn.
  { destruct (Z.ltb_spec n 1); [done|]. intros [= <-].
    apply assignColumn_inv; [lia | by apply (Atoi_isInt _ _ Hn) | done]. }
  destruct (parseColumnWidth (TrimSuffix word ";")) as [width|] eqn:Hw.
  { intros [= <-]. apply updateSpec_inv; [|done].
    intros s _. split; by apply (parseColumnWidth_isInt _ _ Hw). }
  destruct (parseRange (TrimSuffix word ";")) as [[lower upper]|] eqn:Hr.
  { intros [= <-]. apply updateSpec_inv; [|done].
    intros s _. by apply (parseRange_isInt _ _ _ Hr). }
  by apply parseKeyword_inv.
Qed.

Lemma parseWords_inv words : forall p p',
  parserInv p -> parseWords p words = Value p' -> parserInv p'.
Proof.
  induction words as [|word words IH]; intros p p' Hp; cbn [parseWords].
  - by intros [= <-].
  - destruct (parseWord p word) as [p1|e] eqn:Hword; [|done].
    apply IH. by apply (parseWord_inv p word).
Qed.

Lemma parserStart_inv : parserInv parserStart.
Proof.
  split_and!.
  - apply parserStart_wf.
  - repeat constructor; int_range.
  - intros c a Hc. cbn in Hc. by rewrite lookup_empty in Hc.
Qed.

Lemma specsOf_lookup p c s :
  specsOf p !! c = Some s <->
  exists a, specs p !! c = Some a /\ heap p !! a = Some s.
Proof.
  unfold specsOf. rewrite lookup_omap.
  destruct (specs p !! c) as [a|]; simpl.
  - split; [by exists a | by intros (a' & [= <-] & ?)].
  - split; [done | by intros (a' & ? & _)].
Qed.

(** A scan that ends without error has yielded all the words. *)
Lemma scanWordsWithin_words s : forall skip inSpace cur words,
  scanWordsWithin s skip inSpace cur = (words, false) ->
  words = scanWordsFrom s skip inSpace cur.
Proof.
  induction s as [|c s IH]; intros skip inSpace cur words.
  - cbn [scanWordsWithin scanWordsFrom].
    destruct (maxScanTokenSize <=? len cur); [done | by intros [= <-]].
  - cbn [scanWordsWithin scanWordsFrom]. destruct skip as [|k].
    + destruct (DecodeRuneInString (String c s)) as [r size].
      destruct (isSpace r); [|apply IH].
      destruct (maxScanTokenSize <? len cur + Z.of_nat size); [done|].
      destruct (scanWordsWithin s (Nat.pred size) true EmptyString)
        as [words' tooLong] eqn:Hrest.
      intros [= <- ->]. by rewrite (IH _ _ _ _ Hrest).
    + destruct inSpace; apply IH.
Qed.

(** A run of ASCII bytes without space is one word, which the scanner
    yields when it is shorter than its buffer. *)
Lemma scanWordsWithin_plain word : forall cur,
  plainWord word = true ->
  scanWordsWithin word 0 false cur =
  if maxScanTokenSize <=? len (String.append cur word) then ([], true)
  else (flushWord (String.append cur word), false).
Proof.
  induction word as [|c word IH]; intros cur Hword.
  - rewrite append_empty_r. reflexivity.
  - cbn [plainWord] in Hword.
    apply andb_true_iff in Hword as [[Hascii Hspace]%andb_true_iff Hword].
    cbn [scanWordsWithin DecodeRuneInString]. rewrite Hascii.
    apply negb_true_iff in Hspace. rewrite Hspace. cbn [Nat.pred].
    rewrite IH by done. by rewrite append_assoc.
Qed.

(** The error of the scanner: a specification that is one word of 65536
    bytes or more is refused with [bufio.ErrTooLong], whatever the word
    would mean. *)
Lemma ParseColumnSpecs_word_too_long (word : string) :
  plainWord word = true -> maxScanTokenSize <= len word ->
  ParseColumnSpecs word = Error WordTooLong.
Proof.
  intros Hword Hlong. unfold ParseColumnSpecs.
  rewrite scanWordsWithin_plain by done.
  change (String.append EmptyString word) with word.
  by destruct (Z.leb_spec maxScanTokenSize (len word)); [|lia].
Qed.

(** A specification that parses has had all its words parsed. *)
Lemma ParseColumnSpecs_Value text specs :
  ParseColumnSpecs text = Value specs ->
  exists p, parseWords parserStart (ScanWords text) = Value p /\
            specs = specsOf p.
Proof.
  unfold ParseColumnSpecs, ScanWords.
  destruct (scanWordsWithin text 0 false EmptyString) as [words tooLong] eqn:Hscan.
  destruct (parseWords parserStart words) as [p|e] eqn:Hp; [|done].
  destruct tooLong; [done|]. intros [= <-].
  apply scanWordsWithin_words in Hscan as <-. by exists p.
Qed.

Lemma ParseColumnSpecs_ints text specs c s :
  ParseColumnSpecs text = Value specs -> specs !! c = Some s ->
  0 <= c < maxInt /\ isInt (WidthMin s) /\ isInt (WidthMax s).
Proof.
  intros (p & Hp & ->)%ParseColumnSpecs_Value (a & Ha & Hs)%specsOf_lookup.
  destruct (parseWords_inv _ _ _ parserStart_inv Hp) as (_ & Hheap & Hkeys).
  destruct (Hkeys c a Ha) as [Hc _].
  destruct (Forall_lookup_1 _ _ _ _ Hheap Hs) as [Hmin Hmax].
  split; [exact Hc|]. by split.
Qed.

(** X8.  The map [ParseColumnSpecs] returns has only keys that are
    column indices, from 0 up and within the range of [int], and only
    bounds that are values of [int]. *)
Theorem ParseColumnSpecs_well_formed text specs c s :
  ParseColumnSpecs text = Value specs -> specs !! c = Some s ->
  0 <= c < maxInt /\ isInt (WidthMin s) /\ isInt (WidthMax s).
Proof. apply ParseColumnSpecs_ints. Qed.

Lemma ParseColumnSpecs_well_formed_witness :
  0 <= 1 < maxInt /\ isInt (WidthMin (widthSpec 3 (-1))) /\
  isInt (WidthMax (widthSpec 3 (-1))).
Proof.
  apply (ParseColumnSpecs_well_formed "2 3c-*" {[ 1 := widthSpec 3 (-1) ]} 1
           (widthSpec 3 (-1))).
  - vm_compute. reflexivity.
  - reflexivity.
Defined.

Lemma ParseColumnSpecs_wfSpecs text specs :
  ParseColumnSpecs text = Value specs -> wfSpecs specs.
Proof.
  intros Hparse c s Hs.
  destruct (ParseColumnSpecs_ints text specs c s Hparse Hs) as (_ & Hmin & _).
  exact Hmin.
Qed.

(** ** Words the parser rejects *)

Lemma parseWord_semicolon p :
  parseWord p ";" = Error (UnexpectedToken EmptyString).
Proof. rewrite parseWord_cases. reflexivity. Qed.

Lemma parseWord_bad_number p word n :
  wordNumber word = Some n -> n < 1 ->
  parseWord p word = Error (InvalidColumnNumber n).
Proof.
  unfold wordNumber. intros Hn Hlt. rewrite parseWord_cases. cbn zeta.
  rewrite Hn. by destruct (Z.ltb_spec n 1); [|lia].
Qed.

Lemma parseWords_rejects words word :
  (forall p, exists e, parseWord p word = Error e) -> word ∈ words ->
  forall p, exists e, parseWords p words = Error e.
Proof.
  intros Hbad. induction words as [|w words IH]; intros Hin p.
  - by apply elem_of_nil in Hin.
  - cbn [parseWords]. destruct (parseWord p w) as [p1|e] eqn:Hw; [|by exists e].
    apply elem_of_cons in Hin as [->|Hin]; [|by apply IH].
    destruct (Hbad p) as [e He]. congruence.
Qed.

(** X9.  A specification is refused as a whole as soon as one of its
    words is a [;] standing alone, or an integer below 1 (with or without a
    closing [;]): no later word makes up for it. *)
Theorem ParseColumnSpecs_rejects text word :
  word ∈ ScanWords text ->
  word = ";" \/ (exists n, wordNumber word = Some n /\ n < 1) ->
  exists e, ParseColumnSpecs text = Error e.
Proof.
  intros Hin Hbad. unfold ParseColumnSpecs.
  destruct (scanWordsWithin text 0 false EmptyString) as [words tooLong] eqn:Hscan.
  destruct tooLong.
  { destruct (parseWords parserStart words) as [p|e]; by eexists. }
  apply scanWordsWithin_words in Hscan as ->. fold (ScanWords text).
  destruct (parseWords_rejects (ScanWords text) word) with (p := parserStart)
    as [e ->]; [|done|by exists e].
  intros p. destruct Hbad as [->|(n & Hn & Hlt)].
  - eexists. apply parseWord_semicolon.
  - eexists. by apply parseWord_bad_number.
Qed.

Lemma ParseColumnSpecs_rejects_witness :
  exists e, ParseColumnSpecs "1 7c ; 2 age" = Error e.
Proof.
  apply (ParseColumnSpecs_rejects "1 7c ; 2 age" ";").
  - vm_compute. apply elem_of_cons. right. apply elem_of_cons. right.
    apply elem_of_cons. left. reflexivity.
  - left. reflexivity.
Defined.

(** ** Groups closed by a semicolon *)

Lemma parseWord_sealed a0 heap0 p word p' :
  parserInv p -> sealedFrom a0 heap0 p -> parseWord p word = Value p' ->
  sealedFrom a0 heap0 p' /\
  forall c, specs p' !! c = specs p !! c \/
            (exists a, specs p' !! c = Some a /\ (a0 <= a)%nat /\
                       namedIn c [word]).
Proof.
  intros Hinv (Hlen & Hcur & Hheap). rewrite parseWord_cases.
  set (p1 := if needNewSpec p then newSpec p else p).
  set (p2 := if HasSuffix word ";" then setNeedNewSpec p1 else p1).
  assert (Hp2 : (a0 <= length (heap p2))%nat /\ (a0 <= spec p2)%nat /\
                (forall a, (a < a0)%nat -> heap p2 !! a = heap0 !! a) /\
                specs p2 = specs p).
  { assert (Hp1 : (a0 <= length (heap p1))%nat /\ (a0 <= spec p1)%nat /\
                  (forall a, (a < a0)%nat -> heap p1 !! a = heap0 !! a) /\
                  specs p1 = specs p).
    { unfold p1. destruct (needNewSpec p) eqn:Hneed.
      - cbn. rewrite length_app. split_and!; [lia | lia | | done].
        intros a Ha. rewrite lookup_app_l by lia. by apply Hheap.
      - destruct Hcur as [|Hcur]; [done|]. by split_and!. }
    unfold p2. by destruct (HasSuffix word ";"). }
  clearbody p2. clear p1. destruct Hp2 as (Hlen2 & Hcur2 & Hheap2 & Hspecs2).
  assert (Hupdate : forall f,
    sealedFrom a0 heap0 (updateSpec f p2) /\
    forall c, specs (updateSpec f p2) !! c = specs p !! c \/
              (exists a, specs (updateSpec f p2) !! c = Some a /\ (a0 <= a)%nat /\
                         namedIn c [word])).
  { intros f. split.
    - split_and!; cbn.
      + by rewrite length_alter.
      + by right.
      + intros a Ha. rewrite list_lookup_alter_ne by lia. by apply Hheap2.
    - intros c. left. cbn. by rewrite Hspecs2. }
  destruct (Atoi (TrimSuffix word ";")) as [n|] eqn:Hn.
  { destruct (Z.ltb_spec n 1); [done|]. intros [= <-]. split.
    - split_and!; cbn; [done | by right | done].
    - intros c. cbn. pose proof (Atoi_isInt _ _ Hn) as Hint.
      rewrite wrap_id by (unfold isInt, minInt, maxInt in *; lia).
      destruct (decide (c = n - 1)) as [->|Hne].
      + right. exists (spec p2). rewrite lookup_insert_eq.
        split_and!; [done | done |].
        exists word, n. split_and!; [apply elem_of_cons; by left | done | lia | done].
      + left. by rewrite lookup_insert_ne, Hspecs2. }
  destruct (parseColumnWidth (TrimSuffix word ";")) as [width|].
  { intros [= <-]. apply Hupdate. }
  destruct (parseRange (TrimSuffix word ";")) as [[lower upper]|].
  { intros [= <-]. apply Hupdate. }
  unfold parseKeyword.
  destruct (String.eqb (TrimSuffix word ";") ";").
  { intros [= <-]. split.
    - split_and!; cbn; [done | by left | done].
    - intros c. left. cbn. by rewrite Hspecs2. }
  destruct (String.eqb (TrimSuffix word ";") "age"); [|done].
  intros [= <-]. apply Hupdate.
Qed.

Lemma namedIn_cons_l c word words : namedIn c [word] -> namedIn c (word :: words).
Proof.
  intros (w & n & Hin & Hn). exists w, n. split; [|done].
  apply elem_of_cons. left. apply elem_of_cons in Hin as [->|Hin]; [done|].
  by apply elem_of_nil in Hin.
Qed.

Lemma namedIn_cons_r c word words : namedIn c words -> namedIn c (word :: words).
Proof.
  intros (w & n & Hin & Hn). exists w, n. split; [|done].
  apply elem_of_cons. by right.
Qed.

Lemma parseWords_sealed_from a0 heap0 words : forall p p',
  parserInv p -> sealedFrom a0 heap0 p -> parseWords p words = Value p' ->
  sealedFrom a0 heap0 p' /\
  forall c, specs p' !! c = specs p !! c \/
            (exists a, specs p' !! c = Some a /\ (a0 <= a)%nat /\
                       namedIn c words).
Proof.
  induction words as [|word words IH]; intros p p' Hinv Hsealed;
    cbn [parseWords].
  - intros [= <-]. split; [done|]. intros c. by left.
  - destruct (parseWord p word) as [p1|e] eqn:Hword; [|done]. intros Hrest.
    destruct (parseWord_sealed a0 heap0 p word p1 Hinv Hsealed Hword)
      as [Hsealed1 Hstep].
    destruct (IH p1 p' (parseWord_inv _ _ _ Hinv Hword) Hsealed1 Hrest)
      as [Hsealed' Hsteps].
    split; [done|]. intros c.
    destruct (Hsteps c) as [Heq|(a & Ha & Hge & Hnamed)].
    + destruct (Hstep c) as [Heq1|(a & Ha & Hge & Hnamed)].
      * left. congruence.
      * right. exists a. split_and!; [congruence | done |].
        by apply namedIn_cons_l.
    + right. exists a. split_and!; [done | done |]. by apply namedIn_cons_r.
Qed.

Lemma parseWords_app words1 : forall words2 p,
  parseWords p (words1 ++ words2)%list =
  match parseWords p words1 with
  | Value p1 => parseWords p1 words2
  | Error e => Error e
  end.
Proof.
  induction words1 as [|word words1 IH]; intros words2 p; [done|].
  cbn [parseWords app]. destruct (parseWord p word); [apply IH | done].
Qed.

Lemma parseWord_closes p word p' :
  HasSuffix word ";" = true -> parseWord p word = Value p' ->
  needNewSpec p' = true.
Proof.
  intros Hsuffix. rewrite parseWord_cases. rewrite Hsuffix. cbn zeta.
  set (p2 := setNeedNewSpec _).
  destruct (Atoi (TrimSuffix word ";")) as [n|].
  { destruct (n <? 1); [done | by intros [= <-]]. }
  destruct (parseColumnWidth (TrimSuffix word ";")); [by intros [= <-]|].
  destruct (parseRange (TrimSuffix word ";")) as [[lower upper]|];
    [by intros [= <-]|].
  unfold parseKeyword.
  destruct (String.eqb (TrimSuffix word ";") ";"); [by intros [= <-]|].
  destruct (String.eqb (TrimSuffix word ";") "age"); [by intros [= <-] | done].
Qed.

(** X10.  A group closed by [;] is sealed: whatever words follow a word
    that ends in [;], a column named before keeps the spec it had when
    the group was closed, unless one of the later words names it again. *)
Theorem parseWords_sealed before word after p p' c s :
  parseWords parserStart (before ++ [word])%list = Value p ->
  HasSuffix word ";" = true ->
  parseWords p after = Value p' ->
  specsOf p !! c = Some s ->
  specsOf p' !! c = Some s \/ namedIn c after.
Proof.
  intros Hbefore Hsuffix Hafter (a & Ha & Hs)%specsOf_lookup.
  pose proof (parseWords_inv _ _ _ parserStart_inv Hbefore) as Hinv.
  assert (Hneed : needNewSpec p = true).
  { rewrite parseWords_app in Hbefore.
    destruct (parseWords parserStart before) as [p0|]; [|done].
    cbn [parseWords] in Hbefore.
    destruct (parseWord p0 word) as [p1|] eqn:Hword; [|done].
    injection Hbefore as <-. by apply (parseWord_closes p0 word). }
  destruct (parseWords_sealed_from (length (heap p)) (heap p) after p p' Hinv)
    as [(_ & _ & Hheap) Hsteps]; [|done|].
  { split_and!; [done | by left | done]. }
  destruct (Hsteps c) as [Heq|(a' & _ & _ & Hnamed)]; [|by right].
  left. apply specsOf_lookup. exists a. split; [congruence|].
  rewrite Hheap; [done|]. by apply lookup_lt_Some in Hs.
Qed.

Lemma parseWords_sealed_witness :
  specsOf (updateSpec (setWidths 9 9)
             (newSpec (setNeedNewSpec
                (updateSpec (setWidths 7 7) (assignColumn 1 parserStart)))))
    !! 0 = Some (widthSpec 7 7) \/
  namedIn 0 ["9c"].
Proof.
  apply (parseWords_sealed ["1"] "7c;" ["9c"]
           (setNeedNewSpec (updateSpec (setWidths 7 7) (assignColumn 1 parserStart)))
           (updateSpec (setWidths 9 9)
              (newSpec (setNeedNewSpec
                 (updateSpec (setWidths 7 7) (assignColumn 1 parserStart)))))
           0 (widthSpec 7 7)).
  - vm_compute. reflexivity.
  - vm_compute. reflexivity.
  - vm_compute. reflexivity.
  - vm_compute. reflexivity.
Defined.

(** ** Columns named in one group *)

Lemma TrimSuffix_none word suffix :
  HasSuffix word suffix = false -> TrimSuffix word suffix = word.
Proof. intros H. unfold TrimSuffix. by rewrite H. Qed.

(** A word without a closing [;] leaves the pointer [spec] where the
    group put it, and the columns that point there keep doing so. *)
Lemma parseWord_same_group p word p' :
  needNewSpec p = false -> HasSuffix word ";" = false ->
  parseWord p word = Value p' ->
  needNewSpec p' = false /\ spec p' = spec p /\
  (forall c, specs p !! c = Some (spec p) -> specs p' !! c = Some (spec p)) /\
  (forall n, wordNumber word = Some n -> specs p' !! (n - 1) = Some (spec p)).
Proof.
  intros Hneed Hsuffix. rewrite parseWord_cases. rewrite Hneed, Hsuffix.
  cbn zeta. unfold wordNumber.
  destruct (Atoi (TrimSuffix word ";")) as [n|] eqn:Hn.
  { destruct (Z.ltb_spec n 1); [done|]. intros [= <-]. cbn.
    pose proof (Atoi_isInt _ _ Hn) as Hint.
    rewrite wrap_id by (unfold isInt, minInt, maxInt in *; lia).
    split_and!; try done.
    - intros c Hc. destruct (decide (c = n - 1)) as [->|Hne].
      + apply lookup_insert_eq.
      + by rewrite lookup_insert_ne.
    - intros n' [= <-]. apply lookup_insert_eq. }
  destruct (parseColumnWidth (TrimSuffix word ";")).
  { intros [= <-]. by split_and!. }
  destruct (parseRange (TrimSuffix word ";")) as [[lower upper]|].
  { intros [= <-]. by split_and!. }
  unfold parseKeyword. rewrite (TrimSuffix_none _ _ Hsuffix).
  destruct (String.eqb_spec word ";") as [->|]; [done|].
  destruct (String.eqb word "age"); [|done].
  intros [= <-]. by split_and!.
Qed.

Lemma parseWords_same_group words : forall p p',
  needNewSpec p = false ->
  Forall (fun word => HasSuffix word ";" = false) words ->
  parseWords p words = Value p' ->
  needNewSpec p' = false /\ spec p' = spec p /\
  (forall c, specs p !! c = Some (spec p) -> specs p' !! c = Some (spec p)).
Proof.
  induction words as [|word words IH]; intros p p' Hneed Hall;
    cbn [parseWords].
  - intros [= <-]. by split_and!.
  - apply Forall_cons in Hall as [Hword Hall].
    destruct (parseWord p word) as [p1|] eqn:Hstep; [|done]. intros Hrest.
    destruct (parseWord_same_group p word p1 Hneed Hword Hstep)
      as (Hneed1 & Hspec1 & Hkeep1 & _).
    destruct (IH p1 p' Hneed1 Hall Hrest) as (Hneed' & Hspec' & Hkeep').
    rewrite Hspec1 in Hspec', Hkeep'. split_and!; [done | done |].
    intros c Hc. by apply Hkeep', Hkeep1.
Qed.

(** X11.  Columns named in one group share one spec: if no word from the
    first of the two names up to the second closes the group, the two
    columns end with the same spec, whatever follows, unless one of them
    is named again later. *)
Theorem parseWords_shared p0 word1 middle word2 after p' n1 n2 :
  parseWords p0 (word1 :: middle ++ word2 :: after)%list = Value p' ->
  wordNumber word1 = Some n1 -> wordNumber word2 = Some n2 ->
  Forall (fun word => HasSuffix word ";" = false) (word1 :: middle) ->
  parserInv p0 ->
  ~ namedIn (n1 - 1) after -> ~ namedIn (n2 - 1) after ->
  specsOf p' !! (n1 - 1) = specsOf p' !! (n2 - 1) /\
  is_Some (specsOf p' !! (n1 - 1)).
Proof.
  intros Hrun Hn1 Hn2 Hall Hinv Hafter1 Hafter2.
  apply Forall_cons in Hall as [Hword1 Hmiddle].
  cbn [parseWords] in Hrun.
  destruct (parseWord p0 word1) as [p1|] eqn:Hstep1; [|done].
  rewrite parseWords_app in Hrun.
  destruct (parseWords p1 middle) as [p2|] eqn:Hsteps; [|done].
  cbn [parseWords] in Hrun.
  destruct (parseWord p2 word2) as [p3|] eqn:Hstep2; [|done].
  pose proof (parseWord_inv _ _ _ Hinv Hstep1) as Hinv1.
  pose proof (parseWords_inv _ _ _ Hinv1 Hsteps) as Hinv2.
  pose proof (parseWord_inv _ _ _ Hinv2 Hstep2) as Hinv3.
  (* after the first name: the column points to the current spec *)
  assert (H1 : needNewSpec p1 = false /\ specs p1 !! (n1 - 1) = Some (spec p1)).
  { revert Hstep1. rewrite parseWord_cases. rewrite Hword1. cbn zeta.
    unfold wordNumber in Hn1. rewrite Hn1.
    destruct (Z.ltb_spec n1 1); [done|]. intros [= <-]. cbn.
    pose proof (Atoi_isInt _ _ Hn1) as Hint.
    rewrite wrap_id by (unfold isInt, minInt, maxInt in *; lia).
    split; [|apply lookup_insert_eq].
    destruct (needNewSpec p0) eqn:Hneed0; [done | exact Hneed0]. }
  destruct H1 as [Hneed1 Hc1].
  destruct (parseWords_same_group middle p1 p2 Hneed1 Hmiddle Hsteps)
    as (Hneed2 & Hspec2 & Hkeep2).
  assert (Hc1' : specs p2 !! (n1 - 1) = Some (spec p2)).
  { rewrite Hspec2. by apply Hkeep2. }
  (* the second name, which may close the group *)
  assert (H3 : specs p3 !! (n1 - 1) = Some (spec p2) /\
               specs p3 !! (n2 - 1) = Some (spec p2)).
  { revert Hstep2. rewrite parseWord_cases. rewrite Hneed2. cbn zeta.
    unfold wordNumber in Hn2. rewrite Hn2.
    destruct (Z.ltb_spec n2 1); [done|]. intros [= <-].
    pose proof (Atoi_isInt _ _ Hn2) as Hint.
    assert (Hsame : forall q, spec q = spec p2 -> specs q = specs p2 ->
              specs (assignColumn n2 q) !! (n1 - 1) = Some (spec p2) /\
              specs (assignColumn n2 q) !! (n2 - 1) = Some (spec p2)).
    { intros q Hq Hqs. cbn.
      rewrite wrap_id by (unfold isInt, minInt, maxInt in *; lia).
      rewrite Hq, Hqs. split; [|apply lookup_insert_eq].
      destruct (decide (n1 - 1 = n2 - 1)) as [->|Hne];
        [apply lookup_insert_eq | by rewrite lookup_insert_ne]. }
    destruct (HasSuffix word2 ";"); by apply Hsame. }
  destruct H3 as [Hd1 Hd2].
  destruct (parseWords_sealed_from 0 (heap p3) after p3 p' Hinv3)
    as [_ Hunchanged]; [|done|].
  { split_and!; [lia | right; lia | intros a Ha; lia]. }
  assert (Hp1 : specs p' !! (n1 - 1) = Some (spec p2)).
  { destruct (Hunchanged (n1 - 1)) as [->|(a & _ & _ & Hnamed)]; done. }
  assert (Hp2 : specs p' !! (n2 - 1) = Some (spec p2)).
  { destruct (Hunchanged (n2 - 1)) as [->|(a & _ & _ & Hnamed)]; done. }
  pose proof (parseWords_inv _ _ _ Hinv3 Hrun) as (_ & _ & Hkeys).
  destruct (Hkeys _ _ Hp1) as [_ Hlt].
  destruct (lookup_lt_is_Some_2 _ _ Hlt) as [s Hs].
  assert (Hlook : forall c, specs p' !! c = Some (spec p2) ->
                            specsOf p' !! c = Some s).
  { intros c Hc. apply specsOf_lookup. by exists (spec p2). }
  rewrite (Hlook _ Hp1), (Hlook _ Hp2). by split.
Qed.

Lemma parseWords_shared_witness :
  specsOf (updateSpec (setWidths 7 7)
             (assignColumn 2 (assignColumn 1 parserStart))) !! (1 - 1) =
  specsOf (updateSpec (setWidths 7 7)
             (assignColumn 2 (assignColumn 1 parserStart))) !! (2 - 1) /\
  is_Some (specsOf (updateSpec (setWidths 7 7)
                      (assignColumn 2 (assignColumn 1 parserStart))) !! (1 - 1)).
Proof.
  apply (parseWords_shared parserStart "1" [] "2" ["7c"]
           (updateSpec (setWidths 7 7)
              (assignColumn 2 (assignColumn 1 parserStart))) 1 2).
  - vm_compute. reflexivity.
  - vm_compute. reflexivity.
  - vm_compute. reflexivity.
  - repeat constructor.
  - exact parserStart_inv.
  - intros (word & n & Hin & Hn & _).
    apply elem_of_cons in Hin as [->|Hin]; [vm_compute in Hn; discriminate|].
    by apply elem_of_nil in Hin.
  - intros (word & n & Hin & Hn & _).
    apply elem_of_cons in Hin as [->|Hin]; [vm_compute in Hn; discriminate|].
    by apply elem_of_nil in Hin.
Defined.

(** ** Width resolution as a whole *)

Lemma adjustWidth_nonneg specs i width :
  0 <= width -> 0 <= adjustWidth specs i width.
Proof.
  intros Hw. unfold adjustWidth. destruct (specs !! Z.of_nat i) as [s|]; [|done].
  destruct (Z.leb_spec 0 (WidthMax s)); destruct (Z.ltb_spec (WidthMax s) width);
    destruct (Z.ltb_spec width (WidthMin s)); simpl; lia.
Qed.

Lemma adjustWidth_isInt specs i width :
  isInt width -> (forall s, specs !! Z.of_nat i = Some s -> intSpec s) ->
  isInt (adjustWidth specs i width).
Proof.
  intros Hw Hs. unfold adjustWidth.
  destruct (specs !! Z.of_nat i) as [s|]; [|done].
  destruct (Hs s eq_refl) as [Hmin Hmax].
  destruct ((0 <=? WidthMax s) && (WidthMax s <? width)); [done|].
  by destruct (width <? WidthMin s).
Qed.

Lemma naturalWidth_le rows k bound :
  0 <= bound ->
  Forall (Forall (fun field => len field <= bound)) rows ->
  naturalWidth rows k <= bound.
Proof.
  intros Hb. induction 1 as [|row rows Hrow _ IH]; simpl; [done|].
  destruct (row !! k) as [field|] eqn:Hk; simpl; [|lia].
  pose proof (Forall_lookup_1 _ _ _ _ Hrow Hk) as Hf. simpl in Hf. lia.
Qed.

Lemma resolveWidths_widths rows specs ws :
  resolveWidths rows specs = Value (Returns ws) ->
  rows <> [] /\
  Forall (fun row => length row = length ws) rows /\
  forall k w, ws !! k = Some w -> w = adjustWidth specs k (naturalWidth rows k).
Proof.
  intros (natural & Hrun & ->)%resolveWidths_Returns.
  apply calculateWidths_Returns in Hrun as Hrows. destruct Hrows as [Hne Hall].
  destruct (calculateWidths_uniform rows _ Hne Hall) as (natural' & Hrun' & _ & Hnat).
  rewrite Hrun in Hrun'. injection Hrun' as <-.
  unfold adjustWidths. rewrite length_imap. split_and!; [done | done |].
  intros k w (w0 & Hk & ->)%list_lookup_imap_Some.
  pose proof (lookup_lt_Some _ _ _ Hk) as Hlt.
  rewrite Hnat in Hk by lia. by injection Hk as <-.
Qed.

Lemma resolveWidths_nonneg rows specs ws :
  resolveWidths rows specs = Value (Returns ws) -> Forall (fun w => 0 <= w) ws.
Proof.
  intros (_ & _ & Hws)%resolveWidths_widths.
  apply Forall_lookup_2. intros k w Hk. rewrite (Hws k w Hk).
  apply adjustWidth_nonneg, naturalWidth_nonneg.
Qed.

Lemma resolveWidths_ints rows specs ws :
  resolveWidths rows specs = Value (Returns ws) ->
  Forall (Forall (fun field => len field <= maxInt)) rows ->
  (forall c s, specs !! c = Some s -> intSpec s) ->
  wfWidths ws.
Proof.
  intros (_ & _ & Hws)%resolveWidths_widths Hlen Hspecs.
  apply Forall_lookup_2. intros k w Hk. rewrite (Hws k w Hk).
  apply adjustWidth_isInt; [|by eauto].
  pose proof (naturalWidth_nonneg rows k).
  pose proof (naturalWidth_le rows k maxInt ltac:(unfold maxInt; lia) Hlen).
  unfold isInt, minInt in *. lia.
Qed.

(** X12.  Width resolution has two outcomes and never panics: when every
    row has as many fields as the first, it returns one width per field,
    none of them negative whatever the bounds of the specs; otherwise it
    ends in the field-count error. *)
Theorem resolveWidths_outcome first rest specs :
  (Forall (fun row => length row = length first) (first :: rest) /\
   exists ws, resolveWidths (first :: rest) specs = Value (Returns ws) /\
              length ws = length first /\ Forall (fun w => 0 <= w) ws) \/
  (~ Forall (fun row => length row = length first) (first :: rest) /\
   resolveWidths (first :: rest) specs = Error FieldCountMismatch).
Proof.
  destruct (decide (Forall (fun row => length row = length first) (first :: rest)))
    as [Hall|Hnot].
  - left. split; [done|].
    assert (Hne : first :: rest <> []) by done.
    destruct (calculateWidths_uniform _ _ Hne Hall) as (natural & Hrun & Hlen & _).
    exists (adjustWidths specs natural).
    assert (Hres : resolveWidths (first :: rest) specs =
                   Value (Returns (adjustWidths specs natural))).
    { unfold resolveWidths. by rewrite Hrun. }
    split_and!; [done | unfold adjustWidths; by rewrite length_imap |].
    by apply (resolveWidths_nonneg _ _ _ Hres).
  - right. split; [done|]. unfold resolveWidths, calculateWidths.
    rewrite scanRows_mismatch; [done|]. by rewrite length_replicate.
Qed.

(** ** The lines written *)

Lemma len_append (a b : string) : len (String.append a b) = len a + len b.
Proof. unfold len. rewrite length_append. lia. Qed.

Lemma isASCII_substring (s : string) : forall n,
  isASCII s = true -> isASCII (substring 0 n s) = true.
Proof.
  induction s as [|c s IH]; intros n Hs; [by destruct n|].
  cbn [isASCII] in Hs. apply andb_true_iff in Hs as [Hc Hs].
  destruct n as [|n]; [done|]. cbn [substring isASCII].
  rewrite Hc. by apply IH.
Qed.

(** A cell of a column of positive width is always produced; for an ASCII
    field it has exactly the width of the column, as long as [fmt] reads
    the width. *)
Lemma formatCell_positive (w : Z) (field : string) :
  0 < w ->
  exists cell,
    formatCell w field = Returns cell /\
    (w < firstWidthTooLarge -> isASCII field = true -> len cell = w).
Proof.
  intros Hw. unfold formatCell, mbind, result_bind.
  destruct (Z.le_gt_cases (len field) w) as [Hshort|Hlong].
  - rewrite (truncateField_short _ _ Hshort). eexists. split; [done|].
    intros Hsmall Hascii. rewrite Sprintf_left_pads by lia.
    rewrite (runeCount_ASCII _ Hascii), len_append.
    unfold len at 2. rewrite length_spaces. lia.
  - destruct (truncateField_long w field ltac:(lia)) as [-> _].
    eexists. split; [done|]. intros Hsmall Hascii.
    pose proof (isASCII_substring field (Z.to_nat w) Hascii) as Hprefix.
    destruct (substring_prefix field (Z.to_nat w) ltac:(unfold len in *; lia))
      as [Hlen _].
    rewrite Sprintf_left_pads by lia.
    rewrite (runeCount_ASCII _ Hprefix), len_append.
    unfold len. rewrite length_spaces, Hlen. lia.
Qed.

Lemma shownWidths_cons w ws :
  shownWidths (w :: ws) = if decide (w = 0) then shownWidths ws
                          else w :: shownWidths ws.
Proof.
  unfold shownWidths. rewrite filter_cons. by destruct (decide (w = 0)); case_decide.
Qed.

Lemma formatColumns_cells ws : forall i row,
  Forall (fun w => 0 <= w) ws -> (i + length ws <= length row)%nat ->
  exists cells,
    formatColumns i ws row = Returns cells /\
    length cells = length (shownWidths ws) /\
    (Forall (fun w => w < firstWidthTooLarge) ws ->
     Forall (fun field => isASCII field = true) row ->
     len <$> cells = shownWidths ws).
Proof.
  induction ws as [|w ws IH]; intros i row Hpos Hlen.
  - exists []. by split_and!.
  - apply Forall_cons in Hpos as [Hw Hpos]. cbn [formatColumns length] in *.
    destruct (IH (S i) row Hpos ltac:(lia)) as (cells & Hrun & Hcount & Hlens).
    rewrite shownWidths_cons.
    destruct (Z.eqb_spec w 0) as [->|Hne].
    + rewrite decide_True by done. exists cells. split_and!; [done | done |].
      intros [_ Hsmall]%Forall_cons. by apply Hlens.
    + rewrite decide_False by done.
      destruct (lookup_lt_is_Some_2 row i ltac:(lia)) as [field Hfield].
      destruct (formatCell_positive w field ltac:(lia)) as (cell & Hcell & Hwidth).
      exists (cell :: cells). unfold mbind, result_bind in *.
      rewrite Hfield. cbn [orPanic]. rewrite Hcell, Hrun.
      split_and!; [done | cbn; by rewrite Hcount |].
      intros [Hsmall Hsmalls]%Forall_cons Hascii.
      rewrite fmap_cons, (Hlens Hsmalls Hascii). f_equal.
      apply Hwidth; [done|]. by apply (Forall_lookup_1 _ _ _ _ Hascii Hfield).
Qed.

Lemma Join_len (elems : list string) (sep : string) :
  len (Join elems sep) =
  Zsum (len <$> elems) + len sep * Z.of_nat (Nat.pred (length elems)).
Proof.
  induction elems as [|e elems IH].
  { change (len (Join [] sep)) with 0. change (Zsum (len <$> [])) with 0.
    cbn [length Nat.pred]. lia. }
  destruct elems as [|e' rest].
  - cbn [Join fmap list_fmap length Nat.pred]. rewrite Zsum_cons.
    change (Zsum []) with 0. lia.
  - change (Join (e :: e' :: rest) sep)
      with (String.append e (String.append sep (Join (e' :: rest) sep))).
    rewrite !len_append, IH, !fmap_cons, !Zsum_cons.
    cbn [length Nat.pred]. lia.
Qed.

Lemma Zsum_shown ws : Zsum (shownWidths ws) = Zsum ws.
Proof.
  induction ws as [|w ws IH]; [done|].
  rewrite shownWidths_cons. case_decide as Hw.
  - subst w. rewrite Zsum_cons. lia.
  - rewrite !Zsum_cons. lia.
Qed.

Lemma length_shown ws : (length (shownWidths ws) <= length ws)%nat.
Proof.
  induction ws as [|w ws IH]; [done|].
  rewrite shownWidths_cons. case_decide; cbn [length]; lia.
Qed.

(** The line of a row of ASCII fields. *)
Lemma formatRow_line ws row :
  Forall (fun w => 0 <= w) ws -> Forall (fun w => w < firstWidthTooLarge) ws ->
  length row = length ws ->
  Forall (fun field => isASCII field = true) row ->
  exists line,
    formatRow ws row = Returns line /\
    len line = lineWidth ws + 1 /\
    lineWidth ws <= Zsum ws + gutters (length ws).
Proof.
  intros Hpos Hsmall Hlen Hascii.
  destruct (formatColumns_cells ws 0 row Hpos ltac:(lia))
    as (cells & Hrun & Hcount & Hlens).
  exists (String.append (Join cells outputFieldSeparator) outputRecordSeparator).
  split_and!.
  - unfold formatRow, mbind, result_bind. by rewrite Hrun.
  - rewrite len_append, Join_len, (Hlens Hsmall Hascii), Hcount.
    unfold lineWidth, gutters.
    change (len outputFieldSeparator) with 2.
    change (len outputRecordSeparator) with 1. lia.
  - unfold lineWidth, gutters. rewrite Zsum_shown.
    pose proof (length_shown ws). lia.
Qed.

(** X13.  For widths that are not negative and that [fmt] reads (below
    10000010), a row of ASCII fields is written as a line whose length
    depends on the widths alone: the widths of the columns shown and two
    bytes per gutter between them, plus the terminator; columns of width 0
    take no room at all.  That length never exceeds the width the
    rebalancer accounts for. *)
Theorem formatRow_width ws row :
  Forall (fun w => 0 <= w) ws -> Forall (fun w => w < firstWidthTooLarge) ws ->
  length row = length ws ->
  Forall (fun field => isASCII field = true) row ->
  exists line,
    formatRow ws row = Returns line /\
    len line = lineWidth ws + 1 /\
    lineWidth ws <= Zsum ws + gutters (length ws).
Proof. apply formatRow_line. Qed.

Lemma formatRow_width_witness :
  exists line,
    formatRow [3; 0; 2] ["a"; "hidden"; "bcd"] = Returns line /\
    len line = lineWidth [3; 0; 2] + 1 /\
    lineWidth [3; 0; 2] <= Zsum [3; 0; 2] + gutters (length [3; 0; 2]).
Proof.
  apply (formatRow_width [3; 0; 2] ["a"; "hidden"; "bcd"]).
  - repeat constructor; lia.
  - repeat constructor; unfold firstWidthTooLarge; lia.
  - reflexivity.
  - repeat constructor.
Defined.

(** From its limit on [fmt] reads no width: the line of a row in one
    column of that width is the report of [fmt] around the field, whose
    length follows the field and not the width. *)
Lemma formatRow_unread_width (field : string) :
  len field <= firstWidthTooLarge ->
  formatRow [firstWidthTooLarge] [field] =
  Returns (String.append "%!(NOVERB)%!(EXTRA string="
             (String.append field (String.append ")" outputRecordSeparator))).
Proof.
  intros Hlen. unfold formatRow. cbn [formatColumns].
  change (firstWidthTooLarge =? 0) with false. cbn [lookup list_lookup orPanic].
  unfold mbind, result_bind, formatCell.
  rewrite (truncateField_short _ _ Hlen). cbn [mbind result_bind].
  rewrite Sprintf_left_no_verb by (unfold firstWidthTooLarge, maxInt; lia).
  cbn [Join]. by rewrite !append_assoc.
Qed.

(** The specification [1 10000010c] gives the only column a width that
    [fmt] does not read: the lines are its reports, of 29 and 30 bytes for
    the fields [a] and [bb], and not an aligned table. *)
Example Main_width_unread_by_fmt :
  Main keyOrder 80 "1 10000010c" [["a"]; ["bb"]] =
  {| stdout :=
       String.append "%!(NOVERB)%!(EXTRA string=a)"
         (String.append outputRecordSeparator
            (String.append "%!(NOVERB)%!(EXTRA string=bb)"
               outputRecordSeparator));
     status := Exit0 |}.
Proof. vm_compute. reflexivity. Qed.

(** ** Runs that succeed *)

Lemma loopInv_nonneg ws specs st :
  loopInv ws (adjustableSet ws specs) st -> safeSpecs ws specs ->
  Forall (fun w => 0 <= w) ws -> Forall (fun w => 0 <= w) (widths st).
Proof.
  intros (Hlen & _ & _ & Hcol) Hsafe Hpos.
  apply Forall_lookup_2. intros k w Hk.
  pose proof (lookup_lt_Some _ _ _ Hk) as Hlt.
  destruct (lookup_lt_is_Some_2 ws k ltac:(lia)) as [w0 Hw0].
  pose proof (Forall_lookup_1 _ _ _ _ Hpos Hw0) as Hw0pos. simpl in Hw0pos.
  specialize (Hcol (Z.of_nat k)). unfold columnInv in Hcol.
  rewrite !index_of_nat, Hk, Hw0 in Hcol.
  destruct (adjustable st !! Z.of_nat k) as [s|] eqn:Hadj.
  - destruct Hcol as (H0 & w' & w0' & [= <-] & _ & Hrange).
    apply adjustableSet_lookup in H0 as [Hs [Hflex _]%isAdjustable_true].
    destruct (Hsafe _ _ Hs Hflex). lia.
  - destruct (adjustableSet ws specs !! Z.of_nat k) as [s|] eqn:H0.
    + destruct Hcol as ([= ->] & _).
      apply adjustableSet_lookup in H0 as [Hs [Hflex _]%isAdjustable_true].
      by destruct (Hsafe _ _ Hs Hflex).
    + injection Hcol as ->. done.
Qed.

Lemma formatRow_total ws row :
  Forall (fun w => 0 <= w) ws -> length row = length ws ->
  exists line, formatRow ws row = Returns line.
Proof.
  intros Hpos Hlen.
  destruct (formatColumns_cells ws 0 row Hpos ltac:(lia)) as (cells & Hrun & _).
  eexists. unfold formatRow, mbind, result_bind. by rewrite Hrun.
Qed.

Lemma writeRows_lines ws rows : forall out,
  (forall row, row ∈ rows -> exists line, formatRow ws row = Returns line) ->
  exists lines,
    Forall2 (fun row line => formatRow ws row = Returns line) rows lines /\
    writeRows ws rows out =
    {| stdout := String.append out (concatLines lines); status := Exit0 |}.
Proof.
  induction rows as [|row rows IH]; intros out Hrows.
  - exists []. split; [constructor|]. cbn. by rewrite append_empty_r.
  - destruct (Hrows row) as [line Hline]; [apply elem_of_cons; by left|].
    destruct (IH (String.append out line)) as (lines & Hall & Hrun).
    { intros r Hr. apply Hrows, elem_of_cons. by right. }
    exists (line :: lines). split; [by constructor|].
    cbn [writeRows]. rewrite Hline, Hrun. cbn [concatLines foldr].
    by rewrite append_assoc.
Qed.

Lemma loopInv_le ws0 adj0 st k w :
  loopInv ws0 adj0 st -> widths st !! k = Some w ->
  exists w0, ws0 !! k = Some w0 /\ w <= w0.
Proof.
  intros (Hlen & _ & _ & Hcol) Hk.
  pose proof (lookup_lt_Some _ _ _ Hk) as Hlt.
  destruct (lookup_lt_is_Some_2 ws0 k ltac:(lia)) as [w0 Hw0].
  exists w0. split; [done|].
  specialize (Hcol (Z.of_nat k)). unfold columnInv in Hcol.
  rewrite !index_of_nat, Hk, Hw0 in Hcol.
  destruct (adjustable st !! Z.of_nat k) as [s|].
  - destruct Hcol as (_ & w' & w0' & [= <-] & [= <-] & Hrange). lia.
  - destruct (adj0 !! Z.of_nat k) as [s|].
    + destruct Hcol as ([= ->] & w0' & [= <-] & Hrange). lia.
    + injection Hcol as ->. lia.
Qed.

(** A run on rows of equal field count, under a specification whose
    flexible specs are safe: the widths resolved, the widths rebalanced
    and the lines written. *)
Lemma Main_run_widths rangeOrder terminalWidth rawSpec specs rows n :
  validOrder rangeOrder ->
  ParseColumnSpecs rawSpec = Value specs ->
  rows <> [] -> Forall (fun row => length row = n) rows ->
  Forall (Forall (fun field => len field <= maxInt)) rows ->
  (forall c s, specs !! c = Some s -> HasFlexibleWidth s = true ->
               c < Z.of_nat n /\ 0 <= WidthMin s) ->
  exists ws0 ws lines,
    resolveWidths rows specs = Value (Returns ws0) /\
    rebalanceWidths rangeOrder terminalWidth ws0 specs = Returns ws /\
    Main rangeOrder terminalWidth rawSpec rows =
    {| stdout := concatLines lines; status := Exit0 |} /\
    length ws = n /\ Forall (fun w => 0 <= w) ws /\
    (forall k w, ws !! k = Some w -> exists w0, ws0 !! k = Some w0 /\ w <= w0) /\
    Forall2 (fun row line => formatRow ws row = Returns line) rows lines.
Proof.
  intros Hperm Hparse Hne Hall Hlens Hflex.
  destruct (calculateWidths_uniform rows n Hne Hall) as (natural & Hcalc & Hlen & _).
  set (ws0 := adjustWidths specs natural).
  assert (Hres : resolveWidths rows specs = Value (Returns ws0)).
  { unfold resolveWidths. by rewrite Hcalc. }
  assert (Hlen0 : length ws0 = n).
  { unfold ws0, adjustWidths. by rewrite length_imap. }
  pose proof (resolveWidths_nonneg _ _ _ Hres) as Hpos0.
  assert (Hints : forall c s, specs !! c = Some s -> intSpec s).
  { intros c s Hs.
    destruct (ParseColumnSpecs_ints _ _ _ _ Hparse Hs) as (_ & ? & ?). by split. }
  pose proof (resolveWidths_ints _ _ _ Hres Hlens Hints) as Hwf0.
  assert (Hsafe : safeSpecs ws0 specs).
  { intros c s Hs Hfl. destruct (Hflex c s Hs Hfl) as [Hc Hmin].
    destruct (ParseColumnSpecs_ints _ _ _ _ Hparse Hs) as (Hc0 & _).
    split; [|done].
    destruct (index ws0 c) eqn:E; [by eexists|].
    apply index_None in E. lia. }
  destruct (rebalanceWidths_fair_run rangeOrder terminalWidth ws0 specs
              Hperm Hwf0 (ParseColumnSpecs_wfSpecs _ _ Hparse) Hsafe)
    as (st & Hrun & Hinv & _ & _).
  pose proof (loopInv_nonneg _ _ _ Hinv Hsafe Hpos0) as Hpos.
  assert (Hlen' : length (widths st) = n).
  { destruct Hinv as (-> & _). done. }
  destruct (writeRows_lines (widths st) rows EmptyString) as (lines & Hlines & Hout).
  { intros row Hrow. apply formatRow_total; [done|].
    rewrite Hlen'. by apply (proj1 (Forall_forall _ _) Hall). }
  exists ws0, (widths st), lines. split_and!; try done.
  - unfold Main. rewrite Hparse. destruct rows as [|first rest]; [done|].
    rewrite Hres, Hrun. exact Hout.
  - intros k w Hk. by apply (loopInv_le _ _ _ _ _ Hinv).
Qed.

Lemma Main_run_lines rangeOrder terminalWidth rawSpec specs rows n :
  validOrder rangeOrder ->
  ParseColumnSpecs rawSpec = Value specs ->
  rows <> [] -> Forall (fun row => length row = n) rows ->
  Forall (Forall (fun field => len field <= maxInt)) rows ->
  (forall c s, specs !! c = Some s -> HasFlexibleWidth s = true ->
               c < Z.of_nat n /\ 0 <= WidthMin s) ->
  exists ws lines,
    Main rangeOrder terminalWidth rawSpec rows =
    {| stdout := concatLines lines; status := Exit0 |} /\
    length ws = n /\ Forall (fun w => 0 <= w) ws /\
    Forall2 (fun row line => formatRow ws row = Returns line) rows lines.
Proof.
  intros Hperm Hparse Hne Hall Hlens Hflex.
  destruct (Main_run_widths rangeOrder terminalWidth rawSpec specs rows n)
    as (ws0 & ws & lines & _ & _ & Hrun & Hlen & Hpos & _ & Hlines); try done.
  by exists ws, lines.
Qed.

(** X14.  A run on rows of equal field count ends normally, having written
    one line per row, whenever the column specification parses and each of
    its flexible specs names a column the rows have and has a minimum of 0
    or more.  The widths used are not negative. *)
Theorem Main_succeeds rangeOrder terminalWidth rawSpec specs rows n :
  validOrder rangeOrder ->
  ParseColumnSpecs rawSpec = Value specs ->
  rows <> [] -> Forall (fun row => length row = n) rows ->
  Forall (Forall (fun field => len field <= maxInt)) rows ->
  (forall c s, specs !! c = Some s -> HasFlexibleWidth s = true ->
               c < Z.of_nat n /\ 0 <= WidthMin s) ->
  exists ws lines,
    Main rangeOrder terminalWidth rawSpec rows =
    {| stdout := concatLines lines; status := Exit0 |} /\
    length ws = n /\ Forall (fun w => 0 <= w) ws /\
    Forall2 (fun row line => formatRow ws row = Returns line) rows lines.
Proof. apply Main_run_lines. Qed.

Lemma Main_succeeds_witness :
  exists ws lines,
    Main keyOrder 10 "2 3c-*" [["abcd"; "0123456789"]; ["e"; "f"]] =
    {| stdout := concatLines lines; status := Exit0 |} /\
    length ws = 2%nat /\ Forall (fun w => 0 <= w) ws /\
    Forall2 (fun row line => formatRow ws row = Returns line)
      [["abcd"; "0123456789"]; ["e"; "f"]] lines.
Proof.
  apply (Main_succeeds keyOrder 10 "2 3c-*" {[ 1 := widthSpec 3 (-1) ]}
           [["abcd"; "0123456789"]; ["e"; "f"]] 2).
  - exact keyOrder_valid.
  - vm_compute. reflexivity.
  - discriminate.
  - repeat constructor.
  - repeat constructor; vm_compute; discriminate.
  - intros c s [<- <-]%lookup_singleton_Some _. simpl. lia.
Defined.

Lemma adjustWidth_below specs i width bound :
  width < bound ->
  (forall s, specs !! Z.of_nat i = Some s -> WidthMin s < bound) ->
  adjustWidth specs i width < bound.
Proof.
  intros Hw Hmin. unfold adjustWidth.
  destruct (specs !! Z.of_nat i) as [s|]; [|done].
  specialize (Hmin s eq_refl).
  destruct (Z.leb_spec 0 (WidthMax s)); destruct (Z.ltb_spec (WidthMax s) width);
    destruct (Z.ltb_spec width (WidthMin s)); simpl; lia.
Qed.

(** X21.  The output is a table.  When the specification parses, the rows
    have the same number of fields, all of them ASCII and shorter than
    the first width [fmt] does not read (10000010), every [WidthMin] is
    below that width too, and each flexible spec names a column the rows
    have and has a minimum of 0 or more, then every line written has the
    same length: the one given by the widths that [rebalanceWidths]
    returns for the widths resolved from the rows. *)
Theorem Main_aligned rangeOrder terminalWidth rawSpec specs rows n :
  validOrder rangeOrder ->
  ParseColumnSpecs rawSpec = Value specs ->
  rows <> [] -> Forall (fun row => length row = n) rows ->
  Forall (Forall (fun field => len field < firstWidthTooLarge)) rows ->
  Forall (Forall (fun field => isASCII field = true)) rows ->
  (forall c s, specs !! c = Some s -> WidthMin s < firstWidthTooLarge) ->
  (forall c s, specs !! c = Some s -> HasFlexibleWidth s = true ->
               c < Z.of_nat n /\ 0 <= WidthMin s) ->
  exists ws0 ws lines,
    resolveWidths rows specs = Value (Returns ws0) /\
    rebalanceWidths rangeOrder terminalWidth ws0 specs = Returns ws /\
    Main rangeOrder terminalWidth rawSpec rows =
    {| stdout := concatLines lines; status := Exit0 |} /\
    length lines = length rows /\
    Forall (fun line => len line = lineWidth ws + 1) lines.
Proof.
  intros Hperm Hparse Hne Hall Hlens Hascii Hmins Hflex.
  assert (Hlens' : Forall (Forall (fun field => len field <= maxInt)) rows).
  { eapply Forall_impl; [exact Hlens|]. intros row Hrow.
    eapply Forall_impl; [exact Hrow|]. intros field Hfield. cbn beta in Hfield.
    unfold firstWidthTooLarge, maxInt in *. lia. }
  destruct (Main_run_widths rangeOrder terminalWidth rawSpec specs rows n)
    as (ws0 & ws & lines & Hres & Hreb & Hrun & Hlen & Hpos & Hle & Hlines);
    try done.
  exists ws0, ws, lines.
  split_and!; [done | done | done | by apply Forall2_length in Hlines |].
  assert (Hsmall : Forall (fun w => w < firstWidthTooLarge) ws).
  { apply Forall_lookup_2. intros k w Hk.
    destruct (Hle k w Hk) as (w0 & Hw0 & Hww0).
    destruct (resolveWidths_widths _ _ _ Hres) as (_ & _ & Hws0).
    rewrite (Hws0 k w0 Hw0) in Hww0.
    assert (adjustWidth specs k (naturalWidth rows k) < firstWidthTooLarge); [|lia].
    apply adjustWidth_below; [|by eauto].
    assert (naturalWidth rows k <= firstWidthTooLarge - 1); [|lia].
    apply naturalWidth_le; [by unfold firstWidthTooLarge|].
    eapply Forall_impl; [exact Hlens|]. intros row Hrow.
    eapply Forall_impl; [exact Hrow|]. intros field Hfield. cbn beta in Hfield. lia. }
  clear Hrun Hne Hlens Hlens' Hres.
  induction Hlines as [|row line rows lines Hline _ IH]; [constructor|].
  apply Forall_cons in Hall as [Hrow Hall].
  apply Forall_cons in Hascii as [Hrow' Hascii].
  constructor; [|by apply IH].
  destruct (formatRow_line ws row Hpos Hsmall ltac:(lia) Hrow')
    as (line' & Hline' & Hlen' & _).
  rewrite Hline in Hline'. by injection Hline' as <-.
Qed.

Lemma Main_aligned_witness :
  exists ws0 ws lines,
    resolveWidths [["abcd"; "0123456789"]; ["e"; "f"]] {[ 1 := widthSpec 3 (-1) ]}
      = Value (Returns ws0) /\
    rebalanceWidths keyOrder 10 ws0 {[ 1 := widthSpec 3 (-1) ]} = Returns ws /\
    Main keyOrder 10 "2 3c-*" [["abcd"; "0123456789"]; ["e"; "f"]] =
    {| stdout := concatLines lines; status := Exit0 |} /\
    length lines = length [["abcd"; "0123456789"]; ["e"; "f"]] /\
    Forall (fun line => len line = lineWidth ws + 1) lines.
Proof.
  apply (Main_aligned keyOrder 10 "2 3c-*" {[ 1 := widthSpec 3 (-1) ]}
           [["abcd"; "0123456789"]; ["e"; "f"]] 2).
  - exact keyOrder_valid.
  - vm_compute. reflexivity.
  - discriminate.
  - repeat constructor.
  - repeat constructor; vm_compute; reflexivity.
  - repeat constructor.
  - intros c s [<- <-]%lookup_singleton_Some. vm_compute. reflexivity.
  - intros c s [<- <-]%lookup_singleton_Some _. simpl. lia.
Defined.

(** ** Reading the records *)

Lemma noByte_IndexByte c s : forall i,
  0 <= i -> (noByte c s = true <-> indexByteFrom i s c = -1).
Proof.
  induction s as [|x s IH]; intros i Hi; [done|].
  cbn [noByte indexByteFrom]. destruct (Ascii.eqb x c); simpl.
  - split; [done | lia].
  - apply IH. lia.
Qed.

Lemma noByte_append c a b :
  noByte c (String.append a b) = noByte c a && noByte c b.
Proof.
  induction a as [|x a IH]; [done|].
  change (noByte c (String x (String.append a b)) =
          noByte c (String x a) && noByte c b).
  cbn [noByte]. rewrite IH. by rewrite andb_assoc.
Qed.

(** Where the first delimiter is, and what it means for the records. *)
Lemma indexByte_split d s : forall i,
  (indexByteFrom i s d = -1 /\ noByte d s = true /\
   forall cur, recordsFrom d s cur = flushWord (String.append cur s)) \/
  (exists tok rest,
     s = String.append tok (String d rest) /\
     indexByteFrom i s d = i + len tok /\ noByte d tok = true /\
     forall cur, recordsFrom d s cur =
                 String.append cur tok :: recordsFrom d rest EmptyString).
Proof.
  induction s as [|x s IH]; intros i.
  - left. split_and!; [done | done |]. intros cur. cbn.
    by rewrite append_empty_r.
  - cbn [indexByteFrom recordsFrom noByte].
    destruct (Ascii.eqb_spec x d) as [->|Hne].
    + right. exists EmptyString, s. split_and!; [done | unfold len; cbn [String.length]; lia | done |].
      intros cur. by rewrite append_empty_r.
    + destruct (IH (i + 1)) as [(Hidx & Hno & Hrec)|(tok & rest & -> & Hidx & Hno & Hrec)].
      * left. split_and!; [done | done |]. intros cur.
        rewrite Hrec, append_assoc. done.
      * right. exists (String x tok), rest. split_and!.
        -- done.
        -- rewrite Hidx. unfold len. cbn [String.length]. lia.
        -- cbn [noByte]. rewrite Hno.
           by destruct (Ascii.eqb_spec x d).
        -- intros cur. rewrite Hrec, append_assoc. done.
Qed.

Lemma substring_drop (a b : string) :
  substring (String.length a) (String.length (String.append a b) - String.length a)
    (String.append a b) = b.
Proof.
  rewrite length_append.
  replace (String.length a + String.length b - String.length a)%nat
    with (String.length b) by lia.
  apply substring_append_r.
Qed.

Lemma on_EOF_empty d : on d EmptyString true = Returns (0, None).
Proof. done. Qed.

Lemma noByte_unique d : forall tok tok' rest rest',
  noByte d tok = true -> noByte d tok' = true ->
  String.append tok' (String d rest') = String.append tok (String d rest) ->
  tok' = tok /\ rest' = rest.
Proof.
  induction tok as [|x tok IH]; intros tok' rest rest' Hno Hno' Heq.
  - destruct tok' as [|y tok'].
    + injection Heq as ->. done.
    + injection Heq as -> _.
      cbn [noByte] in Hno'. by rewrite Ascii.eqb_refl in Hno'.
  - cbn [noByte] in Hno. apply andb_true_iff in Hno as [Hx Hno].
    destruct tok' as [|y tok'].
    + injection Heq as <- _. by rewrite Ascii.eqb_refl in Hx.
    + injection Heq as -> Heq.
      cbn [noByte] in Hno'. apply andb_true_iff in Hno' as [_ Hno'].
      destruct (IH tok' rest rest' Hno Hno' Heq) as [-> ->]. done.
Qed.

Lemma on_at_delimiter_wrap d tok rest :
  noByte d tok = true ->
  on d (String.append tok (String d rest)) false =
  Returns (wrap (len tok + 1), Some tok).
Proof.
  intros Hno.
  destruct (indexByte_split d (String.append tok (String d rest)) 0)
    as [(_ & Hno' & _)|(tok' & rest' & Heq & Hidx & Hno' & _)].
  { rewrite noByte_append in Hno'. cbn [noByte] in Hno'.
    rewrite Ascii.eqb_refl in Hno'. by rewrite andb_false_r in Hno'. }
  destruct (noByte_unique d tok tok' rest rest' Hno Hno' (eq_sym Heq)) as [-> _].
  unfold on, IndexByte. rewrite Hidx.
  destruct (Z.leb_spec 0 (0 + len tok)); [|unfold len in *; lia].
  unfold slice.
  destruct (Z.leb_spec 0 0); [|lia].
  destruct (Z.leb_spec 0 (0 + len tok)); [|lia].
  destruct (Z.leb_spec (0 + len tok) (len (String.append tok (String d rest))));
    [|rewrite len_append in *; unfold len in *; lia].
  cbn [andb orPanic mbind result_bind].
  rewrite Z.sub_0_r.
  replace (Z.to_nat (0 + len tok)) with (String.length tok) by (unfold len; lia).
  rewrite substring_append_l. by rewrite Z.add_0_l.
Qed.

Lemma on_at_delimiter d tok rest :
  noByte d tok = true -> len (String.append tok (String d rest)) <= maxInt ->
  on d (String.append tok (String d rest)) false =
  Returns (len tok + 1, Some tok).
Proof.
  intros Hno Hlen. rewrite on_at_delimiter_wrap by done.
  rewrite wrap_id; [done|].
  rewrite len_append in Hlen. unfold len in *. cbn [String.length] in Hlen.
  unfold isInt, minInt, maxInt in *. lia.
Qed.

Lemma on_no_delimiter d data :
  noByte d data = true -> on d data false = Returns (0, None).
Proof.
  intros Hno. unfold on, IndexByte.
  by rewrite (proj1 (noByte_IndexByte d data 0 ltac:(lia)) Hno).
Qed.

(** At the end of the input the rest is the last record. *)
Lemma scanLoop_at_EOF d reads fuel k buf input e :
  (2 <= fuel)%nat ->
  scanLoop fuel (on d) reads k buf input true e =
  Returns (Value (flushWord buf)).
Proof.
  intros Hfuel. destruct fuel as [|fuel]; [lia|].
  assert (Hend : forall e', scanLoop fuel (on d) reads k EmptyString input true e' =
                 Returns (Value [])).
  { intros e'. destruct fuel as [|fuel]; [lia | reflexivity]. }
  destruct buf as [|c buf']; [by destruct fuel as [|fuel]; [lia|]|].
  set (buf := String c buf').
  assert (Hnonempty : (len buf =? 0) = false).
  { unfold buf, len. cbn [String.length]. apply Z.eqb_neq. lia. }
  assert (Hon : on d buf true = Returns (len buf, Some buf)).
  { unfold on. by rewrite Hnonempty. }
  cbn [scanLoop]. rewrite orb_true_r. cbv iota zeta.
  rewrite Hon. cbn [mbind result_bind].
  destruct (Z.ltb_spec (len buf) 0); [unfold len in *; lia|].
  destruct (Z.ltb_spec (len buf) (len buf)); [lia|].
  destruct (Z.ltb_spec 0 (len buf)); [|apply Z.eqb_neq in Hnonempty; unfold len in *; lia].
  cbn [negb orb].
  replace (Z.to_nat (len buf)) with (String.length buf) by (unfold len; lia).
  rewrite Nat.sub_diag.
  replace (substring (String.length buf) 0 buf) with EmptyString.
  2:{ clear. induction buf as [|x s IHs]; [done|]. simpl. exact IHs. }
  rewrite Hend. reflexivity.
Qed.

Lemma recordsFrom_prefix d a : forall s cur,
  noByte d a = true ->
  recordsFrom d (String.append a s) cur = recordsFrom d s (String.append cur a).
Proof.
  induction a as [|x a IH]; intros s cur Hno.
  - by rewrite append_empty_r.
  - cbn [noByte] in Hno. apply andb_true_iff in Hno as [Hx Hno].
    change (recordsFrom d (String x (String.append a s)) cur =
            recordsFrom d s (String.append cur (String x a))).
    cbn [recordsFrom]. destruct (Ascii.eqb x d); [done|].
    rewrite IH by done. by rewrite append_assoc.
Qed.

Lemma recordsFrom_long d : forall input cur,
  maxScanTokenSize <= len cur ->
  shortRecords (recordsFrom d input cur) = false.
Proof.
  induction input as [|c input IH]; intros cur Hcur.
  - cbn [recordsFrom]. destruct cur as [|x cur']; [by unfold len in Hcur|].
    cbn [flushWord shortRecords forallb].
    destruct (Z.ltb_spec (len (String x cur')) maxScanTokenSize); [lia | done].
  - cbn [recordsFrom]. destruct (Ascii.eqb c d).
    + cbn [shortRecords forallb].
      by destruct (Z.ltb_spec (len cur) maxScanTokenSize); [lia|].
    + apply IH. rewrite len_append. unfold len in *. lia.
Qed.

(** The loop of the scanner yields the records of the specification, or
    fails at the first record that does not fit in the buffer. *)
Lemma scanLoop_records d reads fuel : forall k buf input e,
  (2 * String.length input + String.length buf + 3 <= fuel)%nat ->
  len buf <= maxScanTokenSize ->
  scanLoop fuel (on d) reads k buf input false e =
  Returns (recordsOrTooLong d (String.append buf input)).
Proof.
  induction fuel as [|fuel IH]; intros k buf input e Hfuel Hbuf; [lia|].
  assert (Hmore : noByte d buf = true ->
    needMore (fun k buf input atEOF => scanLoop fuel (on d) reads k buf input atEOF e)
      reads k buf input false =
    Returns (recordsOrTooLong d (String.append buf input))).
  { intros Hno. unfold needMore.
    destruct (Z.leb_spec maxScanTokenSize (len buf)) as [Hfull|Hroom].
    { unfold recordsOrTooLong. rewrite recordsFrom_prefix by done.
      cbn [String.append]. by rewrite recordsFrom_long. }
    destruct (Z.eqb_spec (len input) 0) as [Hemp|Hinput].
    { destruct input as [|? ?]; [|by unfold len in Hemp].
      rewrite scanLoop_at_EOF by lia.
      unfold recordsOrTooLong. rewrite recordsFrom_prefix by done.
      cbn [String.append recordsFrom].
      destruct buf as [|x buf']; [done|].
      change (String.append EmptyString (String x buf')) with (String x buf').
      cbn [flushWord shortRecords forallb].
      by destruct (Z.ltb_spec (len (String x buf')) maxScanTokenSize); [|lia]. }
    set (n := readSize (reads k) buf input).
    assert (Hn : (1 <= n <= String.length input)%nat /\
                 Z.of_nat n <= maxScanTokenSize - len buf).
    { unfold n, readSize, len in *. lia. }
    destruct Hn as [Hn Hn'].
    rewrite IH.
    - by rewrite append_assoc, <- substring_split by lia.
    - destruct (substring_prefix input n) as [Hlen _]; [lia|].
      rewrite length_append, Hlen.
      assert (String.length (substring n (String.length input - n) input) =
              (String.length input - n)%nat) as ->; [|lia].
      pose proof (substring_split input n ltac:(lia)) as Hsplit.
      apply (f_equal String.length) in Hsplit.
      rewrite length_append, Hlen in Hsplit. lia.
    - destruct (substring_prefix input n) as [Hlen _]; [lia|].
      rewrite len_append. unfold len in *. rewrite Hlen. lia. }
  cbn [scanLoop]. cbv zeta.
  destruct (Z.ltb_spec 0 (len buf)) as [Hpos|Hzero]; cbn [orb].
  2:{ apply Hmore. destruct buf as [|? ?]; [done|].
      unfold len in Hzero. cbn [String.length] in Hzero. lia. }
  destruct (indexByte_split d buf 0)
    as [(_ & Hno & _)|(tok & rest & Heq & _ & Hno & _)].
  - rewrite (on_no_delimiter d buf Hno). cbn [mbind result_bind].
    destruct (Z.ltb_spec 0 0); [lia|].
    destruct (Z.ltb_spec (len buf) 0); [lia|].
    cbn [Z.to_nat]. rewrite Nat.sub_0_r, substring_all.
    by apply Hmore.
  - assert (Hlen : len (String.append tok (String d rest)) <= maxInt).
    { rewrite <- Heq. unfold maxScanTokenSize, maxInt in *. lia. }
    rewrite Heq in Hbuf, Hfuel |- *.
    rewrite (on_at_delimiter d tok rest Hno Hlen). cbn [mbind result_bind].
    rewrite len_append in Hbuf. rewrite length_append in Hfuel.
    unfold len in Hbuf. cbn [String.length] in Hbuf, Hfuel.
    destruct (Z.ltb_spec (len tok + 1) 0); [unfold len in *; lia|].
    destruct (Z.ltb_spec (len (String.append tok (String d rest))) (len tok + 1)).
    { rewrite len_append in *. unfold len in *. cbn [String.length] in *. lia. }
    cbn [negb orb].
    replace (Z.to_nat (len tok + 1))
      with (String.length (String.append tok (String d EmptyString)))
      by (rewrite length_append; unfold len; simpl; lia).
    replace (String.append tok (String d rest))
      with (String.append (String.append tok (String d EmptyString)) rest)
      by (by rewrite append_assoc).
    rewrite substring_drop.
    rewrite IH by (unfold len; lia).
    unfold emit, recordsOrTooLong. cbn [mbind result_bind].
    rewrite !append_assoc. rewrite (recordsFrom_prefix d tok) by done.
    change (String.append (String d EmptyString) (String.append rest input))
      with (String d (String.append rest input)).
    cbn [recordsFrom]. rewrite Ascii.eqb_refl.
    change (String.append EmptyString tok) with tok.
    cbn [shortRecords forallb].
    destruct (Z.ltb_spec (len tok) maxScanTokenSize); [|unfold len in *; lia].
    cbn [andb]. fold (shortRecords (recordsFrom d (String.append rest input) EmptyString)).
    by destruct (shortRecords _).
Qed.

Lemma lastByte_append (a : string) c rest :
  lastByte (String.append a (String c rest)) = lastByte (String c rest).
Proof.
  induction a as [|x a IH]; [done|].
  change (lastByte (String x (String.append a (String c rest))) =
          lastByte (String c rest)).
  rewrite <- IH. destruct a; reflexivity.
Qed.

Lemma terminated_noByte d cur :
  noByte d cur = true -> terminated d cur = true -> cur = EmptyString.
Proof.
  unfold terminated. induction cur as [|x cur IH]; [done|].
  cbn [noByte]. intros [Hx Hno]%andb_true_iff Hterm.
  destruct cur as [|y cur].
  - cbn in Hterm. by rewrite Hterm in Hx.
  - by specialize (IH Hno Hterm).
Qed.

Lemma joinRecords_cons d r rs :
  joinRecords d (r :: rs) =
  String.append (String.append r (String d EmptyString)) (joinRecords d rs).
Proof. reflexivity. Qed.

(** Written back with their delimiters, the records are the input, closed
    by a delimiter when it is not. *)
Lemma joinRecords_recordsFrom d s : forall cur,
  noByte d cur = true ->
  joinRecords d (recordsFrom d s cur) =
  if terminated d (String.append cur s) then String.append cur s
  else String.append (String.append cur s) (String d EmptyString).
Proof.
  induction s as [|c s IH]; intros cur Hno.
  - rewrite append_empty_r. cbn [recordsFrom].
    destruct (terminated d cur) eqn:Hterm.
    + by rewrite (terminated_noByte d cur Hno Hterm).
    + destruct cur as [|x cur']; [done|].
      cbn [flushWord]. rewrite joinRecords_cons.
      change (joinRecords d []) with EmptyString.
      by rewrite append_empty_r.
  - cbn [recordsFrom]. destruct (Ascii.eqb_spec c d) as [->|Hne].
    + rewrite joinRecords_cons, (IH EmptyString eq_refl).
      change (String.append EmptyString s) with s.
      assert (Hterm : terminated d (String.append cur (String d s)) = terminated d s).
      { unfold terminated. rewrite lastByte_append.
        destruct s as [|y s']; [|done]. cbn. apply Ascii.eqb_refl. }
      rewrite Hterm. destruct (terminated d s).
      * by rewrite append_assoc.
      * by rewrite !append_assoc.
    + rewrite IH.
      * by rewrite append_assoc.
      * rewrite noByte_append, Hno. cbn [noByte andb].
        by destruct (Ascii.eqb_spec c d).
Qed.

Lemma recordsFrom_noByte d s : forall cur,
  noByte d cur = true -> Forall (fun r => noByte d r = true) (recordsFrom d s cur).
Proof.
  induction s as [|c s IH]; intros cur Hno.
  - cbn [recordsFrom]. destruct cur; [constructor | by repeat constructor].
  - cbn [recordsFrom]. destruct (Ascii.eqb_spec c d) as [->|Hne].
    + constructor; [done | by apply IH].
    + apply IH. rewrite noByte_append, Hno. cbn [noByte andb].
      by destruct (Ascii.eqb_spec c d).
Qed.

Lemma shortRecords_Forall records :
  shortRecords records = true ->
  Forall (fun r => len r < maxScanTokenSize) records.
Proof.
  induction records as [|r records IH]; [constructor|].
  cbn [shortRecords forallb]. intros [Hr Hrest]%andb_true_iff.
  constructor; [by apply Z.ltb_lt | by apply IH].
Qed.

(** X15.  Not at the end of the input, the split function asks for more
    data exactly when the data holds no delimiter, and otherwise returns
    the bytes before the first delimiter and advances past it. *)
Theorem on_next_record (d : ascii) (data : string) :
  len data <= maxInt ->
  (IndexByte data d = -1 /\ on d data false = Returns (0, None)) \/
  (exists tok rest,
     data = String.append tok (String d rest) /\ IndexByte tok d = -1 /\
     on d data false = Returns (len tok + 1, Some tok)).
Proof.
  intros Hlen.
  destruct (indexByte_split d data 0)
    as [(Hidx & Hno & _)|(tok & rest & Heq & _ & Hno & _)].
  - left. split; [done | by apply on_no_delimiter].
  - right. exists tok, rest. split_and!; [done | |].
    + by apply (noByte_IndexByte d tok 0).
    + rewrite Heq in Hlen |- *. by apply on_at_delimiter.
Qed.

Lemma on_next_record_witness :
  len "ab;cd;e" <= maxInt /\
  ((IndexByte "ab;cd;e" ";" = -1 /\ on ";" "ab;cd;e" false = Returns (0, None)) \/
   (exists tok rest,
      "ab;cd;e" = String.append tok (String ";" rest) /\ IndexByte tok ";" = -1 /\
      on ";" "ab;cd;e" false = Returns (len tok + 1, Some tok))).
Proof.
  assert (H : len "ab;cd;e" <= maxInt) by (vm_compute; discriminate).
  split; [exact H | exact (on_next_record ";" "ab;cd;e" H)].
Defined.

(** X16.  The token of a record does not depend on how much of the input
    has been read after it: more data behind a delimiter changes neither
    the token nor the advance. *)
Theorem on_prefix_stable (d : ascii) (data more : string) advance tok :
  on d data false = Returns (advance, Some tok) ->
  on d (String.append data more) false = Returns (advance, Some tok).
Proof.
  intros Hon.
  destruct (indexByte_split d data 0)
    as [(_ & Hno & _)|(tok' & rest & Heq & _ & Hno & _)].
  - by rewrite on_no_delimiter in Hon.
  - subst data. rewrite on_at_delimiter_wrap in Hon by done.
    injection Hon as <- <-.
    rewrite append_assoc.
    change (String.append (String d rest) more)
      with (String d (String.append rest more)).
    by apply on_at_delimiter_wrap.
Qed.

Lemma on_prefix_stable_witness :
  on ";" "ab;c" false = Returns (3, Some "ab") /\
  on ";" (String.append "ab;c" "d;e") false = Returns (3, Some "ab").
Proof.
  assert (H : on ";" "ab;c" false = Returns (3, Some "ab")) by reflexivity.
  split; [exact H | exact (on_prefix_stable ";" "ab;c" "d;e" 3 "ab" H)].
Defined.

(** X17.  Whatever the sizes of the reads, scanning the input yields the
    pieces between the delimiters, with a last piece that is not closed by
    a delimiter unless it is empty; it fails with [ErrTooLong] exactly when
    one of these pieces has 65536 bytes or more. *)
Theorem scanRecords_outcome (reads : nat -> Z) (d : ascii) (data : string) :
  scanRecords reads d data = Returns (recordsOrTooLong d data).
Proof.
  unfold scanRecords. rewrite scanLoop_records.
  - done.
  - cbn [String.length]. lia.
  - by unfold len, maxScanTokenSize.
Qed.

(** X18.  The records that the scan of the input yields hold no delimiter
    and fit in the buffer; written back, each followed by the delimiter,
    they are the input, with a delimiter added when the input is not empty
    and does not end with one. *)
Theorem scanRecords_round_trip (reads : nat -> Z) (d : ascii) (data : string)
    (records : list string) :
  scanRecords reads d data = Returns (Value records) ->
  Forall (fun r => IndexByte r d = -1 /\ len r < maxScanTokenSize) records /\
  joinRecords d records =
    (if terminated d data then data
     else String.append data (String d EmptyString)).
Proof.
  unfold scanRecords. rewrite scanLoop_records.
  2:{ cbn [String.length]. lia. }
  2:{ by unfold len, maxScanTokenSize. }
  change (String.append EmptyString data) with data.
  unfold recordsOrTooLong.
  destruct (shortRecords (recordsFrom d data EmptyString)) eqn:Hshort; [|done].
  intros [= <-]. split.
  - apply Forall_and. split.
    + eapply Forall_impl; [apply (recordsFrom_noByte d data EmptyString eq_refl)|].
      intros r Hr. by apply (noByte_IndexByte d r 0).
    + by apply shortRecords_Forall.
  - by rewrite (joinRecords_recordsFrom d data EmptyString eq_refl).
Qed.

Lemma scanRecords_round_trip_witness :
  scanRecords (fun _ => 2) ";" "ab;;cde" = Returns (Value ["ab"; EmptyString; "cde"]) /\
  Forall (fun r => IndexByte r ";" = -1 /\ len r < maxScanTokenSize)
         ["ab"; EmptyString; "cde"] /\
  joinRecords ";" ["ab"; EmptyString; "cde"] =
    (if terminated ";" "ab;;cde" then "ab;;cde"
     else String.append "ab;;cde" (String ";" EmptyString)).
Proof.
  assert (H : scanRecords (fun _ => 2) ";" "ab;;cde" =
              Returns (Value ["ab"; EmptyString; "cde"])) by (vm_compute; reflexivity).
  split; [exact H |].
  exact (scanRecords_round_trip (fun _ => 2) ";" "ab;;cde" _ H).
Defined.

(** ** Collecting the rows *)

Lemma splitFrom_nonempty sep s : forall cur, splitFrom sep s cur <> [].
Proof.
  induction s as [|c s IH]; intros cur; cbn [splitFrom]; [done|].
  destruct (Ascii.eqb c sep); [done | apply IH].
Qed.

(** [strings.Join] undoes [strings.Split]. *)
Lemma Join_splitFrom sep s : forall cur,
  Join (splitFrom sep s cur) (String sep EmptyString) = String.append cur s.
Proof.
  induction s as [|c s IH]; intros cur; cbn [splitFrom].
  - by rewrite append_empty_r.
  - destruct (Ascii.eqb_spec c sep) as [->|Hne].
    + specialize (IH EmptyString).
      pose proof (splitFrom_nonempty sep s EmptyString) as Hne.
      destruct (splitFrom sep s EmptyString) as [|f fs]; [done|].
      change (Join (cur :: f :: fs) (String sep EmptyString))
        with (String.append cur (String.append (String sep EmptyString)
                                   (Join (f :: fs) (String sep EmptyString)))).
      by rewrite IH.
    + rewrite IH. by rewrite append_assoc.
Qed.

Lemma splitFrom_len sep s : forall cur,
  Forall (fun f => len f <= len cur + len s) (splitFrom sep s cur).
Proof.
  induction s as [|c s IH]; intros cur; cbn [splitFrom].
  - repeat constructor. unfold len. lia.
  - destruct (Ascii.eqb c sep).
    + constructor; [unfold len; lia|].
      eapply Forall_impl; [apply IH|]. intros f Hf. cbn beta in Hf.
      unfold len in *. cbn [String.length] in *. lia.
    + eapply Forall_impl; [apply IH|]. intros f Hf. cbn beta in Hf.
      rewrite len_append in Hf. unfold len in *. cbn [String.length] in *. lia.
Qed.

Lemma collectField_plain age specs i column :
  (forall c s, specs !! c = Some s -> Type_ s = TypeString) ->
  collectField age specs i column = column.
Proof.
  intros Hplain. unfold collectField.
  destruct (specs !! Z.of_nat i) as [spec|] eqn:Hspec; [|done].
  by rewrite (Hplain _ _ Hspec).
Qed.

(** X19.  Under a specification without age columns the fields of a record
    are its pieces between the tabs: joined by tabs they are the record
    again. *)
Theorem collectRow_round_trip age (specs : gmap Z ColumnSpec) (line : string) :
  (forall c s, specs !! c = Some s -> Type_ s = TypeString) ->
  Join (collectRow age specs line) (String inputFieldSeparator EmptyString) = line.
Proof.
  intros Hplain.
  assert (collectRow age specs line = Split line inputFieldSeparator) as ->.
  { unfold collectRow. apply list_eq. intros i. rewrite list_lookup_imap.
    destruct (Split line inputFieldSeparator !! i) as [column|]; [|done].
    cbn. by rewrite collectField_plain. }
  unfold Split. apply Join_splitFrom.
Qed.

Lemma collectRow_round_trip_witness :
  Join (collectRow (fun _ _ => None) {[ 1 := widthSpec 3 (-1) ]}
          (String "a" (String "009" (String "b" EmptyString))))
       (String inputFieldSeparator EmptyString) =
  String "a" (String "009" (String "b" EmptyString)).
Proof.
  apply (collectRow_round_trip (fun _ _ => None) {[ 1 := widthSpec 3 (-1) ]}).
  intros c s [<- <-]%lookup_singleton_Some. reflexivity.
Defined.

Lemma collectRows_fields age specs records n :
  Forall (fun r => length (Split r inputFieldSeparator) = n) records ->
  Forall (fun row => length row = n) (collectRows age specs records).
Proof.
  intros Hall. apply Forall_lookup. intros r row Hrow.
  apply list_lookup_imap_Some in Hrow as (line & Hline & ->).
  unfold collectRow. rewrite length_imap.
  by apply (proj1 (Forall_lookup _ _) Hall r).
Qed.

Lemma collectRows_lens age specs records :
  Forall (fun r => len r <= maxInt) records ->
  (forall r i s a, age r i s = Some a -> len a <= maxInt) ->
  Forall (Forall (fun field => len field <= maxInt))
         (collectRows age specs records).
Proof.
  intros Hshort Hage. apply Forall_lookup. intros r row Hrow.
  apply list_lookup_imap_Some in Hrow as (line & Hline & ->).
  apply Forall_lookup. intros i field Hfield.
  apply list_lookup_imap_Some in Hfield as (column & Hcolumn & ->).
  assert (Hcol : len column <= maxInt).
  { pose proof (splitFrom_len inputFieldSeparator line EmptyString) as Hlen.
    pose proof (proj1 (Forall_lookup _ _) Hlen i column Hcolumn) as Hc.
    pose proof (proj1 (Forall_lookup _ _) Hshort r line Hline) as Hl.
    cbn beta in Hc, Hl. unfold len in *. cbn [String.length] in Hc. lia. }
  unfold collectField.
  destruct (specs !! Z.of_nat i) as [spec|]; [|done].
  destruct (Type_ spec); [done|].
  unfold renderAge. destruct (age r i column) as [a|] eqn:Ha; [|done].
  cbn [fst]. by apply (Hage r i column).
Qed.

(** X20.  The whole program on a well-formed input.  When the column
    specification parses, every line of the input has fewer than 65536
    bytes and the same number of tab-separated fields, and each flexible
    spec names a column the lines have and has a minimum of 0 or more, the
    run ends normally, whatever the sizes of the reads and the order of the
    map iteration, and writes one line per line of the input. *)
Theorem MainFromStdin_succeeds rangeOrder reads age terminalWidth rawSpec
    specs input n :
  validOrder rangeOrder ->
  ParseColumnSpecs rawSpec = Value specs ->
  Forall (fun r => len r < maxScanTokenSize /\
                   length (Split r inputFieldSeparator) = n)
         (recordsFrom inputRecordSeparator input EmptyString) ->
  (forall r i s a, age r i s = Some a -> len a <= maxInt) ->
  (forall c s, specs !! c = Some s -> HasFlexibleWidth s = true ->
               c < Z.of_nat n /\ 0 <= WidthMin s) ->
  exists ws lines,
    MainFromStdin rangeOrder reads age terminalWidth rawSpec input =
    Value {| stdout := concatLines lines; status := Exit0 |} /\
    length lines =
      length (recordsFrom inputRecordSeparator input EmptyString) /\
    length ws = n /\
    Forall2 (fun row line => formatRow ws row = Returns line)
      (collectRows age specs
         (recordsFrom inputRecordSeparator input EmptyString)) lines.
Proof.
  intros Hperm Hparse Hrecords Hage Hflex.
  apply Forall_and in Hrecords as [Hshort Hfields].
  set (records := recordsFrom inputRecordSeparator input EmptyString) in *.
  assert (Hscan : scanRecords reads inputRecordSeparator input =
                  Returns (Value records)).
  { unfold scanRecords. rewrite scanLoop_records.
    - change (String.append EmptyString input) with input.
      unfold recordsOrTooLong. fold records.
      assert (shortRecords records = true) as ->; [|done].
      unfold shortRecords. clear -Hshort.
      induction Hshort as [|r rs Hr _ IH]; [done|].
      cbn [forallb]. rewrite IH. by apply Z.ltb_lt in Hr as ->.
    - cbn [String.length]. lia.
    - by unfold len, maxScanTokenSize. }
  unfold MainFromStdin. rewrite Hparse, Hscan.
  destruct records as [|first rest] eqn:Hrecs.
  { exists (replicate n 0), []. split_and!.
    - unfold Main. by rewrite Hparse.
    - done.
    - apply length_replicate.
    - constructor. }
  rewrite <- Hrecs in *.
  destruct (Main_run_lines rangeOrder terminalWidth rawSpec specs
              (collectRows age specs records) n) as (ws & lines & Hrun & Hlen & _ & Hlines);
    try done.
  - rewrite Hrecs. discriminate.
  - by apply collectRows_fields.
  - apply collectRows_lens; [|done].
    eapply Forall_impl; [exact Hshort|]. intros r Hr. cbn beta in Hr.
    unfold maxScanTokenSize, maxInt in *. lia.
  - exists ws, lines. split_and!; try done.
    + by rewrite Hrun.
    + apply Forall2_length in Hlines. rewrite <- Hlines.
      unfold collectRows. by rewrite length_imap.
Qed.

Lemma MainFromStdin_succeeds_witness :
  exists ws lines,
    MainFromStdin keyOrder (fun _ => 4) (fun _ _ _ => None) 10 "2 3c-*"
                  sampleInput =
    Value {| stdout := concatLines lines; status := Exit0 |} /\
    length lines =
      length (recordsFrom inputRecordSeparator sampleInput EmptyString) /\
    length ws = 2%nat /\
    Forall2 (fun row line => formatRow ws row = Returns line)
      (collectRows (fun _ _ _ => None) {[ 1 := widthSpec 3 (-1) ]}
         (recordsFrom inputRecordSeparator sampleInput EmptyString)) lines.
Proof.
  apply (MainFromStdin_succeeds keyOrder (fun _ => 4) (fun _ _ _ => None) 10
           "2 3c-*" {[ 1 := widthSpec 3 (-1) ]} sampleInput 2).
  - exact keyOrder_valid.
  - vm_compute. reflexivity.
  - vm_compute. repeat constructor.
  - intros r i s a Ha. discriminate Ha.
  - intros c s [<- <-]%lookup_singleton_Some _. simpl. lia.
Defined.

Lemma shortRecords_app a b :
  shortRecords (a ++ b)%list = shortRecords a && shortRecords b.
Proof. unfold shortRecords. apply forallb_app. Qed.

(** After a delimiter the records start afresh. *)
Lemma recordsFrom_terminated d rest : forall before cur,
  lastByte before = Some d ->
  recordsFrom d (String.append before rest) cur =
  (recordsFrom d before cur ++ recordsFrom d rest EmptyString)%list.
Proof.
  induction before as [|c before IH]; intros cur Hlast; [done|].
  change (String.append (String c before) rest)
    with (String c (String.append before rest)).
  cbn [recordsFrom]. destruct before as [|c' before'].
  - injection Hlast as ->. rewrite Ascii.eqb_refl. reflexivity.
  - destruct (Ascii.eqb c d).
    + rewrite IH by exact Hlast. reflexivity.
    + by rewrite IH by exact Hlast.
Qed.

Lemma recordsOrTooLong_long d before line after :
  terminated d before = true -> noByte d line = true ->
  maxScanTokenSize <= len line ->
  recordsOrTooLong d (String.append before (String.append line after)) =
  Error ErrTooLong.
Proof.
  intros Hterm Hno Hlong. unfold recordsOrTooLong.
  assert (Hshort : shortRecords
            (recordsFrom d (String.append line after) EmptyString) = false).
  { rewrite recordsFrom_prefix by done. by apply recordsFrom_long. }
  unfold terminated in Hterm.
  destruct (lastByte before) as [c|] eqn:Hlast.
  - apply Ascii.eqb_eq in Hterm as ->.
    rewrite recordsFrom_terminated by done.
    by rewrite shortRecords_app, Hshort, andb_false_r.
  - assert (before = EmptyString) as ->.
    { clear -Hlast. induction before as [|c before IH]; [done|].
      destruct before; [done|]. by specialize (IH Hlast). }
    change (String.append EmptyString (String.append line after))
      with (String.append line after).
    by rewrite Hshort.
Qed.

(** X22.  A line of 65536 bytes or more, at the start of the input or
    after a newline, makes the program die reading the input, with
    [bufio.ErrTooLong], whatever comes after it and whatever the sizes of
    the reads: no row is formatted and nothing is written. *)
Theorem MainFromStdin_long_line rangeOrder reads age terminalWidth rawSpec
    specs before line after :
  ParseColumnSpecs rawSpec = Value specs ->
  terminated inputRecordSeparator before = true ->
  IndexByte line inputRecordSeparator = -1 ->
  maxScanTokenSize <= len line ->
  MainFromStdin rangeOrder reads age terminalWidth rawSpec
    (String.append before (String.append line after)) = Error ErrTooLong.
Proof.
  intros Hparse Hterm Hno Hlong.
  apply (noByte_IndexByte inputRecordSeparator line 0) in Hno; [|lia].
  unfold MainFromStdin, scanRecords. rewrite Hparse.
  rewrite scanLoop_records.
  - change (String.append EmptyString ?x) with x.
    by rewrite recordsOrTooLong_long.
  - cbn [String.length]. lia.
  - by unfold len, maxScanTokenSize.
Qed.

Lemma MainFromStdin_long_line_witness :
  MainFromStdin keyOrder (fun _ => 4096) (fun _ _ _ => None) 80 "2 3c-*"
    (String.append sampleInput
       (String.append (repeatByte (Z.to_nat maxScanTokenSize) "a") sampleInput))
  = Error ErrTooLong.
Proof.
  apply (MainFromStdin_long_line keyOrder (fun _ => 4096) (fun _ _ _ => None)
           80 "2 3c-*" {[ 1 := widthSpec 3 (-1) ]}).
  - vm_compute. reflexivity.
  - vm_compute. reflexivity.
  - vm_compute. reflexivity.
  - vm_compute. discriminate.
Defined.
